(** * Verification of the archive signing tool [eng/_util/cmd/sign/sign.go]

    The development embeds the Go program in Rocq:

    - Go strings are byte strings, modelled by [string] (a list of 8-bit
      characters); runes are [Z].
    - The functions of the Go standard library that the program calls and
      whose results decide the program's behaviour ([path/filepath.Match],
      [path/filepath.Join], [path/filepath.Base], [strings.HasSuffix],
      [errors.Is]) are embedded
      next to the program, on the Unix build ([Separator] is [/]).
    - The file system and the archive readers and writers are modelled by an
      explicit [world] that every I/O operation transforms. A file is found
      at its cleaned path; its content is read when it is opened and a
      write is seen at once; an archive is kept as its list of entries
      (header and content). Every operation that can fail takes its turn in
      a plan of faults carried in the world, so that a statement about
      every world covers every way in which the operations can fail.
    - A function either returns or panics; [defer] runs its call in both
      cases and drops its result.

    The source is unfinished: [run] refers to an undeclared variable,
    [writeSignedArchive] lacks its last [return], the callback of its
    tar.gz branch and the bodies of [prepareNotarization] and
    [prepareSignatures] are empty. The functions are embedded as they are
    written; where a [return] is missing the results have their zero
    values. *)

From Stdlib Require Import ZArith Ascii String List Bool Lia.
From stdpp Require Import base option list strings gmap.
Import ListNotations.

Local Open Scope string_scope.
Local Open Scope bool_scope.

(** ** Errors and outcomes *)

(** Go [error] values.  The standard library's sentinel errors are
    constructors; [Wrapped] is an error that wraps another one (an [Unwrap]
    chain, as [fmt.Errorf] with [%w] builds); the two [fmt.Errorf] calls of the
    program, which format with [%v] and therefore do not wrap, have their own
    constructors. *)
Inductive error : Type :=
| EOF                                     (* io.EOF *)
| ErrUnexpectedEOF                        (* io.ErrUnexpectedEOF *)
| ErrBadPattern                           (* filepath.ErrBadPattern *)
| ErrNotExist (p : string)                (* fs.ErrNotExist for a path *)
| ErrIsDir (p : string)                   (* a directory where a file is needed *)
| ErrNotDir (p : string)                  (* a file where a directory is needed *)
| ErrFormat                               (* zip.ErrFormat *)
| ErrHeader                               (* gzip.ErrHeader *)
| IOError (msg : string)                  (* any other I/O error *)
| Wrapped (msg : string) (inner : error)
| UnknownArchiveType (p : string)         (* "unknown archive type: %s" *)
| FailedToExtract (p : string) (cause : error).
                                          (* "failed to extract file from %q: %v" *)

(** A Go call either returns or panics. *)
Inductive outcome (A : Type) : Type :=
| Returns (a : A)
| Panics (e : error).
Arguments Returns {A} a.
Arguments Panics {A} e.

(** ** Byte strings *)

Module bytes.

Definition byteZ (c : ascii) : Z := Z.of_N (N_of_ascii c).

Definition is_empty (s : string) : bool :=
  match s with EmptyString => true | String _ _ => false end.

(** [s[n:]] *)
Fixpoint drop (n : nat) (s : string) : string :=
  match n, s with
  | O, _ => s
  | S n', String _ t => drop n' t
  | S _, EmptyString => EmptyString
  end.

(** [s[:n]] *)
Fixpoint take (n : nat) (s : string) : string :=
  match n, s with
  | O, _ => EmptyString
  | S n', String c t => String c (take n' t)
  | S _, EmptyString => EmptyString
  end.

(** [s[1:]] when [s[0] == c]. *)
Definition behead (c : ascii) (s : string) : option string :=
  match s with
  | String d t => if Ascii.eqb d c then Some t else None
  | EmptyString => None
  end.

(** [strings.Contains(s, "/")]: some byte of [s] is the separator. *)
Fixpoint containsSep (s : string) : bool :=
  match s with
  | EmptyString => false
  | String c t => Ascii.eqb c "/" || containsSep t
  end.

(** [strings.HasSuffix(s, suffix)]:
    [len(s) >= len(suffix) && s[len(s)-len(suffix):] == suffix]. *)
Definition HasSuffix (s suffix : string) : bool :=
  (String.length suffix <=? String.length s)%nat
  && String.eqb (drop (String.length s - String.length suffix) s) suffix.

End bytes.

(** ** [unicode/utf8] *)

Module utf8.
Import bytes.
Local Open Scope Z_scope.

Definition RuneError : Z := 65533.   (* U+FFFD *)

(** The accept range of the second byte, by leading byte (the tables
    [first] and [acceptRanges]). *)
Definition acceptRange (s0 : Z) : Z * Z :=
  if s0 =? 224 then (160, 191)        (* 0xE0: 0xA0..0xBF *)
  else if s0 =? 237 then (128, 159)   (* 0xED: 0x80..0x9F *)
  else if s0 =? 240 then (144, 191)   (* 0xF0: 0x90..0xBF *)
  else if s0 =? 244 then (128, 143)   (* 0xF4: 0x80..0x8F *)
  else (128, 191).                    (* locb..hicb *)

Definition continuation (b : Z) : bool := (128 <=? b) && (b <=? 191).

(** [utf8.DecodeRuneInString]: the first rune of [s] and its width in
    bytes; [(RuneError, 0)] on the empty string and [(RuneError, 1)] on an
    invalid encoding. *)
Definition DecodeRuneInString (s : string) : Z * nat :=
  match s with
  | EmptyString => (RuneError, 0%nat)
  | String c0 t =>
    let s0 := byteZ c0 in
    if s0 <? 128 then (s0, 1%nat)
    else if (s0 <? 194) || (244 <? s0) then (RuneError, 1%nat)
    else
      let sz := if s0 <? 224 then 2%nat else if s0 <? 240 then 3%nat else 4%nat in
      let '(lo, hi) := acceptRange s0 in
      if (String.length s <? sz)%nat then (RuneError, 1%nat)
      else
        match t with
        | EmptyString => (RuneError, 1%nat)
        | String c1 t1 =>
          let s1 := byteZ c1 in
          if (s1 <? lo) || (hi <? s1) then (RuneError, 1%nat)
          else if (sz <=? 2)%nat then
            (Z.lor (Z.shiftl (Z.land s0 31) 6) (Z.land s1 63), 2%nat)
          else
            match t1 with
            | EmptyString => (RuneError, 1%nat)
            | String c2 t2 =>
              let s2 := byteZ c2 in
              if negb (continuation s2) then (RuneError, 1%nat)
              else if (sz <=? 3)%nat then
                (Z.lor (Z.lor (Z.shiftl (Z.land s0 15) 12)
                              (Z.shiftl (Z.land s1 63) 6))
                       (Z.land s2 63), 3%nat)
              else
                match t2 with
                | EmptyString => (RuneError, 1%nat)
                | String c3 _ =>
                  let s3 := byteZ c3 in
                  if negb (continuation s3) then (RuneError, 1%nat)
                  else
                    (Z.lor (Z.lor (Z.lor (Z.shiftl (Z.land s0 7) 18)
                                         (Z.shiftl (Z.land s1 63) 12))
                                  (Z.shiftl (Z.land s2 63) 6))
                           (Z.land s3 63), 4%nat)
                end
            end
        end
  end.

End utf8.

(** ** [path/filepath] *)

Module filepath.
Import bytes.

(** *** [Match] *)

(** [scanChunk]: leading stars are dropped (and remembered), then the
    chunk runs to the next star outside a character class. *)
Fixpoint skipStars (pattern : string) : bool * string :=
  match pattern with
  | String c r =>
    if Ascii.eqb c "*" then (true, snd (skipStars r)) else (false, pattern)
  | EmptyString => (false, pattern)
  end.

(** The index at which the [Scan] loop of [scanChunk] stops. *)
Fixpoint scanIndex (inrange : bool) (pattern : string) : nat :=
  match pattern with
  | EmptyString => 0
  | String c r =>
    if Ascii.eqb c "\" then
      match r with
      | EmptyString => 1
      | String _ r' => 2 + scanIndex inrange r'
      end
    else if Ascii.eqb c "[" then S (scanIndex true r)
    else if Ascii.eqb c "]" then S (scanIndex false r)
    else if Ascii.eqb c "*" then
      if inrange then S (scanIndex inrange r) else 0
    else S (scanIndex inrange r)
  end.

Definition scanChunk (pattern : string) : bool * string * string :=
  let '(star, p) := skipStars pattern in
  let i := scanIndex false p in
  (star, take i p, drop i p).

(** [getEsc]: one possibly escaped rune of a character class; the
    error is [ErrBadPattern]. The remaining chunk is returned also when
    the call fails, as in Go, but no caller reads it then. *)
Definition getEsc (chunk : string) : Z * string * option error :=
  match chunk with
  | EmptyString => (0%Z, EmptyString, Some ErrBadPattern)
  | String c t =>
    if Ascii.eqb c "-" || Ascii.eqb c "]" then
      (0%Z, EmptyString, Some ErrBadPattern)
    else
      let chunk1 := if Ascii.eqb c "\" then t else chunk in
      if Ascii.eqb c "\" && is_empty chunk1 then
        (0%Z, EmptyString, Some ErrBadPattern)
      else
        let '(r, n) := utf8.DecodeRuneInString chunk1 in
        let err1 :=
          if (r =? utf8.RuneError)%Z && (n =? 1)%nat
          then Some ErrBadPattern else None in
        let nchunk := drop n chunk1 in
        let err2 := if is_empty nchunk then Some ErrBadPattern else err1 in
        (r, nchunk, err2)
  end.

(** The range loop of a character class: [r] is the rune of the name
    under test. Returns the chunk after the closing bracket and whether
    some range contained [r]; [None] is out of fuel. *)
Fixpoint classLoop (fuel : nat) (chunk : string) (r : Z) (nrange : nat)
         (matched : bool) : option (string * bool + error) :=
  match fuel with
  | O => None
  | S fuel' =>
    match (if (0 <? nrange)%nat then behead "]" chunk else None) with
    | Some t => Some (inl (t, matched))
    | None =>
      match getEsc chunk with
      | (_, _, Some e) => Some (inr e)
      | (lo, chunk1, None) =>
        match behead "-" chunk1 with
        | Some t =>
          match getEsc t with
          | (_, _, Some e) => Some (inr e)
          | (hi, chunk2, None) =>
            classLoop fuel' chunk2 r (S nrange)
                      (if (lo <=? r)%Z && (r <=? hi)%Z then true else matched)
          end
        | None =>
          classLoop fuel' chunk1 r (S nrange)
                    (if (lo <=? r)%Z && (r <=? lo)%Z then true else matched)
        end
      end
    end
  end.

(** The three results of [matchChunk]: [(rest, true, nil)],
    [("", false, nil)] and [("", false, err)]. *)
Inductive chunkResult : Type :=
| ChunkOk (rest : string)
| ChunkFail
| ChunkErr (e : error).

(** [matchChunk]: after the match has failed the loop goes on over the
    chunk, checking that the pattern is well formed, without reading
    [s]. [None] is out of fuel. *)
Fixpoint matchChunkLoop (fuel : nat) (chunk s : string) (failed : bool)
  : option chunkResult :=
  match fuel with
  | O => None
  | S fuel' =>
    match chunk with
    | EmptyString => Some (if failed then ChunkFail else ChunkOk s)
    | String c ct =>
      let failed := if negb failed && is_empty s then true else failed in
      if Ascii.eqb c "[" then
        let '(r, s1) :=
          if failed then (0%Z, s)
          else let '(r, n) := utf8.DecodeRuneInString s in (r, drop n s) in
        let '(negated, chunk1) :=
          match behead "^" ct with
          | Some t => (true, t)
          | None => (false, ct)
          end in
        match classLoop fuel' chunk1 r 0 false with
        | None => None
        | Some (inr e) => Some (ChunkErr e)
        | Some (inl (chunk2, matched)) =>
          matchChunkLoop fuel' chunk2 s1
                         (if Bool.eqb matched negated then true else failed)
        end
      else if Ascii.eqb c "?" then
        if failed then matchChunkLoop fuel' ct s failed
        else
          let failed' :=
            match s with
            | String c0 _ => Ascii.eqb c0 "/"
            | EmptyString => false
            end in
          let '(_, n) := utf8.DecodeRuneInString s in
          matchChunkLoop fuel' ct (drop n s) failed'
      else
        (* a backslash escapes the next byte, then the literal case *)
        let lit := if Ascii.eqb c "\" then ct else chunk in
        match lit with
        | EmptyString => Some (ChunkErr ErrBadPattern)
        | String l lt =>
          if failed then matchChunkLoop fuel' lt s failed
          else
            match s with
            | String c0 st =>
              matchChunkLoop fuel' lt st (negb (Ascii.eqb l c0))
            | EmptyString => matchChunkLoop fuel' lt s true
            end
        end
    end
  end.

Definition matchChunk (chunk s : string) : option chunkResult :=
  matchChunkLoop (S (String.length chunk)) chunk s false.

(** The loop of [Match] that skips [i+1] bytes of the name, never a
    separator, looking for a place where the chunk matches. *)
Inductive starResult : Type :=
| StarFound (rest : string)
| StarNotFound
| StarErr (e : error).

Fixpoint starLoop (chunk : string) (lastChunk : bool) (name : string)
  : option starResult :=
  match name with
  | EmptyString => Some StarNotFound
  | String c rest =>
    if Ascii.eqb c "/" then Some StarNotFound
    else
      match matchChunk chunk rest with
      | None => None
      | Some (ChunkOk t) =>
        if lastChunk && negb (is_empty t)
        then starLoop chunk lastChunk rest
        else Some (StarFound t)
      | Some (ChunkErr e) => Some (StarErr e)
      | Some ChunkFail => starLoop chunk lastChunk rest
      end
  end.

(** The loop that [Match] runs before it returns [false] with no error: the
    rest of the pattern must be well formed (Go 1.16 and later). [Some None]
    is a well-formed rest; the outer [option] is fuel. *)
Fixpoint checkRest (fuel : nat) (pattern : string) : option (option error) :=
  match fuel with
  | O => None
  | S fuel' =>
    if is_empty pattern then Some None
    else
      let '(_, chunk, pattern') := scanChunk pattern in
      match matchChunk chunk EmptyString with
      | None => None
      | Some (ChunkErr e) => Some (Some e)
      | Some _ => checkRest fuel' pattern'
      end
  end.

(** [return false, nil], after the rest of the pattern has been checked. *)
Definition noMatch (fuel : nat) (pattern : string)
  : option (bool * option error) :=
  match checkRest fuel pattern with
  | None => None
  | Some err => Some (false, err)
  end.

(** The [Pattern] loop of [Match]; the outer [option] is fuel. *)
Fixpoint MatchLoop (fuel : nat) (pattern name : string)
  : option (bool * option error) :=
  match fuel with
  | O => None
  | S fuel' =>
    if is_empty pattern then Some (is_empty name, None)
    else
      let '(star, chunk, pattern') := scanChunk pattern in
      if star && is_empty chunk then Some (negb (containsSep name), None)
      else
        match matchChunk chunk name with
        | None => None
        | Some res =>
          let continue_with :=
            match res with
            | ChunkOk t =>
              if is_empty t || negb (is_empty pattern') then Some t else None
            | _ => None
            end in
          match continue_with, res with
          | Some t, _ => MatchLoop fuel' pattern' t
          | None, ChunkErr e => Some (false, Some e)
          | None, _ =>
            if star then
              match starLoop chunk (is_empty pattern') name with
              | None => None
              | Some (StarFound t) => MatchLoop fuel' pattern' t
              | Some (StarErr e) => Some (false, Some e)
              | Some StarNotFound => noMatch fuel' pattern'
              end
            else noMatch fuel' pattern'
          end
        end
  end.

(** [filepath.Match(pattern, name)], as of Go 1.16. The fuel, one more than
    the length of the pattern, is never used up ([MatchLoop_total] below), so
    the fallback branch is dead. *)
Definition Match (pattern name : string) : bool * option error :=
  match MatchLoop (S (String.length pattern)) pattern name with
  | Some r => r
  | None => (false, None)
  end.

End filepath.

Module filepath_join.
Import bytes.

(** *** [Clean] and [Join] *)

(** The elements of a path between separators; [a//b] has an empty
    element. *)
Fixpoint elements (path : string) : list string :=
  match path with
  | EmptyString => [EmptyString]
  | String c t =>
    if Ascii.eqb c "/" then EmptyString :: elements t
    else
      match elements t with
      | e :: es => String c e :: es
      | [] => [String c EmptyString]
      end
  end.

(** One element of the loop of [Clean]. [out] is the output buffer as a
    stack of elements, last first. An empty element and [.] are dropped;
    [..] removes the last element when there is one to remove
    ([out.w > dotdot]), is dropped at the root, and is kept otherwise. *)
Definition cleanStep (rooted : bool) (out : list string) (e : string)
  : list string :=
  if String.eqb e "" || String.eqb e "." then out
  else if String.eqb e ".." then
    match out with
    | top :: rest => if String.eqb top ".." then e :: out else rest
    | [] => if rooted then [] else [e]
    end
  else e :: out.

Fixpoint joinSep (es : list string) : string :=
  match es with
  | [] => EmptyString
  | [e] => e
  | e :: es' => e +:+ "/" +:+ joinSep es'
  end.

(** [filepath.Clean], computed element by element. *)
Definition Clean (path : string) : string :=
  match path with
  | EmptyString => "."
  | String c _ =>
    let rooted := Ascii.eqb c "/" in
    let out := rev (fold_left (cleanStep rooted) (elements path) []) in
    if rooted then "/" +:+ joinSep out
    else match out with [] => "." | _ => joinSep out end
  end.

(** [filepath.Join]: the elements from the first non-empty one on are
    joined with separators and cleaned. *)
Fixpoint Join (elem : list string) : string :=
  match elem with
  | [] => EmptyString
  | e :: rest => if is_empty e then Join rest else Clean (joinSep elem)
  end.

End filepath_join.

(** ** The world: file system, archives, faults and the log of operations *)

Module zip.
(** [zip.FileHeader]: the name and the metadata carried with an entry. *)
Record FileHeader : Type := mkFileHeader {
  Name : string;
  Comment : string;
  Method : N;
  Modified : Z;
  ExternalAttrs : N;
  Extra : string
}.
End zip.

Module tar.
(** [tar.Header] *)
Record Header : Type := mkHeader {
  Name : string;
  Mode : Z;
  Size : Z;
  ModTime : Z;
  Typeflag : ascii
}.
End tar.

(** The content of a file. An archive's bytes are kept as the entries they
    decode to; an entry's content is again a content, so an archive inside
    an archive keeps its structure. [complete] is false for an archive
    whose end (the zip central directory, the gzip trailer) has not been
    written. A writer stores the header it is given and a reader returns
    the stored header. *)
#[warnings="-register-all"]
Inductive fdata : Type :=
| Raw (b : string)
| ZipData (es : list (zip.FileHeader * fdata)) (complete : bool)
| TarGzData (es : list (tar.Header * fdata)) (complete : bool).

(** What must be closed. *)
Inductive resource : Type :=
| RFile (p : string)         (* an [*os.File] *)
| RZipReader (p : string)    (* a [*zip.ReadCloser] *)
| RZipEntry (name : string)  (* the [io.ReadCloser] of [File.Open] *)
| RZipWriter (p : string)    (* a [*zip.Writer] on the file [p] *)
| RTarWriter (p : string)    (* a [*tar.Writer] *)
| RGzipWriter (p : string).  (* a [*gzip.Writer] *)

#[global] Instance resource_eq_dec : EqDecision resource.
Proof. solve_decision. Defined.

#[global] Instance error_eq_dec : EqDecision error.
Proof. solve_decision. Defined.

(** The I/O operations that can fail. A [Close] whose result the program
    drops ([defer x.Close()], or a bare [x.Close()] statement) is logged
    with [dropped := true]. *)
Inductive op : Type :=
| OpMkdirAll (p : string)
| OpCreate (p : string)
| OpOpen (p : string)
| OpZipOpenReader (p : string)
| OpZipFileOpen (name : string)
| OpGzipNewReader (p : string)
| OpTarNext
| OpCreateHeader (name : string)
| OpCopy
| OpClose (r : resource) (dropped : bool).

Definition event : Type := op * option error.

Record world : Type := World {
  dirs : gset string;              (* the directories *)
  files : gmap string fdata;       (* the regular files *)
  faults : list (option error);    (* [Some e]: the next operation fails with [e] *)
  trace : list event;              (* the operations performed, oldest first *)
  live : list resource             (* opened and not yet closed, newest first *)
}.

Module fs.
Import bytes filepath_join.

(** The directory a cleaned path lies in. *)
Definition parentDir (p : string) : string :=
  let d := joinSep (removelast (elements p)) in
  if is_empty d then
    match p with
    | String "/" _ => "/"
    | _ => "."
    end
  else d.

(** A cleaned path and the directories above it, outermost first. *)
Fixpoint prefixes (above : list string) (es : list string) : list string :=
  match es with
  | [] => []
  | e :: es' =>
    let here := (above ++ [e])%list in
    let p := joinSep here in
    if is_empty p then prefixes here es' else p :: prefixes here es'
  end.

Definition ancestors (p : string) : list string := prefixes [] (elements p).

Definition dirExists (w : world) (d : string) : bool :=
  String.eqb d "." || String.eqb d "/" || bool_decide (d ∈ dirs w).

Definition isFile (w : world) (p : string) : bool :=
  bool_decide (is_Some (files w !! p)).

Definition setDirs (d : gset string) (w : world) : world :=
  World d (files w) (faults w) (trace w) (live w).
Definition setFiles (f : gmap string fdata) (w : world) : world :=
  World (dirs w) f (faults w) (trace w) (live w).
Definition setFaults (fl : list (option error)) (w : world) : world :=
  World (dirs w) (files w) fl (trace w) (live w).
Definition setLive (l : list resource) (w : world) : world :=
  World (dirs w) (files w) (faults w) (trace w) l.
Definition log (ev : event) (w : world) : world :=
  World (dirs w) (files w) (faults w) (trace w ++ [ev])%list (live w).

Definition writeTo (p : string) (d : fdata) (w : world) : world :=
  setFiles (<[p := d]> (files w)) w.
Definition acquire (r : resource) (w : world) : world :=
  setLive (r :: live w) w.

(** The first occurrence of [r] leaves the list. *)
Fixpoint releaseFrom (r : resource) (l : list resource) : list resource :=
  match l with
  | [] => []
  | x :: l' => if decide (x = r) then l' else x :: releaseFrom r l'
  end.
Definition release (r : resource) (w : world) : world :=
  setLive (releaseFrom r (live w)) w.

Definition zipEntries (d : option fdata) : list (zip.FileHeader * fdata) :=
  match d with
  | Some (ZipData es _) => es
  | _ => []
  end.

Definition tarEntries (d : option fdata) : list (tar.Header * fdata) :=
  match d with
  | Some (TarGzData es _) => es
  | _ => []
  end.

(** The content of the entry written last is replaced. *)
Fixpoint setLast {H : Type} (es : list (H * fdata)) (d : fdata)
  : list (H * fdata) :=
  match es with
  | [] => []
  | [(h, _)] => [(h, d)]
  | e :: es' => e :: setLast es' d
  end.

End fs.

(** ** The monad of the program

    A computation transforms a state and returns or panics. The state is
    the [world], or the world together with the local variables that a
    closure captures and assigns ([world * L]). *)

Definition M (S A : Type) : Type := S -> outcome A * S.

Definition ret {S A : Type} (a : A) : M S A := fun s => (Returns a, s).

Definition bind {S A B : Type} (m : M S A) (k : A -> M S B) : M S B :=
  fun s =>
    match m s with
    | (Returns a, s') => k a s'
    | (Panics e, s') => (Panics e, s')
    end.

Notation "'let*' x ':=' m 'in' k" := (bind m (fun x => k))
  (at level 10, x pattern, m at level 100, k at level 200).

(** A call of a pure function that may panic. *)
Definition call {S A : Type} (o : outcome A) : M S A := fun s => (o, s).

(** [defer d] at the head of [body]: [d] runs when [body] has returned
    or panicked, and its result is dropped. *)
Definition defer {S A : Type} (d : M S unit) (body : M S A) : M S A :=
  fun s => let '(r, s1) := body s in (r, snd (d s1)).

(** An operation on the world, run next to captured variables. *)
Definition inWorld {L A : Type} (m : M world A) : M (world * L) A :=
  fun '(w, l) => let '(r, w') := m w in (r, (w', l)).

(** A block that declares the variables [l] its closures capture. *)
Definition withLocals {L A : Type} (l : L) (m : M (world * L) A)
  : M world (A * L) :=
  fun w =>
    match m (w, l) with
    | (Returns a, (w', l')) => (Returns (a, l'), w')
    | (Panics e, (w', _)) => (Panics e, w')
    end.

Definition errOf {A : Type} (r : A + error) : option error :=
  match r with
  | inl _ => None
  | inr e => Some e
  end.

(** [if closeErr := x.Close(); err == nil { err = closeErr }] *)
Definition orElse (err closeErr : option error) : option error :=
  match err with
  | None => closeErr
  | Some _ => err
  end.

(** ** The I/O operations *)

(** What a reader yields: the whole content, or a read error. *)
Inductive stream : Type :=
| Content (d : fdata)
| Unreadable (e : error).

(** An [io.ReadCloser]. *)
Record ioReadCloser : Type := mkIoReadCloser {
  closer : resource;
  reads : stream
}.

(** An [io.Writer]: a file, or the entry a zip writer has just created. In
    every call of [io.Copy] in the program the destination has just been
    created, so a copy determines its whole content. *)
Inductive ioWriter : Type :=
| FileWriter (p : string)
| ZipEntryWriter (p : string).

Module io.
Import fs.

Definition popFault : M world (option error) :=
  fun w =>
    match faults w with
    | [] => (Returns None, w)
    | f :: fl => (Returns f, setFaults fl w)
    end.

(** An operation [o] with semantics [sem]: the fault plan may make it
    fail before it has any effect; its result is logged. *)
Definition attempt {A : Type} (o : op) (sem : world -> (A + error) * world)
  : M world (A + error) :=
  fun w =>
    match popFault w with
    | (Returns (Some e), w1) => (Returns (inr e), log (o, Some e) w1)
    | (_, w1) =>
      let '(r, w2) := sem w1 in (Returns r, log (o, errOf r) w2)
    end.

(** [x.Close()]. The resource leaves [live] whether or not the call
    reports an error; a writer that closes without error has written
    the end of its archive. *)
Definition closeEffect (r : resource) (w : world) : world :=
  match r with
  | RZipWriter p => writeTo p (ZipData (zipEntries (files w !! p)) true) w
  | RTarWriter p => writeTo p (TarGzData (tarEntries (files w !! p)) false) w
  | RGzipWriter p => writeTo p (TarGzData (tarEntries (files w !! p)) true) w
  | _ => w
  end.

Definition closeWith (dropped : bool) (r : resource) : M world (option error) :=
  fun w =>
    match popFault w with
    | (Returns (Some e), w1) =>
      (Returns (Some e), log (OpClose r dropped, Some e) (release r w1))
    | (_, w1) =>
      (Returns None, log (OpClose r dropped, None) (release r (closeEffect r w1)))
    end.

(** [closeErr := x.Close()] *)
Definition Close (r : resource) : M world (option error) := closeWith false r.

(** [x.Close()] as a statement or under [defer]: the error is dropped. *)
Definition CloseDropped (r : resource) : M world unit :=
  let* _ := closeWith true r in ret tt.

(** [io.Copy(dst, src)] *)
Definition Copy (dst : ioWriter) (src : stream) : M world (option error) :=
  let* r := attempt OpCopy (fun w =>
    match src with
    | Unreadable e => (inr e, w)
    | Content d =>
      match dst with
      | FileWriter p => (inl tt, writeTo p d w)
      | ZipEntryWriter p =>
        (inl tt, writeTo p (ZipData (setLast (zipEntries (files w !! p)) d) false) w)
      end
    end) in
  ret (errOf r).

End io.

Module os.
Import fs filepath_join.

(** An [*os.File]: the cleaned path it was opened at and what reading
    it yields. *)
Record File : Type := mkFile {
  fname : string;
  fcontent : stream
}.

Definition asReadCloser (f : File) : ioReadCloser :=
  mkIoReadCloser (RFile (fname f)) (fcontent f).

(** [os.MkdirAll(p, 0o777)] *)
Definition MkdirAll (p : string) : M world (option error) :=
  let* r := io.attempt (OpMkdirAll p) (fun w =>
    let anc := ancestors (Clean p) in
    match List.find (isFile w) anc with
    | Some a => (inr (ErrNotDir a), w)
    | None => (inl tt, setDirs (list_to_set anc ∪ dirs w) w)
    end) in
  ret (errOf r).

(** [os.Create(p)]: the file is created or truncated; the directory it
    lies in must exist. *)
Definition Create (p : string) : M world (File + error) :=
  io.attempt (OpCreate p) (fun w =>
    let key := Clean p in
    if dirExists w key then (inr (ErrIsDir key), w)
    else if dirExists w (parentDir key) then
      (inl (mkFile key (Content (Raw ""))),
       acquire (RFile key) (writeTo key (Raw "") w))
    else (inr (ErrNotExist key), w)).

(** [os.Open(p)] *)
Definition Open (p : string) : M world (File + error) :=
  io.attempt (OpOpen p) (fun w =>
    let key := Clean p in
    match files w !! key with
    | Some d => (inl (mkFile key (Content d)), acquire (RFile key) w)
    | None =>
      if dirExists w key then
        (inl (mkFile key (Unreadable (ErrIsDir key))), acquire (RFile key) w)
      else (inr (ErrNotExist key), w)
    end).

End os.

Module archive_zip.
Import fs filepath_join.

(** [*zip.File] *)
Record File : Type := mkFile {
  FileHeader : zip.FileHeader;
  content : fdata
}.

Definition Name (f : File) : string := zip.Name (FileHeader f).

(** [*zip.ReadCloser] *)
Record ReadCloser : Type := mkReadCloser {
  Files : list File;            (* the field [File] *)
  source : string
}.

Record Writer : Type := mkWriter { target : string }.

(** [zip.OpenReader(p)] *)
Definition OpenReader (p : string) : M world (ReadCloser + error) :=
  io.attempt (OpZipOpenReader p) (fun w =>
    let key := Clean p in
    match files w !! key with
    | Some (ZipData es true) =>
      (inl (mkReadCloser (map (fun e => mkFile (fst e) (snd e)) es) key),
       acquire (RZipReader key) w)
    | Some _ => (inr ErrFormat, w)
    | None =>
      if dirExists w key then (inr (ErrIsDir key), w)
      else (inr (ErrNotExist key), w)
    end).

(** [f.Open()] *)
Definition Open (f : File) : M world (ioReadCloser + error) :=
  io.attempt (OpZipFileOpen (Name f)) (fun w =>
    (inl (mkIoReadCloser (RZipEntry (Name f)) (Content (content f))),
     acquire (RZipEntry (Name f)) w)).

(** [zip.NewWriter(w)] *)
Definition NewWriter (f : os.File) : M world Writer :=
  fun w => (Returns (mkWriter (os.fname f)), acquire (RZipWriter (os.fname f)) w).

(** [zw.CreateHeader(fh)] *)
Definition CreateHeader (zw : Writer) (fh : zip.FileHeader)
  : M world (ioWriter + error) :=
  io.attempt (OpCreateHeader (zip.Name fh)) (fun w =>
    let p := target zw in
    (inl (ZipEntryWriter p),
     writeTo p (ZipData (zipEntries (files w !! p) ++ [(fh, Raw "")]) false) w)).

End archive_zip.

Module archive_tar.
Import fs.

(** A [*tar.Reader]: the entries still to come and the error that
    [Next] reports after them ([io.EOF] at the end of a well-formed
    archive). *)
Inductive Reader : Type :=
| AtEnd (e : error)
| AtEntry (h : tar.Header) (body : fdata) (rest : Reader).

Fixpoint readerOf (es : list (tar.Header * fdata)) (e : error) : Reader :=
  match es with
  | [] => AtEnd e
  | (h, d) :: es' => AtEntry h d (readerOf es' e)
  end.

Record Writer : Type := mkWriter { target : string }.

(** [tar.NewWriter(zw)] *)
Definition NewWriter (p : string) : M world Writer :=
  fun w => (Returns (mkWriter p), acquire (RTarWriter p) w).

End archive_tar.

Module gzip.
Import fs.

Record Writer : Type := mkWriter { target : string }.

(** [gzip.NewReader(f)] followed by [tar.NewReader]: the header of the
    gzip stream is read at once. The readers decode the open file [f];
    the program closes [f] and calls no [Close] on the [*gzip.Reader]. *)
Definition NewReader (f : os.File) : M world (archive_tar.Reader + error) :=
  io.attempt (OpGzipNewReader (os.fname f)) (fun w =>
    match os.fcontent f with
    | Content (TarGzData es c) =>
      (inl (archive_tar.readerOf es (if c then EOF else ErrUnexpectedEOF)), w)
    | Content (Raw EmptyString) => (inr EOF, w)
    | Content _ => (inr ErrHeader, w)
    | Unreadable e => (inr e, w)
    end).

(** [gzip.NewWriter(w)] *)
Definition NewWriter (f : os.File) : M world Writer :=
  fun w => (Returns (mkWriter (os.fname f)), acquire (RGzipWriter (os.fname f)) w).

End gzip.

(** [errors.Is(err, target)] *)
Fixpoint errors_Is (err target : error) : bool :=
  if decide (err = target) then true
  else
    match err with
    | Wrapped _ inner => errors_Is inner target
    | _ => false
    end.

(** ** The program: archives and the entries to sign *)

Module sign.
Import bytes.

(** [fileToSign] *)
Record fileToSign : Type := FileToSign {
  archivePath : string;
  fullPath : string;
  authenticode : string
}.

(** [archiveType] *)
Inductive archiveType : Type :=
| zipArchive
| tarGzArchive.

(** [archive] *)
Record archive : Type := Archive {
  path : string;
  kind : archiveType;         (* the field [archiveType] *)
  macOS : bool;
  extractEntries : list string
}.

(** [matchOrPanic] *)
Definition matchOrPanic (pattern name : string) : outcome bool :=
  match filepath.Match pattern name with
  | (_, Some err) => Panics err
  | (ok, None) => Returns ok
  end.

(** [a.archiveType == zipArchive] *)
Definition isZip (a : archive) : bool :=
  match kind a with
  | zipArchive => true
  | tarGzArchive => false
  end.

Definition entryExtractDir (a : archive) : string :=
  path a +:+ ".extracted".

(** [newArchive]. The result is the archive or the error; the zero
    value of [macOS] is [false]. *)
Definition newArchive (p : string) : outcome (archive + error) :=
  let finish (t : archiveType) : outcome (archive + error) :=
    match matchOrPanic "go*darwin*.tar.gz" p with
    | Panics e => Panics e
    | Returns m => Returns (inl (Archive p t m []))
    end in
  match matchOrPanic p "go*.zip" with
  | Panics e => Panics e
  | Returns true => finish zipArchive
  | Returns false =>
    match matchOrPanic p "go*.tar.gz" with
    | Panics e => Panics e
    | Returns true => finish tarGzArchive
    | Returns false => Returns (inr (UnknownArchiveType p))
    end
  end.

(** [entrySignInfo] *)
Definition entrySignInfo (a : archive) (name : string)
  : outcome (option fileToSign) :=
  match kind a with
  | zipArchive =>
    if HasSuffix name ".exe" then
      Returns (Some (FileToSign (path a)
                       (filepath_join.Join [entryExtractDir a; name])
                       "Microsoft400"))
    else Returns None
  | tarGzArchive =>
    if macOS a then
      match matchOrPanic "go/bin/*" name with
      | Panics e => Panics e
      | Returns true =>
        Returns (Some (FileToSign (path a)
                         (filepath_join.Join [entryExtractDir a; name])
                         "MacDeveloperHarden"))
      | Returns false =>
        match matchOrPanic "pkg/tool/*/*" name with
        | Panics e => Panics e
        | Returns true =>
          Returns (Some (FileToSign (path a)
                           (filepath_join.Join [entryExtractDir a; name])
                           "MacDeveloperHarden"))
        | Returns false => Returns None
        end
      end
    else Returns None
  end.


(** *** Iteration over entries *)

(** The [range] loop of [eachZipEntry]. *)
Fixpoint rangeFiles {S : Type} (files : list archive_zip.File)
         (f : archive_zip.File -> M S (option error)) : M S (option error) :=
  match files with
  | [] => ret None
  | file :: rest =>
    let* err := f file in
    match err with
    | Some err => ret (Some err)
    | None => rangeFiles rest f
    end
  end.

(** [eachZipEntry] *)
Definition eachZipEntry {S : Type} (r : archive_zip.ReadCloser)
           (f : archive_zip.File -> M S (option error)) : M S (option error) :=
  rangeFiles (archive_zip.Files r) f.

(** The result of [r.Next()] goes to the log. *)
Definition noteNext (err : option error) : M world unit :=
  fun w => (Returns tt, fs.log (OpTarNext, err) w).

(** [eachTarGzEntry]. The reader [r] is advanced by [r.Next()]; the
    callback receives the header and the reader, positioned at the
    content of the entry. *)
Fixpoint eachTarGzEntry {L : Type} (r : archive_tar.Reader)
         (f : tar.Header -> stream -> M (world * L) (option error))
  : M (world * L) (option error) :=
  match r with
  | archive_tar.AtEnd err =>
    let* _ := inWorld (noteNext (Some err)) in
    if errors_Is err EOF then ret None else ret (Some err)
  | archive_tar.AtEntry header body rest =>
    let* _ := inWorld (noteNext None) in
    let* err := f header (Content body) in
    match err with
    | Some err => ret (Some err)
    | None => eachTarGzEntry rest f
    end
  end.

(** *** Staged files *)

(** [writeFile] *)
Definition writeFile (path : string) (r : stream) : M world (option error) :=
  let* f := os.Create path in
  match f with
  | inr err => ret (Some err)
  | inl f =>
    let* err := io.Copy (FileWriter (os.fname f)) r in
    let* closeErr := io.Close (RFile (os.fname f)) in
    ret (orElse err closeErr)
  end.

(** [writeFileAndCloseReader] *)
Definition writeFileAndCloseReader (path : string) (r : ioReadCloser)
  : M world (option error) :=
  let* err := writeFile path (reads r) in
  let* closeErr := io.Close (closer r) in
  ret (orElse err closeErr).

(** *** Extraction *)

(** The closure [fail] of [prepareEntriesToSign]. *)
Definition fail (a : archive) (err : error) : list fileToSign + error :=
  inr (FailedToExtract (path a) err).

(** The loop over [zr.File] in [prepareEntriesToSign]. *)
Fixpoint stageZipEntries (a : archive) (files : list archive_zip.File)
         (results : list fileToSign) : M world (list fileToSign + error) :=
  match files with
  | [] => ret (inl results)
  | f :: rest =>
    let* info := call (entrySignInfo a (archive_zip.Name f)) in
    match info with
    | Some info =>
      let* fReader := archive_zip.Open f in
      match fReader with
      | inr err => ret (fail a err)
      | inl fReader =>
        let* err := writeFileAndCloseReader (fullPath info) fReader in
        match err with
        | Some err => ret (fail a err)
        | None => stageZipEntries a rest (results ++ [info])%list
        end
      end
    | None => stageZipEntries a rest results
    end
  end.

(** The callback that [prepareEntriesToSign] passes to
    [eachTarGzEntry]; it appends to the captured [results]. *)
Definition stageTarEntry (a : archive) (header : tar.Header) (tr : stream)
  : M (world * list fileToSign) (option error) :=
  let* info := call (entrySignInfo a (tar.Name header)) in
  match info with
  | Some info =>
    let* err :=
      inWorld (writeFile
                 (filepath_join.Join [fullPath info; tar.Name header]) tr) in
    match err with
    | Some err => ret (Some err)
    | None =>
      fun '(w, results) => (Returns None, (w, (results ++ [info])%list))
    end
  | None => ret None
  end.

(** [prepareEntriesToSign] *)
Definition prepareEntriesToSign (a : archive)
  : M world (list fileToSign + error) :=
  let* err := os.MkdirAll (entryExtractDir a) in
  match err with
  | Some err => ret (inr err)
  | None =>
    match kind a with
    | zipArchive =>
      let* zr := archive_zip.OpenReader (path a) in
      match zr with
      | inr err => ret (fail a err)
      | inl zr =>
        defer (io.CloseDropped (RZipReader (archive_zip.source zr)))
              (stageZipEntries a (archive_zip.Files zr) [])
      end
    | tarGzArchive =>
      if macOS a then
        let* f := os.Open (path a) in
        match f with
        | inr err => ret (fail a err)
        | inl f =>
          defer (io.CloseDropped (RFile (os.fname f)))
                (let* gz := gzip.NewReader f in
                 match gz with
                 | inr err => ret (fail a err)
                 | inl tr =>
                   let* (err, results) :=
                     withLocals [] (eachTarGzEntry tr (stageTarEntry a)) in
                   match err with
                   | Some err => ret (fail a err)
                   | None => ret (inl results)
                   end
                 end)
        end
      else ret (inl [])
    end
  end.

(** *** Repacking *)

(** [openZip] *)
Definition openZip (a : archive) : M world (archive_zip.ReadCloser + error) :=
  archive_zip.OpenReader (path a).

(** [openTarGz]: the closer is the file; when the gzip header cannot be
    read the file is closed and the error of that [Close] is dropped. *)
Definition openTarGz (a : archive)
  : M world (os.File * archive_tar.Reader + error) :=
  let* f := os.Open (path a) in
  match f with
  | inr err => ret (inr err)
  | inl f =>
    let* gz := gzip.NewReader f in
    match gz with
    | inr err =>
      let* _ := io.CloseDropped (RFile (os.fname f)) in
      ret (inr err)
    | inl tr => ret (inl (f, tr))
    end
  end.

(** The callback of the zip branch of [writeSignedArchive]. *)
Definition repackZipEntry (a : archive) (zw : archive_zip.Writer)
           (f : archive_zip.File) : M world (option error) :=
  let* w := archive_zip.CreateHeader zw (archive_zip.FileHeader f) in
  match w with
  | inr err => ret (Some err)
  | inl w =>
    let* info := call (entrySignInfo a (archive_zip.Name f)) in
    let* r :=
      match info with
      | Some info =>
        (* a signed version of this file: use that *)
        let* r := os.Open (fullPath info) in
        match r with
        | inr err => ret (inr err)
        | inl r => ret (inl (os.asReadCloser r))
        end
      | None => archive_zip.Open f
      end in
    match r with
    | inr err => ret (Some err)
    | inl r =>
      defer (io.CloseDropped (closer r))
            (let* err := io.Copy w (reads r) in
             match err with
             | Some err => ret (Some err)
             | None => ret None
             end)
    end
  end.

(** The callback of the tar.gz branch of [writeSignedArchive]: the body
    of its [if] is empty in the source, so nothing is written. *)
Definition repackTarEntry (a : archive) (header : tar.Header) (r : stream)
  : M (world * unit) (option error) :=
  let* info := call (entrySignInfo a (tar.Name header)) in
  match info with
  | Some _ => ret None
  | None => ret None
  end.

(** [writeSignedArchive]. The source has no [return] after the two
    branches; control that reaches the end of the function returns
    [nil]. *)
Definition writeSignedArchive (a : archive) (w : os.File)
  : M world (option error) :=
  match kind a with
  | zipArchive =>
    let* zr := openZip a in
    match zr with
    | inr err => ret (Some err)
    | inl zr =>
      defer (io.CloseDropped (RZipReader (archive_zip.source zr)))
            (let* zw := archive_zip.NewWriter w in
             let* err := eachZipEntry zr (repackZipEntry a zw) in
             let* closeErr := io.Close (RZipWriter (archive_zip.target zw)) in
             match orElse err closeErr with
             | Some err => ret (Some err)
             | None => ret None
             end)
    end
  | tarGzArchive =>
    if macOS a then
      let* o := openTarGz a in
      match o with
      | inr err => ret (Some err)
      | inl (cl, tr) =>
        defer (io.CloseDropped (RFile (os.fname cl)))
              (let* zw := gzip.NewWriter w in
               let* tw := archive_tar.NewWriter (gzip.target zw) in
               let* (err, _) :=
                 withLocals tt (eachTarGzEntry tr (repackTarEntry a)) in
               let* closeErr := io.Close (RTarWriter (archive_tar.target tw)) in
               let err := orElse err closeErr in
               let* closeErr := io.Close (RGzipWriter (gzip.target zw)) in
               match orElse err closeErr with
               | Some err => ret (Some err)
               | None => ret None
               end)
      end
    else ret None
  end.

(** [repackSignedEntries]; [destinationDir] is the value of the flag
    [-o]. *)
Definition repackSignedEntries (destinationDir : string) (a : archive)
  : M world (option error) :=
  let targetPath :=
    filepath_join.Join [destinationDir; path a +:+ ".withSignedContent"] in
  if isZip a || macOS a then
    (* Write a new archive that includes the signed content. *)
    let* f := os.Create targetPath in
    match f with
    | inr err => ret (Some err)
    | inl f =>
      let* err := writeSignedArchive a f in
      let* closeErr := io.Close (RFile (os.fname f)) in
      match orElse err closeErr with
      | Some err => ret (Some err)
      | None => ret None
      end
    end
  else ret None.

(** *** Notarization and signatures *)

(** [prepareNotarization]: the body is empty in the source. No
    statement runs and no request is built; the results have their zero
    values. *)
Definition prepareNotarization (a : archive)
  : M world (list fileToSign + error) :=
  ret (inl []).

(** [prepareSignatures]: the body is empty in the source, as for
    [prepareNotarization]. *)
Definition prepareSignatures (a : archive)
  : M world (list fileToSign + error) :=
  ret (inl []).

End sign.

(** ** Definitions used in the statements *)

Module globs.
Import bytes.

(** A run of bytes that [filepath.Match] reads as literals: no bracket,
    question mark or backslash. *)
Fixpoint plain (chunk : string) : bool :=
  match chunk with
  | EmptyString => true
  | String c t =>
    negb (Ascii.eqb c "[") && negb (Ascii.eqb c "?") && negb (Ascii.eqb c "\")
    && plain t
  end.

(** No star. *)
Fixpoint starFree (s : string) : bool :=
  match s with
  | EmptyString => true
  | String c t => negb (Ascii.eqb c "*") && starFree t
  end.

(** [s] without its prefix [pre]. *)
Fixpoint stripPrefix (pre s : string) : option string :=
  match pre, s with
  | EmptyString, _ => Some s
  | String c p, String d t => if Ascii.eqb c d then stripPrefix p t else None
  | String _ _, EmptyString => None
  end.

(** Cut at the first separator. *)
Fixpoint cutSep (s : string) : option (string * string) :=
  match s with
  | EmptyString => None
  | String c t =>
    if Ascii.eqb c "/" then Some (EmptyString, t)
    else match cutSep t with
         | Some (a, b) => Some (String c a, b)
         | None => None
         end
  end.

(** A glob of literal bytes and stars, as the specification reads it:
    a byte matches itself and a star matches any run of bytes, possibly
    empty, that does not cross a separator. *)
Inductive glob : string -> string -> Prop :=
| glob_end : glob "" ""
| glob_byte (c : ascii) (p n : string) :
    Ascii.eqb c "*" = false -> glob p n -> glob (String c p) (String c n)
| glob_star (p run n : string) :
    containsSep run = false -> glob p n -> glob (String "*" p) (run +:+ n).

(** [s] ends with [suffix]. *)
Definition endsWith (s suffix : string) : Prop := exists pre, s = pre +:+ suffix.

(** The answer of the entry selector, [None] also for a call that
    panics; [entrySignInfo_returns] shows that no call panics. *)
Definition selected (a : sign.archive) (name : string) : option sign.fileToSign :=
  match sign.entrySignInfo a name with
  | Returns r => r
  | Panics _ => None
  end.

End globs.

(** ** Runs of the entry iterators *)

Module runs.

(** The state after [f] has been called on every file of [files], in
    order, and has returned [nil] each time; [None] when some call returns
    an error or panics. *)
Fixpoint visitFiles {S : Type} (f : archive_zip.File -> M S (option error))
         (files : list archive_zip.File) (s : S) : option S :=
  match files with
  | [] => Some s
  | x :: rest =>
    match f x s with
    | (Returns None, s') => visitFiles f rest s'
    | _ => None
    end
  end.

(** A tar reader that yields the entries [es] and then goes on as [r]. *)
Fixpoint entriesThen (es : list (tar.Header * fdata)) (r : archive_tar.Reader)
  : archive_tar.Reader :=
  match es with
  | [] => r
  | (h, d) :: es' => archive_tar.AtEntry h d (entriesThen es' r)
  end.

(** The state after the entries [es] have been read and [f] has returned
    [nil] on each. *)
Fixpoint visitEntries {L : Type}
         (f : tar.Header -> stream -> M (world * L) (option error))
         (es : list (tar.Header * fdata)) (s : world * L) : option (world * L) :=
  match es with
  | [] => Some s
  | (h, d) :: rest =>
    match f h (Content d) (fs.log (OpTarNext, None) (fst s), snd s) with
    | (Returns None, s') => visitEntries f rest s'
    | _ => None
    end
  end.

End runs.

(** ** The error that a run reports *)

Module ledger.

(** The error that an event hands to the caller. The error of a [Close]
    whose result is dropped reaches nobody, and [io.EOF] from [Next] is
    the end of the archive, not a failure. *)
Definition counted (ev : event) : option error :=
  match ev with
  | (OpClose _ true, _) => None
  | (OpTarNext, Some e) => if errors_Is e EOF then None else Some e
  | (_, e) => e
  end.

(** The first error among the events that count. *)
Fixpoint firstError (evs : list event) : option error :=
  match evs with
  | [] => None
  | ev :: rest => orElse (counted ev) (firstError rest)
  end.

(** No file disappears. *)
Definition keeps (w w' : world) : Prop :=
  forall k : string, is_Some (files w !! k) -> is_Some (files w' !! k).

(** The run of [m] from [w] returns (it does not panic); what it returns
    is the first error among the events it adds to the log, [nil] when
    there is none; no file disappears; and the resources still open
    afterwards are [after] applied to those open before. *)
Definition reports (m : M world (option error))
           (after : list resource -> list resource) (w : world) : Prop :=
  exists (err : option error) (w' : world) (evs : list event),
    m w = (Returns err, w')
    /\ trace w' = (trace w ++ evs)%list
    /\ err = firstError evs
    /\ keeps w w'
    /\ live w' = after (live w).

(** The run from [w] to [w'] makes no directory, and outside the paths
    in [P] every file holds what it held: only paths in [P] are created
    or written. *)
Definition touches (P : string -> Prop) (w w' : world) : Prop :=
  dirs w' = dirs w /\ forall k : string, ~ P k -> files w' !! k = files w !! k.

(** Every run of [m] touches paths in [P] only; [proj] is the world of a
    state that also holds captured variables. *)
Definition confined {S A : Type} (proj : S -> world) (P : string -> Prop)
           (m : M S A) : Prop :=
  forall (s : S) (r : outcome A) (s' : S),
    m s = (r, s') -> touches P (proj s) (proj s').

End ledger.


(** ** What extraction stages and what repack writes *)

Module staging.
Import sign fs filepath_join.

(** [os.Create] succeeds at a cleaned path that is not a directory and
    whose directory exists. *)
Definition creatable (w : world) (key : string) : bool :=
  negb (dirExists w key) && dirExists w (parentDir key).

Section Entries.

Context {H : Type}.
(** The selector on headers, and the path at which a selected entry is
    written. *)
Variable sel : H -> option fileToSign.
Variable key : H -> fileToSign -> string.

(** The requests for the selected entries, in the order of the archive. *)
Fixpoint requestsOf (es : list (H * fdata)) : list fileToSign :=
  match es with
  | [] => []
  | (h, d) :: es' =>
    match sel h with
    | Some info => info :: requestsOf es'
    | None => requestsOf es'
    end
  end.

(** The files after the content of every selected entry has been written
    at its path, in the order of the archive. *)
Fixpoint writesOf (es : list (H * fdata)) (m : gmap string fdata)
  : gmap string fdata :=
  match es with
  | [] => m
  | (h, d) :: es' =>
    match sel h with
    | Some info => writesOf es' (<[key h info := d]> m)
    | None => writesOf es' m
    end
  end.

(** Every selected entry can be created at its path. *)
Fixpoint stageable (w : world) (es : list (H * fdata)) : bool :=
  match es with
  | [] => true
  | (h, d) :: es' =>
    match sel h with
    | Some info => creatable w (key h info) && stageable w es'
    | None => stageable w es'
    end
  end.

End Entries.

(** A zip entry is staged at the path of its request. *)
Definition zipKey (h : zip.FileHeader) (info : fileToSign) : string :=
  Clean (fullPath info).

Definition zipSel (a : archive) (h : zip.FileHeader) : option fileToSign :=
  globs.selected a (zip.Name h).

(** A tar entry is written at the path of its request joined with its
    name once more. *)
Definition tarKey (h : tar.Header) (info : fileToSign) : string :=
  Clean (Join [fullPath info; tar.Name h]).

Definition tarSel (a : archive) (h : tar.Header) : option fileToSign :=
  globs.selected a (tar.Name h).

(** The directories that [MkdirAll] makes for the staging directory. *)
Definition stagingDirs (a : archive) : list string :=
  ancestors (Clean (entryExtractDir a)).

(** The destination of repack. *)
Definition destination (destinationDir : string) (a : archive) : string :=
  Clean (Join [destinationDir; path a +:+ ".withSignedContent"]).



(** What a later operation can read of the world [w'] that a fault-free
    run leaves: no fault is planned, the directories are those of [w], the
    files are [m] and the open resources are [l]. *)
Definition quiet (w w' : world) (m : gmap string fdata) (l : list resource)
  : Prop :=
  faults w' = [] /\ dirs w' = dirs w /\ files w' = m /\ live w' = l.

(** The files that [zip.OpenReader] lists for the entries [es]. *)
Definition zipFiles (es : list (zip.FileHeader * fdata)) : list archive_zip.File :=
  map (fun e => archive_zip.mkFile (fst e) (snd e)) es.

(** The world in which the staging directories exist. *)
Definition withStagingDirs (a : archive) (w : world) : world :=
  fs.setDirs (list_to_set (stagingDirs a) ∪ dirs w) w.

End staging.

(** ** Sample archives and worlds *)

Module samples.
Import sign.

Definition zipHeader (name : string) : zip.FileHeader :=
  zip.mkFileHeader name "" 8 1700000000 2175008768 "".

Definition tarHeader (name : string) : tar.Header :=
  tar.mkHeader name 493 3 1700000000 "0".

(** A Windows archive with one executable and one text file. *)
Definition windowsEntries : list (zip.FileHeader * fdata) :=
  [(zipHeader "a.exe", Raw "MZ"); (zipHeader "b.txt", Raw "hello")].

Definition windowsZip : archive := Archive "go1.zip" zipArchive false [].

(** A macOS archive with the go command and a text file. *)
Definition darwinEntries : list (tar.Header * fdata) :=
  [(tarHeader "go/bin/go", Raw "ELF"); (tarHeader "README", Raw "hi")].

Definition darwinTarGz : archive :=
  Archive "go1.darwin-arm64.tar.gz" tarGzArchive true [].

Definition linuxTarGz : archive :=
  Archive "go1.linux-amd64.tar.gz" tarGzArchive false [].

(** The three archives in the working directory; no fault is planned. *)
Definition disk : world :=
  World ∅
        (<["go1.zip" := ZipData windowsEntries true]>
         (<["go1.darwin-arm64.tar.gz" := TarGzData darwinEntries true]>
          (<["go1.linux-amd64.tar.gz" := TarGzData darwinEntries true]> ∅)))
        [] [] [].

(** The same disk with a plan of faults. *)
Definition diskWithFaults (plan : list (option error)) : world :=
  World (dirs disk) (files disk) plan [] [].

(** The disk after extraction and signing: the staging directory of the
    Windows archive holds the signed executable. *)
Definition signedDisk (plan : list (option error)) : world :=
  World {[ "go1.zip.extracted" ]}
        (<["go1.zip.extracted/a.exe" := Raw "MZ signed"]> (files disk))
        plan [] [].




(** A Windows archive whose executable lies in a directory. *)
Definition nestedEntries : list (zip.FileHeader * fdata) :=
  [(zipHeader "go/VERSION", Raw "go1.21.0"); (zipHeader "go/bin/go.exe", Raw "MZ")].

Definition nestedZip : archive := Archive "go2.zip" zipArchive false [].

Definition nestedDisk : world :=
  World ∅ (<["go2.zip" := ZipData nestedEntries true]> ∅) [] [] [].


(** A callback that records the names it is called with, in a captured
    list, and fails at the name [bad]. *)
Definition noteFile (bad : string) (f : archive_zip.File)
  : M (list string) (option error) :=
  fun visited =>
    (Returns (if String.eqb (archive_zip.Name f) bad
              then Some (IOError "bad entry") else None),
     (visited ++ [archive_zip.Name f])%list).

Definition noteEntry (bad : string) (h : tar.Header) (r : stream)
  : M (world * list string) (option error) :=
  fun '(w, visited) =>
    (Returns (if String.eqb (tar.Name h) bad
              then Some (IOError "bad entry") else None),
     (w, (visited ++ [tar.Name h])%list)).

Definition threeFiles : archive_zip.ReadCloser :=
  archive_zip.mkReadCloser
    [archive_zip.mkFile (zipHeader "a.exe") (Raw "MZ");
     archive_zip.mkFile (zipHeader "b.txt") (Raw "hello");
     archive_zip.mkFile (zipHeader "c.txt") (Raw "bye")]
    "go1.zip".

End samples.

(** ** [filepath.Base], and the name and target path of an archive *)

Module filepath_base.
Import bytes filepath_join.

(** [path] without its trailing separators (the first loop of [Base]). *)
Fixpoint trimSeps (path : string) : string :=
  match path with
  | EmptyString => EmptyString
  | String c t =>
    match trimSeps t with
    | EmptyString =>
      if Ascii.eqb c "/" then EmptyString else String c EmptyString
    | t' => String c t'
    end
  end.

(** [path[i+1:]] where [path[i]] is the last separator; the whole path
    when it has no separator (the second loop of [Base]). *)
Fixpoint lastElement (path : string) : string :=
  match path with
  | EmptyString => EmptyString
  | String c t => if containsSep path then lastElement t else path
  end.

(** [filepath.Base], on Unix (no volume name). *)
Definition Base (path : string) : string :=
  if is_empty path then "."
  else
    let path := lastElement (trimSeps path) in
    (* if empty now, it had only slashes *)
    if is_empty path then "/" else path.

(** [(a *archive).name] *)
Definition name (a : sign.archive) : string := Base (sign.path a).

(** [(a *archive).targetPath]; [destinationDir] is the value of the flag
    [-o]. *)
Definition targetPath (destinationDir : string) (a : sign.archive) : string :=
  Join [destinationDir; name a].

End filepath_base.

(** ** The archives that [run] finds *)

Module discover.
Import bytes sign.

(** The three slices that [run] fills, and the lines it prints. *)
Record locals : Type := Locals {
  zipFiles : list string;
  tarGzFiles : list string;
  macOSFiles : list string;
  printed : list string
}.

Definition newline : string := String (ascii_of_nat 10) EmptyString.

(** [fmt.Printf(label + ": %s\n", name)] *)
Definition Printf (label name : string) : M locals unit :=
  fun l =>
    (Returns tt,
     Locals (zipFiles l) (tarGzFiles l) (macOSFiles l)
            (printed l ++ [label +:+ ": " +:+ name +:+ newline])%list).

(** [zipFiles = append(zipFiles, path)], and the same for the other two. *)
Definition appendZip (path : string) : M locals unit :=
  fun l =>
    (Returns tt,
     Locals (zipFiles l ++ [path])%list (tarGzFiles l) (macOSFiles l) (printed l)).

Definition appendTarGz (path : string) : M locals unit :=
  fun l =>
    (Returns tt,
     Locals (zipFiles l) (tarGzFiles l ++ [path])%list (macOSFiles l) (printed l)).

Definition appendMacOS (path : string) : M locals unit :=
  fun l =>
    (Returns tt,
     Locals (zipFiles l) (tarGzFiles l) (macOSFiles l ++ [path])%list (printed l)).

(** The body of the loop of [run] over [entries], for the entry called
    [name]; [filesGlob] is the value of the flag [-files]. *)
Definition visit (filesGlob name : string) : M locals unit :=
  let path := filepath_join.Join [filesGlob; name] in
  let* isZip := call (matchOrPanic "go*.zip" name) in
  let* _ :=
    if isZip then
      let* _ := Printf "Found zip file" name in appendZip path
    else ret tt in
  let* isTarGz := call (matchOrPanic "go*.tar.gz" name) in
  let* _ :=
    if isTarGz then
      let* _ := Printf "Found tar.gz file" name in appendTarGz path
    else ret tt in
  let* isMacOS := call (matchOrPanic "go*darwin*.tar.gz" name) in
  if isMacOS then
    let* _ := Printf "Found macOS tar.gz file" name in appendMacOS path
  else ret tt.

(** The loop of [run] that sorts the entries. The source ranges over
    [entries], which it does not declare; the names of the entries are a
    parameter here. *)
Fixpoint rangeEntries (filesGlob : string) (entries : list string)
  : M locals unit :=
  match entries with
  | [] => ret tt
  | name :: rest =>
    let* _ := visit filesGlob name in
    rangeEntries filesGlob rest
  end.

(** [var zipFiles, tarGzFiles, macOSFiles []string] *)
Definition start : locals := Locals [] [] [] [].

(** The loop of [run] over [zipFiles]: each archive is opened with
    [zip.OpenReader]; the reader and the error are dropped. *)
Fixpoint openEach (paths : list string) : M world unit :=
  match paths with
  | [] => ret tt
  | path :: rest =>
    let* _ := archive_zip.OpenReader path in
    openEach rest
  end.

End discover.

(** ** Further sample archives and worlds *)

Module fixtures.
Import sign.

(** The disk on which the directory of the path that extraction writes
    a macOS entry at has been made beforehand. *)
Definition darwinDiskWithDirs : world :=
  World {[ "go1.darwin-arm64.tar.gz.extracted/go/bin/go/go/bin" ]}
        (files samples.disk) [] [] [].

(** An archive in the directory [tosign], and a directory [signed]. *)
Definition tosignZip : archive := Archive "tosign/go1.zip" zipArchive false [].


End fixtures.

(** * Theorems *)

Import bytes filepath filepath_join sign globs runs ledger staging.

(** ** [filepath.Match] never runs out of fuel *)

Example Match_examples :
  Match "go*.zip" "go1.21.zip" = (true, None)
  /\ Match "a*b*c" "aXbbXc" = (true, None)
  /\ Match "*x" "xxx" = (true, None)
  /\ Match "[a-z]o?.zip" "go*.zip" = (true, None)
  /\ Match "[^a-z]o?.zip" "go*.zip" = (false, None)
  /\ Match "go\*.zip" "go*.zip" = (true, None)
  /\ Match "[]a]" "]" = (false, Some ErrBadPattern)
  /\ Match "a[" "b" = (false, Some ErrBadPattern)
  /\ Match "a/*" "a/b/c" = (false, None)
  /\ Match "x*[" "go" = (false, Some ErrBadPattern)
  /\ Match "x*[a]" "go" = (false, None).
Proof. repeat split; reflexivity. Qed.

Lemma length_drop (n : nat) (s : string) :
  String.length (drop n s) = String.length s - n.
Proof.
  revert s. induction n as [|n IH]; intros s; cbn [drop]; [lia|].
  destruct s as [|c s]; cbn [String.length]; [reflexivity | apply IH].
Qed.

Lemma DecodeRune_width (s : string) :
  s <> "" -> 1 <= snd (utf8.DecodeRuneInString s).
Proof.
  destruct s as [|c0 t]; [congruence|]. intros _.
  unfold utf8.DecodeRuneInString.
  repeat match goal with
         | |- context [let '(_, _) := ?x in _] => destruct x
         | |- context [if ?b then _ else _] => destruct b
         | |- context [match ?x with EmptyString => _ | String _ _ => _ end] =>
           destruct x
         end; cbn [snd]; lia.
Qed.

Lemma getEsc_shorter (chunk nchunk : string) (r : Z) :
  getEsc chunk = (r, nchunk, None) -> String.length nchunk < String.length chunk.
Proof.
  unfold getEsc. destruct chunk as [|c t]; [discriminate|].
  destruct (Ascii.eqb c "-" || Ascii.eqb c "]"); [discriminate|].
  set (chunk1 := if Ascii.eqb c "\" then t else String c t).
  destruct (Ascii.eqb c "\" && is_empty chunk1) eqn:E1; [discriminate|].
  destruct (utf8.DecodeRuneInString chunk1) as [r' n] eqn:D. cbv zeta.
  destruct (is_empty (drop n chunk1)) eqn:E2; [discriminate|].
  destruct ((r' =? utf8.RuneError)%Z && (n =? 1)%nat); [discriminate|].
  intros [= _ <-]. rewrite length_drop.
  assert (Hne : chunk1 <> "").
  { intros H. rewrite H in E2. destruct n; discriminate. }
  pose proof (DecodeRune_width chunk1 Hne) as Hw. rewrite D in Hw. cbn in Hw.
  assert (String.length chunk1 <= String.length (String c t)).
  { subst chunk1. destruct (Ascii.eqb c "\"); cbn [String.length]; lia. }
  destruct chunk1; [congruence|]. cbn [String.length] in *. lia.
Qed.

Lemma behead_shorter (c : ascii) (s t : string) :
  behead c s = Some t -> String.length s = S (String.length t).
Proof.
  destruct s as [|d s]; cbn; [discriminate|].
  destruct (Ascii.eqb d c); [|discriminate]. now intros [= ->].
Qed.

Lemma classLoop_total (fuel : nat) :
  forall chunk r nrange matched,
    String.length chunk < fuel ->
    exists res, classLoop fuel chunk r nrange matched = Some res
                /\ forall c2 b, res = inl (c2, b) ->
                                String.length c2 < String.length chunk.
Proof.
  induction fuel as [|fuel IH]; intros chunk r nrange matched Hl; [lia|].
  cbn [classLoop].
  destruct (if (0 <? nrange)%nat then behead "]" chunk else None) as [t|] eqn:B.
  { eexists; split; [reflexivity|]. intros c2 b [= <- _].
    destruct (0 <? nrange)%nat; [|discriminate].
    apply behead_shorter in B. lia. }
  destruct (getEsc chunk) as [[lo chunk1] [e|]] eqn:G1.
  { eexists; split; [reflexivity|]. discriminate. }
  apply getEsc_shorter in G1.
  destruct (behead "-" chunk1) as [t|] eqn:B2.
  - apply behead_shorter in B2.
    destruct (getEsc t) as [[hi chunk2] [e|]] eqn:G2.
    { eexists; split; [reflexivity|]. discriminate. }
    apply getEsc_shorter in G2.
    edestruct (IH chunk2) as (res & -> & Hres); [lia|].
    eexists; split; [reflexivity|]. intros c2 b ->.
    specialize (Hres _ _ eq_refl). lia.
  - edestruct (IH chunk1) as (res & -> & Hres); [lia|].
    eexists; split; [reflexivity|]. intros c2 b ->.
    specialize (Hres _ _ eq_refl). lia.
Qed.

Lemma matchChunkLoop_total (fuel : nat) :
  forall chunk s failed,
    String.length chunk < fuel ->
    matchChunkLoop fuel chunk s failed <> None.
Proof.
  induction fuel as [|fuel IH]; intros chunk s failed Hl; [lia|].
  destruct chunk as [|c ct]; cbn [matchChunkLoop]; [discriminate|].
  cbn [String.length] in Hl.
  set (failed' := if negb failed && is_empty s then true else failed).
  destruct (Ascii.eqb c "[").
  - destruct (if failed' then (0%Z, s) else
                let '(r, n) := utf8.DecodeRuneInString s in (r, drop n s))
      as [r s1].
    destruct (behead "^" ct) as [t|] eqn:B.
    + apply behead_shorter in B.
      edestruct (classLoop_total fuel t) as (res & -> & Hres); [lia|].
      destruct res as [[c2 b]|e]; [|discriminate].
      specialize (Hres _ _ eq_refl). apply IH. lia.
    + edestruct (classLoop_total fuel ct) as (res & -> & Hres); [lia|].
      destruct res as [[c2 b]|e]; [|discriminate].
      specialize (Hres _ _ eq_refl). apply IH. lia.
  - destruct (Ascii.eqb c "?").
    + destruct failed'; [apply IH; lia|].
      destruct (utf8.DecodeRuneInString s). apply IH. lia.
    + destruct (Ascii.eqb c "\").
      * destruct ct as [|l lt]; [discriminate|]. cbn [String.length] in Hl.
        destruct failed'; [apply IH; lia|].
        destruct s; apply IH; lia.
      * destruct failed'; [apply IH; lia|].
        destruct s; apply IH; lia.
Qed.

Lemma matchChunk_total (chunk s : string) : matchChunk chunk s <> None.
Proof. apply matchChunkLoop_total. lia. Qed.

Lemma starLoop_total (chunk : string) (lastChunk : bool) (name : string) :
  starLoop chunk lastChunk name <> None.
Proof.
  induction name as [|c rest IH]; cbn [starLoop]; [discriminate|].
  destruct (Ascii.eqb c "/"); [discriminate|].
  destruct (matchChunk chunk rest) as [[t| |e]|] eqn:E.
  - destruct (lastChunk && negb (is_empty t)); [exact IH | discriminate].
  - exact IH.
  - discriminate.
  - now apply matchChunk_total in E.
Qed.

Lemma skipStars_shorter (pattern : string) :
  String.length (snd (skipStars pattern)) <= String.length pattern
  /\ (fst (skipStars pattern) = true ->
      String.length (snd (skipStars pattern)) < String.length pattern)
  /\ (fst (skipStars pattern) = false -> snd (skipStars pattern) = pattern)
  /\ behead "*" (snd (skipStars pattern)) = None.
Proof.
  induction pattern as [|c p IH]; cbn [skipStars].
  - cbn. repeat split; auto; discriminate.
  - destruct (Ascii.eqb c "*") eqn:Hc; cbn [fst snd String.length].
    + destruct IH as (H1 & _ & _ & H4). repeat split; auto; try lia; try discriminate.
    + repeat split; auto; try discriminate. cbn [behead]. now rewrite Hc.
Qed.

Lemma scanIndex_positive (c : ascii) (p : string) :
  Ascii.eqb c "*" = false -> 1 <= scanIndex false (String c p).
Proof.
  intros Hc. cbn [scanIndex]. rewrite Hc.
  destruct (Ascii.eqb c "\"); [destruct p; lia|].
  destruct (Ascii.eqb c "["); [lia|]. destruct (Ascii.eqb c "]"); lia.
Qed.

Lemma scanChunk_shorter (pattern : string) :
  pattern <> "" ->
  forall star chunk rest,
    scanChunk pattern = (star, chunk, rest) ->
    String.length rest < String.length pattern.
Proof.
  intros Hne star chunk rest. unfold scanChunk.
  pose proof (skipStars_shorter pattern) as (H1 & H2 & H3 & H4).
  destruct (skipStars pattern) as [st p]. cbn [fst snd] in *.
  intros [= <- <- <-]. rewrite length_drop.
  destruct st.
  - specialize (H2 eq_refl). lia.
  - rewrite (H3 eq_refl) in *. destruct pattern as [|c p']; [congruence|].
    cbn [behead] in H4. destruct (Ascii.eqb c "*") eqn:E; [discriminate|].
    pose proof (scanIndex_positive c p' E). cbn [String.length]. lia.
Qed.

Lemma checkRest_total (fuel : nat) :
  forall pattern,
    String.length pattern < fuel -> checkRest fuel pattern <> None.
Proof.
  induction fuel as [|fuel IH]; intros pattern Hl; [lia|].
  cbn [checkRest].
  destruct (is_empty pattern) eqn:Ep; [discriminate|].
  assert (Hne : pattern <> "") by (intros ->; discriminate).
  destruct (scanChunk pattern) as [[star chunk] rest] eqn:Es.
  pose proof (scanChunk_shorter pattern Hne _ _ _ Es) as Hr.
  destruct (matchChunk chunk "") as [[t| |e]|] eqn:Em;
    try discriminate; try (apply IH; lia).
  now apply matchChunk_total in Em.
Qed.

Lemma noMatch_total (fuel : nat) (pattern : string) :
  String.length pattern < fuel -> noMatch fuel pattern <> None.
Proof.
  intros Hl. unfold noMatch.
  destruct (checkRest fuel pattern) eqn:E; [discriminate|].
  now apply checkRest_total in E.
Qed.

Lemma MatchLoop_total (fuel : nat) :
  forall pattern name,
    String.length pattern < fuel -> MatchLoop fuel pattern name <> None.
Proof.
  induction fuel as [|fuel IH]; intros pattern name Hl; [lia|].
  cbn [MatchLoop].
  destruct (is_empty pattern) eqn:Ep; [discriminate|].
  assert (Hne : pattern <> "") by (intros ->; discriminate).
  destruct (scanChunk pattern) as [[star chunk] rest] eqn:Es.
  destruct (star && is_empty chunk) eqn:Ec; [discriminate|].
  pose proof (scanChunk_shorter pattern Hne _ _ _ Es) as Hr.
  destruct (matchChunk chunk name) as [res|] eqn:Em;
    [|now apply matchChunk_total in Em].
  assert (Hno : noMatch fuel rest <> None) by (apply noMatch_total; lia).
  assert (Hstar : (if star then
             match starLoop chunk (is_empty rest) name with
             | Some (StarFound t) => MatchLoop fuel rest t
             | Some StarNotFound => noMatch fuel rest
             | Some (StarErr e) => Some (false, Some e)
             | None => None
             end else noMatch fuel rest) <> None).
  { destruct star; [|exact Hno].
    destruct (starLoop chunk (is_empty rest) name) as [[t| |e]|] eqn:El;
      try discriminate; try exact Hno;
      [apply IH; lia | now apply starLoop_total in El]. }
  destruct res as [t| |e]; cbn.
  - destruct (is_empty t || negb (is_empty rest)); [apply IH; lia | exact Hstar].
  - exact Hstar.
  - discriminate.
Qed.

Lemma Match_total (pattern name : string) :
  MatchLoop (S (String.length pattern)) pattern name = Some (Match pattern name).
Proof.
  unfold Match.
  destruct (MatchLoop (S (String.length pattern)) pattern name) eqn:E;
    [reflexivity|]. apply MatchLoop_total in E; [contradiction | lia].
Qed.

(** ** Literal chunks, stars and the two globs of the entry selector *)

Lemma matchChunkLoop_plain (fuel : nat) :
  forall chunk s failed,
    plain chunk = true -> String.length chunk < fuel ->
    matchChunkLoop fuel chunk s failed =
    Some (if failed then ChunkFail
          else match stripPrefix chunk s with
               | Some t => ChunkOk t
               | None => ChunkFail
               end).
Proof.
  induction fuel as [|fuel IH]; intros chunk s failed Hp Hl; [lia|].
  destruct chunk as [|c ct]; cbn [matchChunkLoop].
  - destruct failed; reflexivity.
  - cbn [plain] in Hp. cbn [String.length] in Hl.
    apply andb_prop in Hp as [Hp Hpt]. apply andb_prop in Hp as [Hp H3].
    apply andb_prop in Hp as [H1 H2].
    apply negb_true_iff in H1, H2, H3. rewrite H1, H2, H3.
    destruct failed; cbn [negb andb].
    + rewrite IH by (auto; lia). reflexivity.
    + destruct s as [|c0 st]; cbn [is_empty stripPrefix].
      * rewrite IH by (auto; lia). reflexivity.
      * rewrite IH by (auto; lia). destruct (Ascii.eqb c c0); reflexivity.
Qed.

Lemma matchChunk_plain (chunk s : string) :
  plain chunk = true ->
  matchChunk chunk s =
  Some (match stripPrefix chunk s with
        | Some t => ChunkOk t
        | None => ChunkFail
        end).
Proof.
  intros Hp. unfold matchChunk. rewrite matchChunkLoop_plain by (auto; lia).
  reflexivity.
Qed.

Lemma MatchLoop_S (fuel : nat) (pattern name : string) :
  MatchLoop (S fuel) pattern name =
      if is_empty pattern then Some (is_empty name, None)
      else
        let '(star, chunk, pattern') := scanChunk pattern in
        if star && is_empty chunk then Some (negb (containsSep name), None)
        else
          match matchChunk chunk name with
          | None => None
          | Some res =>
            let continue_with :=
              match res with
              | ChunkOk t =>
                if is_empty t || negb (is_empty pattern') then Some t else None
              | _ => None
              end in
            match continue_with, res with
            | Some t, _ => MatchLoop fuel pattern' t
            | None, ChunkErr e => Some (false, Some e)
            | None, _ =>
              if star then
                match starLoop chunk (is_empty pattern') name with
                | None => None
                | Some (StarFound t) => MatchLoop fuel pattern' t
                | Some (StarErr e) => Some (false, Some e)
                | Some StarNotFound => noMatch fuel pattern'
                end
              else noMatch fuel pattern'
            end
          end.
Proof. reflexivity. Qed.

Lemma Match_go_bin (name : string) :
  Match "go/bin/*" name =
  (match stripPrefix "go/bin/" name with
   | Some t => negb (containsSep t)
   | None => false
   end, None).
Proof.
  unfold Match. cbn [String.length]. rewrite MatchLoop_S.
  change (scanChunk "go/bin/*") with (false, "go/bin/", "*").
  cbn [is_empty andb]. rewrite matchChunk_plain by reflexivity.
  destruct (stripPrefix "go/bin/" name) as [t|]; [|reflexivity].
  cbn [is_empty negb]. rewrite orb_true_r. rewrite MatchLoop_S.
  reflexivity.
Qed.

Lemma starLoop_sep (name : string) :
  starLoop "/" false name =
  Some (match name with
        | EmptyString => StarNotFound
        | String c _ =>
          if Ascii.eqb c "/" then StarNotFound
          else match cutSep name with
               | Some (_, b) => StarFound b
               | None => StarNotFound
               end
        end).
Proof.
  induction name as [|c t IH]; [reflexivity|].
  cbn [starLoop cutSep]. destruct (Ascii.eqb c "/") eqn:Hc; [reflexivity|].
  rewrite matchChunk_plain by reflexivity.
  destruct t as [|d t]; [reflexivity|].
  cbn [stripPrefix cutSep] in *. rewrite (Ascii.eqb_sym "/" d).
  destruct (Ascii.eqb d "/") eqn:Hd; [reflexivity|].
  cbn [andb]. rewrite IH.
  destruct (cutSep t) as [[a b]|]; reflexivity.
Qed.

Lemma Match_pkg_tool (name : string) :
  Match "pkg/tool/*/*" name =
  (match stripPrefix "pkg/tool/" name with
   | Some t =>
     match cutSep t with
     | Some (_, b) => negb (containsSep b)
     | None => false
     end
   | None => false
   end, None).
Proof.
  unfold Match. cbn [String.length]. rewrite MatchLoop_S.
  change (scanChunk "pkg/tool/*/*") with (false, "pkg/tool/", "*/*").
  cbn [is_empty andb]. rewrite matchChunk_plain by reflexivity.
  destruct (stripPrefix "pkg/tool/" name) as [t|]; [|reflexivity].
  cbn [is_empty negb]. rewrite orb_true_r. rewrite MatchLoop_S.
  change (scanChunk "*/*") with (true, "/", "*").
  cbn [is_empty andb]. rewrite matchChunk_plain by reflexivity.
  destruct t as [|c t]; [reflexivity|].
  cbn [stripPrefix cutSep]. rewrite (Ascii.eqb_sym "/" c).
  destruct (Ascii.eqb c "/") eqn:Hc.
  - cbn [is_empty negb]. rewrite orb_true_r. rewrite MatchLoop_S. reflexivity.
  - rewrite starLoop_sep. rewrite Hc. cbn [cutSep]. rewrite Hc.
    destruct (cutSep t) as [[a b]|]; [|reflexivity].
    rewrite MatchLoop_S. reflexivity.
Qed.

Lemma append_cons (c : ascii) (s t : string) :
  String c s +:+ t = String c (s +:+ t).
Proof. reflexivity. Qed.

Lemma append_nil_l (t : string) : "" +:+ t = t.
Proof. reflexivity. Qed.

Lemma append_empty_r (s : string) : s +:+ "" = s.
Proof.
  induction s as [|c s IH]; [reflexivity|]. now rewrite append_cons, IH.
Qed.

Lemma append_assoc (a b c : string) : (a +:+ b) +:+ c = a +:+ (b +:+ c).
Proof.
  induction a as [|x a IH]; [reflexivity|]. now rewrite !append_cons, IH.
Qed.

Lemma length_append (a b : string) :
  String.length (a +:+ b) = String.length a + String.length b.
Proof.
  induction a as [|x a IH]; [reflexivity|].
  rewrite append_cons. cbn [String.length]. now rewrite IH.
Qed.

Lemma stripPrefix_Some (pre s t : string) :
  stripPrefix pre s = Some t <-> s = pre +:+ t.
Proof.
  revert s. induction pre as [|c p IH]; intros s; cbn [stripPrefix].
  - rewrite append_nil_l. split; congruence.
  - rewrite append_cons. destruct s as [|d s]; [split; discriminate|].
    destruct (Ascii.eqb_spec c d) as [->|Hne].
    + rewrite IH. split; [intros ->; reflexivity | congruence].
    + split; [discriminate | congruence].
Qed.

Lemma cutSep_Some (s a b : string) :
  cutSep s = Some (a, b) <-> s = a +:+ "/" +:+ b /\ containsSep a = false.
Proof.
  revert a. induction s as [|c s IH]; intros a; cbn [cutSep].
  - split; [discriminate|]. intros [H _]. destruct a; discriminate.
  - destruct (Ascii.eqb_spec c "/") as [->|Hne].
    + split.
      * intros [= <- <-]. split; reflexivity.
      * intros [H Ha]. destruct a as [|x a].
        -- rewrite ?append_nil_l, ?append_cons, ?append_nil_l in H. congruence.
        -- rewrite append_cons in H. injection H as <- _. cbn in Ha. discriminate.
    + destruct (cutSep s) as [[a' b']|] eqn:E.
      * split.
        -- intros [= <- <-]. destruct (proj1 (IH a') eq_refl) as [-> Ha].
           split; [reflexivity|]. cbn [containsSep]. rewrite Ha.
           destruct (Ascii.eqb_spec c "/"); [contradiction | reflexivity].
        -- intros [H Ha]. destruct a as [|x a].
           ++ rewrite ?append_nil_l, ?append_cons, ?append_nil_l in H. congruence.
           ++ rewrite append_cons in H. injection H as <- H.
              cbn [containsSep] in Ha. apply orb_false_elim in Ha as [_ Ha].
              assert (X := proj2 (IH a) (conj H Ha)). injection X as -> ->. reflexivity.
      * split; [discriminate|]. intros [H Ha].
        destruct a as [|x a].
        -- rewrite ?append_nil_l, ?append_cons, ?append_nil_l in H. congruence.
        -- rewrite append_cons in H. injection H as <- H.
           cbn [containsSep] in Ha. apply orb_false_elim in Ha as [_ Ha].
           discriminate (proj2 (IH a) (conj H Ha)).
Qed.

Lemma glob_star_only (n : string) : glob "*" n <-> containsSep n = false.
Proof.
  split.
  - intros H. inversion H as [| c p n' Hc _ |p run n' Hr Hn]; subst.
    + discriminate.
    + inversion Hn; subst. now rewrite append_empty_r.
  - intros H. rewrite <- (append_empty_r n). constructor; [exact H | constructor].
Qed.


Lemma glob_byte_inv (c : ascii) (p name : string) :
  Ascii.eqb c "*" = false ->
  glob (String c p) name <-> exists t, name = String c t /\ glob p t.
Proof.
  intros Hc. split.
  - intros H. inversion H as [| c' p' n' _ Hn |p' run n' Hr Hn]; subst.
    + eauto.
    + discriminate.
  - intros (t & -> & Ht). now constructor.
Qed.

Lemma glob_star_inv (p name : string) :
  glob (String "*" p) name <->
  exists run t, name = run +:+ t /\ containsSep run = false /\ glob p t.
Proof.
  split.
  - intros H. inversion H as [| c' p' n' Hc Hn |p' run n' Hr Hn]; subst.
    + discriminate.
    + eauto.
  - intros (run & t & -> & Hr & Ht). now constructor.
Qed.

Lemma glob_prefix (pre p : string) :
  starFree pre = true ->
  forall name,
    glob (pre +:+ p) name <-> exists t, name = pre +:+ t /\ glob p t.
Proof.
  induction pre as [|c pre IH]; intros Hs name.
  - rewrite append_nil_l. split; [eauto | intros (t & -> & Ht); exact Ht].
  - cbn [starFree] in Hs. apply andb_prop in Hs as [Hc Hs].
    apply negb_true_iff in Hc. rewrite append_cons, glob_byte_inv by exact Hc.
    split.
    + intros (t & -> & Ht). apply (IH Hs) in Ht as (t' & -> & Ht').
      exists t'. now rewrite append_cons.
    + intros (t & -> & Ht). exists (pre +:+ t). rewrite append_cons.
      split; [reflexivity|]. apply (IH Hs). eauto.
Qed.

Lemma glob_go_bin (name : string) :
  glob "go/bin/*" name <->
  exists t, name = "go/bin/" +:+ t /\ containsSep t = false.
Proof.
  change "go/bin/*" with ("go/bin/" +:+ "*").
  rewrite glob_prefix by reflexivity.
  split; intros (t & -> & Ht); exists t; split; auto; now apply glob_star_only.
Qed.

Lemma glob_pkg_tool (name : string) :
  glob "pkg/tool/*/*" name <->
  exists a b, name = "pkg/tool/" +:+ a +:+ "/" +:+ b
              /\ containsSep a = false /\ containsSep b = false.
Proof.
  change "pkg/tool/*/*" with ("pkg/tool/" +:+ "*/*").
  rewrite glob_prefix by reflexivity. split.
  - intros (t & -> & Ht). apply glob_star_inv in Ht as (a & t' & -> & Ha & Ht').
    apply glob_byte_inv in Ht' as (b & -> & Hb); [|reflexivity].
    apply glob_star_only in Hb. exists a, b. auto.
  - intros (a & b & -> & Ha & Hb). exists (a +:+ "/" +:+ b). split; [reflexivity|].
    apply glob_star_inv. exists a, ("/" +:+ b). repeat split; auto.
    apply glob_byte_inv; [reflexivity|]. exists b. split; [reflexivity|].
    now apply glob_star_only.
Qed.

Lemma Match_go_bin_glob (name : string) :
  exists ok, Match "go/bin/*" name = (ok, None)
             /\ (ok = true <-> glob "go/bin/*" name).
Proof.
  eexists; split; [apply Match_go_bin|]. rewrite glob_go_bin.
  destruct (stripPrefix "go/bin/" name) as [t|] eqn:E.
  - apply stripPrefix_Some in E as ->. rewrite negb_true_iff. split.
    + eauto.
    + intros (t' & Ht & Hs). apply stripPrefix_Some in Ht.
      rewrite (proj2 (stripPrefix_Some _ _ _) eq_refl) in Ht. congruence.
  - split; [discriminate|]. intros (t & -> & _).
    rewrite (proj2 (stripPrefix_Some _ _ _) eq_refl) in E. discriminate.
Qed.

Lemma Match_pkg_tool_glob (name : string) :
  exists ok, Match "pkg/tool/*/*" name = (ok, None)
             /\ (ok = true <-> glob "pkg/tool/*/*" name).
Proof.
  eexists; split; [apply Match_pkg_tool|]. rewrite glob_pkg_tool.
  destruct (stripPrefix "pkg/tool/" name) as [t|] eqn:E.
  - apply stripPrefix_Some in E as ->.
    destruct (cutSep t) as [[a b]|] eqn:C.
    + apply cutSep_Some in C as [-> Ha]. rewrite negb_true_iff. split.
      * intros Hb. exists a, b. auto.
      * intros (a' & b' & Ht & Ha' & Hb').
        apply stripPrefix_Some in Ht.
        rewrite (proj2 (stripPrefix_Some _ _ _) eq_refl) in Ht.
        injection Ht as Ht.
        assert (C : cutSep (a +:+ "/" +:+ b) = Some (a', b'))
          by (apply cutSep_Some; auto).
        rewrite (proj2 (cutSep_Some _ a b) (conj eq_refl Ha)) in C. congruence.
    + split; [discriminate|]. intros (a & b & Ht & Ha & Hb).
      apply stripPrefix_Some in Ht.
      rewrite (proj2 (stripPrefix_Some _ _ _) eq_refl) in Ht.
      injection Ht as ->.
      rewrite (proj2 (cutSep_Some _ a b) (conj eq_refl Ha)) in C. discriminate.
  - split; [discriminate|]. intros (a & b & -> & _).
    rewrite (proj2 (stripPrefix_Some _ _ _) eq_refl) in E. discriminate.
Qed.

(** [strings.HasSuffix] *)
Lemma drop_append (a b : string) : drop (String.length a) (a +:+ b) = b.
Proof. induction a as [|c a IH]; [reflexivity|]. rewrite append_cons. exact IH. Qed.

Lemma take_drop (n : nat) (s : string) : take n s +:+ drop n s = s.
Proof.
  revert s. induction n as [|n IH]; intros s; [reflexivity|].
  destruct s as [|c s]; [reflexivity|]. cbn [take drop].
  now rewrite append_cons, IH.
Qed.

Lemma HasSuffix_endsWith (s suffix : string) :
  HasSuffix s suffix = true <-> endsWith s suffix.
Proof.
  unfold HasSuffix, endsWith. rewrite andb_true_iff, Nat.leb_le, String.eqb_eq.
  split.
  - intros [_ H]. exists (take (String.length s - String.length suffix) s).
    rewrite <- H at 2. symmetry. apply take_drop.
  - intros [pre ->]. rewrite length_append. split; [lia|].
    replace (String.length pre + String.length suffix - String.length suffix)
      with (String.length pre) by lia.
    apply drop_append.
Qed.

(** ** The entry selector *)

Lemma matchOrPanic_go_bin (name : string) :
  exists ok, matchOrPanic "go/bin/*" name = Returns ok
             /\ (ok = true <-> glob "go/bin/*" name).
Proof.
  destruct (Match_go_bin_glob name) as (ok & E & H).
  exists ok. unfold matchOrPanic. rewrite E. auto.
Qed.

Lemma matchOrPanic_pkg_tool (name : string) :
  exists ok, matchOrPanic "pkg/tool/*/*" name = Returns ok
             /\ (ok = true <-> glob "pkg/tool/*/*" name).
Proof.
  destruct (Match_pkg_tool_glob name) as (ok & E & H).
  exists ok. unfold matchOrPanic. rewrite E. auto.
Qed.

(** The entry selector never panics: its patterns are well formed. *)
Lemma entrySignInfo_returns (a : archive) (name : string) :
  entrySignInfo a name = Returns (selected a name).
Proof.
  unfold selected, entrySignInfo.
  destruct (kind a); [destruct (HasSuffix name ".exe"); reflexivity|].
  destruct (macOS a); [|reflexivity].
  destruct (matchOrPanic_go_bin name) as (ok1 & -> & _).
  destruct ok1; [reflexivity|].
  destruct (matchOrPanic_pkg_tool name) as (ok2 & -> & _).
  destruct ok2; reflexivity.
Qed.

(** C3. The entry selector returns a sign request exactly as follows: for
    a zip archive, iff the entry name ends with [.exe], with profile
    Microsoft400; for a macOS tar.gz archive, iff the entry name matches the
    glob [go/bin/*] or the glob [pkg/tool/*/*], where a star does not cross a
    separator, with profile MacDeveloperHarden; for a tar.gz archive that is
    not macOS, never. No call panics. *)
Theorem entrySignInfo_selects (a : archive) (name : string) :
  let request profile :=
    Returns (Some (FileToSign (path a) (Join [entryExtractDir a; name]) profile)) in
  match kind a with
  | zipArchive =>
    (endsWith name ".exe" -> entrySignInfo a name = request "Microsoft400")
    /\ (~ endsWith name ".exe" -> entrySignInfo a name = Returns None)
  | tarGzArchive =>
    if macOS a then
      (glob "go/bin/*" name \/ glob "pkg/tool/*/*" name ->
       entrySignInfo a name = request "MacDeveloperHarden")
      /\ (~ (glob "go/bin/*" name \/ glob "pkg/tool/*/*" name) ->
          entrySignInfo a name = Returns None)
    else entrySignInfo a name = Returns None
  end.
Proof.
  intros request. unfold entrySignInfo. destruct (kind a).
  - destruct (HasSuffix name ".exe") eqn:E.
    + split; [reflexivity|]. intros H. apply HasSuffix_endsWith in E. contradiction.
    + split; [|reflexivity]. intros H. apply HasSuffix_endsWith in H. congruence.
  - destruct (macOS a); [|reflexivity].
    destruct (matchOrPanic_go_bin name) as (ok1 & -> & H1).
    destruct (matchOrPanic_pkg_tool name) as (ok2 & -> & H2).
    destruct ok1.
    { split; [reflexivity|]. intros H. exfalso. apply H. left. now apply H1. }
    destruct ok2.
    { split; [reflexivity|]. intros H. exfalso. apply H. right. now apply H2. }
    split; [|reflexivity].
    intros [H|H]; [apply H1 in H | apply H2 in H]; discriminate.
Qed.

(** The selector at a zip archive, at a macOS tar.gz archive and at a
    Linux tar.gz archive. *)
Lemma entrySignInfo_selects_witness :
  entrySignInfo (Archive "go1.zip" zipArchive false []) "go/bin/go.exe"
  = Returns (Some (FileToSign "go1.zip" "go1.zip.extracted/go/bin/go.exe"
                              "Microsoft400"))
  /\ entrySignInfo (Archive "go1.darwin-arm64.tar.gz" tarGzArchive true [])
                   "pkg/tool/darwin_arm64/link"
     = Returns (Some (FileToSign "go1.darwin-arm64.tar.gz"
                        "go1.darwin-arm64.tar.gz.extracted/pkg/tool/darwin_arm64/link"
                        "MacDeveloperHarden"))
  /\ entrySignInfo (Archive "go1.linux-amd64.tar.gz" tarGzArchive false [])
                   "go/bin/go"
     = Returns None.
Proof.
  split; [|split].
  - apply (entrySignInfo_selects (Archive "go1.zip" zipArchive false [])
                                 "go/bin/go.exe").
    exists "go/bin/go". reflexivity.
  - apply (entrySignInfo_selects
             (Archive "go1.darwin-arm64.tar.gz" tarGzArchive true [])
             "pkg/tool/darwin_arm64/link").
    right. apply glob_pkg_tool. exists "darwin_arm64", "link".
    repeat split; reflexivity.
  - exact (entrySignInfo_selects
             (Archive "go1.linux-amd64.tar.gz" tarGzArchive false [])
             "go/bin/go").
Defined.

(** ** The archive classifier *)

(** A pattern of literal bytes matches its own text and nothing else. *)
Lemma scanIndex_literal (q : string) :
  plain q = true -> starFree q = true -> scanIndex false q = String.length q.
Proof.
  induction q as [|d q IH]; [reflexivity|]. cbn [plain starFree scanIndex].
  intros Hp Hs. apply andb_prop in Hs as [Hd Hq].
  apply andb_prop in Hp as [Hp Hpq]. apply andb_prop in Hp as [Hp H3].
  apply andb_prop in Hp as [H1 H2].
  apply negb_true_iff in Hd, H1, H2, H3. rewrite H3, H1, Hd.
  destruct (Ascii.eqb d "]"); cbn [String.length]; f_equal; auto.
Qed.

Lemma take_all (q : string) : take (String.length q) q = q.
Proof. induction q as [|c q IH]; [reflexivity|]. cbn. now rewrite IH. Qed.

Lemma drop_all (q : string) : drop (String.length q) q = "".
Proof. induction q as [|c q IH]; [reflexivity | exact IH]. Qed.

Lemma stripPrefix_eqb (pattern name : string) :
  String.eqb pattern name =
  match stripPrefix pattern name with
  | Some t => is_empty t
  | None => false
  end.
Proof.
  revert name. induction pattern as [|c p IH]; intros name.
  - destruct name; reflexivity.
  - destruct name as [|d name]; [reflexivity|]. cbn [String.eqb stripPrefix].
    destruct (Ascii.eqb c d); [apply IH | reflexivity].
Qed.

Lemma Match_literal (pattern name : string) :
  plain pattern = true -> starFree pattern = true ->
  Match pattern name = (String.eqb pattern name, None).
Proof.
  intros Hp Hs. unfold Match. rewrite MatchLoop_S.
  destruct pattern as [|c p].
  { destruct name; reflexivity. }
  cbn [is_empty]. unfold scanChunk.
  assert (Hk : skipStars (String c p) = (false, String c p)).
  { cbn [skipStars]. cbn [starFree] in Hs. apply andb_prop in Hs as [Hc _].
    apply negb_true_iff in Hc. now rewrite Hc. }
  rewrite Hk, scanIndex_literal, take_all, drop_all by assumption.
  cbn [andb]. rewrite matchChunk_plain by assumption.
  rewrite stripPrefix_eqb.
  destruct (stripPrefix (String c p) name) as [t|]; [|reflexivity].
  destruct t; reflexivity.
Qed.

(** A path of literal bytes, which is what a file on disk is called, is
    never classified: [newArchive] passes it to [matchOrPanic] as the
    pattern, and the text of the pattern [go*.zip] as the name. *)
Lemma newArchive_rejects_literal_paths (p : string) :
  plain p = true -> starFree p = true ->
  newArchive p = Returns (inr (UnknownArchiveType p)).
Proof.
  intros Hp Hs.
  assert (H : forall name, starFree name = false ->
                           matchOrPanic p name = Returns false).
  { intros name Hn. unfold matchOrPanic. rewrite Match_literal by assumption.
    destruct (String.eqb_spec p name); [congruence | reflexivity]. }
  unfold newArchive. rewrite (H "go*.zip"), (H "go*.tar.gz") by reflexivity.
  reflexivity.
Qed.

(** C2. The classifier does not classify by the rules of the
    specification: [newArchive] gives the path to [matchOrPanic] in the place
    of the pattern. An archive named as the release archives are is
    rejected as of unknown type, although its name matches the pattern it was
    meant to be tested against; and a path that is a malformed pattern makes
    the call panic. *)
Theorem newArchive_misclassifies :
  newArchive "go1.21.0.windows-amd64.zip"
  = Returns (inr (UnknownArchiveType "go1.21.0.windows-amd64.zip"))
  /\ Match "go*.zip" "go1.21.0.windows-amd64.zip" = (true, None)
  /\ newArchive "go1.21.0.darwin-arm64.tar.gz"
     = Returns (inr (UnknownArchiveType "go1.21.0.darwin-arm64.tar.gz"))
  /\ Match "go*darwin*.tar.gz" "go1.21.0.darwin-arm64.tar.gz" = (true, None)
  /\ newArchive "go[1.zip" = Panics ErrBadPattern.
Proof. repeat split; vm_compute; reflexivity. Qed.
(** ** Iteration over entries *)

Lemma rangeFiles_stops {S : Type} (f : archive_zip.File -> M S (option error))
      (pre : list archive_zip.File) :
  forall (x : archive_zip.File) (post : list archive_zip.File) (s s1 s2 : S)
         (e : error),
    visitFiles f pre s = Some s1 ->
    f x s1 = (Returns (Some e), s2) ->
    rangeFiles (pre ++ x :: post) f s = (Returns (Some e), s2).
Proof.
  induction pre as [|y pre IH]; intros x post s s1 s2 e Hv Hx.
  - injection Hv as <-. cbn [app rangeFiles]. unfold bind. now rewrite Hx.
  - cbn [app rangeFiles visitFiles] in *. unfold bind at 1.
    destruct (f y s) as [[[err|]|] s'] eqn:Ey; try discriminate.
    eapply IH; eassumption.
Qed.

Lemma rangeFiles_completes {S : Type}
      (f : archive_zip.File -> M S (option error))
      (files : list archive_zip.File) :
  forall s s' : S,
    visitFiles f files s = Some s' ->
    rangeFiles files f s = (Returns None, s').
Proof.
  induction files as [|y files IH]; intros s s' Hv.
  - injection Hv as <-. reflexivity.
  - cbn [rangeFiles visitFiles] in *. unfold bind at 1.
    destruct (f y s) as [[[err|]|] s1] eqn:Ey; try discriminate.
    now apply IH.
Qed.

Lemma eachTarGzEntry_end {L : Type}
      (f : tar.Header -> stream -> M (world * L) (option error))
      (pre : list (tar.Header * fdata)) :
  forall (e : error) (s s1 : world * L),
    visitEntries f pre s = Some s1 ->
    eachTarGzEntry (entriesThen pre (archive_tar.AtEnd e)) f s
    = (Returns (if errors_Is e EOF then None else Some e),
       (fs.log (OpTarNext, Some e) (fst s1), snd s1)).
Proof.
  induction pre as [|[h d] pre IH]; intros e s s1 Hv.
  - injection Hv as <-. destruct s as [w l].
    cbn [entriesThen eachTarGzEntry]. unfold bind, inWorld, noteNext.
    cbn [fst snd]. destruct (errors_Is e EOF); reflexivity.
  - destruct s as [w l]. cbn [entriesThen eachTarGzEntry visitEntries] in *.
    unfold bind at 1. unfold inWorld at 1. unfold noteNext at 1.
    cbn [fst snd] in Hv. unfold bind at 1.
    destruct (f h (Content d) (fs.log (OpTarNext, None) w, l))
      as [[[err|]|] s'] eqn:Ey; try discriminate.
    now apply IH.
Qed.

Lemma eachTarGzEntry_stops {L : Type}
      (f : tar.Header -> stream -> M (world * L) (option error))
      (pre : list (tar.Header * fdata)) :
  forall (h : tar.Header) (d : fdata) (rest : archive_tar.Reader) (e : error)
         (s s1 s2 : world * L),
    visitEntries f pre s = Some s1 ->
    f h (Content d) (fs.log (OpTarNext, None) (fst s1), snd s1)
    = (Returns (Some e), s2) ->
    eachTarGzEntry (entriesThen pre (archive_tar.AtEntry h d rest)) f s
    = (Returns (Some e), s2).
Proof.
  induction pre as [|[h0 d0] pre IH]; intros h d rest e s s1 s2 Hv Hx.
  - injection Hv as <-. destruct s as [w l].
    cbn [entriesThen eachTarGzEntry]. unfold bind at 1. unfold inWorld at 1.
    unfold noteNext at 1. unfold bind at 1. cbn [fst snd] in Hx.
    now rewrite Hx.
  - destruct s as [w l]. cbn [entriesThen eachTarGzEntry visitEntries] in *.
    unfold bind at 1. unfold inWorld at 1. unfold noteNext at 1.
    cbn [fst snd] in Hv. unfold bind at 1.
    destruct (f h0 (Content d0) (fs.log (OpTarNext, None) w, l))
      as [[[err|]|] s'] eqn:Ey; try discriminate.
    eapply IH; eassumption.
Qed.

(** C10. In entry iteration the end of the archive is success:
    [eachTarGzEntry] returns [nil] when the reader reports [io.EOF] (an error
    for which [errors.Is(err, io.EOF)] holds). For [eachZipEntry] and
    [eachTarGzEntry] the first error, from the reader or from the callback,
    is returned unchanged, and the state is the one that the failing call
    left: no later entry is read or visited. *)
Theorem each_entry_first_error_aborts :
  (forall (S : Type) (f : archive_zip.File -> M S (option error))
          (r : archive_zip.ReadCloser) (pre : list archive_zip.File)
          (x : archive_zip.File) (post : list archive_zip.File)
          (s s1 s2 : S) (e : error),
      archive_zip.Files r = (pre ++ x :: post)%list ->
      visitFiles f pre s = Some s1 ->
      f x s1 = (Returns (Some e), s2) ->
      eachZipEntry r f s = (Returns (Some e), s2))
  /\ (forall (L : Type)
             (f : tar.Header -> stream -> M (world * L) (option error))
             (pre : list (tar.Header * fdata)) (e : error) (s s1 : world * L),
         visitEntries f pre s = Some s1 ->
         eachTarGzEntry (entriesThen pre (archive_tar.AtEnd e)) f s
         = (Returns (if errors_Is e EOF then None else Some e),
            (fs.log (OpTarNext, Some e) (fst s1), snd s1)))
  /\ (forall (L : Type)
             (f : tar.Header -> stream -> M (world * L) (option error))
             (pre : list (tar.Header * fdata)) (h : tar.Header) (d : fdata)
             (rest : archive_tar.Reader) (e : error) (s s1 s2 : world * L),
         visitEntries f pre s = Some s1 ->
         f h (Content d) (fs.log (OpTarNext, None) (fst s1), snd s1)
         = (Returns (Some e), s2) ->
         eachTarGzEntry (entriesThen pre (archive_tar.AtEntry h d rest)) f s
         = (Returns (Some e), s2)).
Proof.
  split; [|split].
  - intros S f r pre x post s s1 s2 e Hr Hv Hx. unfold eachZipEntry.
    rewrite Hr. eapply rangeFiles_stops; eassumption.
  - intros L f pre e s s1 Hv. now apply eachTarGzEntry_end.
  - intros L f pre h d rest e s s1 s2 Hv Hx.
    eapply eachTarGzEntry_stops; eassumption.
Qed.

(** The iterators on the sample archives: the callback fails at the
    second entry and the third is not visited; and the end of a tar stream,
    reported as [io.EOF], is success. *)
Lemma each_entry_first_error_aborts_witness :
  eachZipEntry samples.threeFiles (samples.noteFile "b.txt") []
  = (Returns (Some (IOError "bad entry")), ["a.exe"; "b.txt"])
  /\ eachTarGzEntry (entriesThen samples.darwinEntries (archive_tar.AtEnd EOF))
                    (samples.noteEntry "none") (samples.disk, [])
     = (Returns None,
        (fs.log (OpTarNext, Some EOF)
           (fs.log (OpTarNext, None) (fs.log (OpTarNext, None) samples.disk)),
         ["go/bin/go"; "README"]))
  /\ eachTarGzEntry (entriesThen [] (archive_tar.AtEntry
                                        (samples.tarHeader "go/bin/go") (Raw "ELF")
                                        (archive_tar.AtEnd EOF)))
                    (samples.noteEntry "go/bin/go") (samples.disk, [])
     = (Returns (Some (IOError "bad entry")),
        (fs.log (OpTarNext, None) samples.disk, ["go/bin/go"])).
Proof.
  destruct each_entry_first_error_aborts as (Hzip & Hend & Hstop).
  split; [|split].
  - apply (Hzip (list string) (samples.noteFile "b.txt") samples.threeFiles
                [archive_zip.mkFile (samples.zipHeader "a.exe") (Raw "MZ")]
                (archive_zip.mkFile (samples.zipHeader "b.txt") (Raw "hello"))
                [archive_zip.mkFile (samples.zipHeader "c.txt") (Raw "bye")]
                [] ["a.exe"]); reflexivity.
  - apply (Hend (list string) (samples.noteEntry "none") samples.darwinEntries
                EOF (samples.disk, [])
                (fs.log (OpTarNext, None) (fs.log (OpTarNext, None) samples.disk),
                 ["go/bin/go"; "README"])).
    reflexivity.
  - apply (Hstop (list string) (samples.noteEntry "go/bin/go") []
                 (samples.tarHeader "go/bin/go") (Raw "ELF")
                 (archive_tar.AtEnd EOF) (IOError "bad entry")
                 (samples.disk, []) (samples.disk, [])); reflexivity.
Defined.
(** ** The I/O operations: what each adds to the log *)

Lemma firstError_app (a b : list event) :
  firstError (a ++ b) = orElse (firstError a) (firstError b).
Proof.
  induction a as [|ev a IH]; [reflexivity|]. cbn [app firstError].
  rewrite IH. destruct (counted ev); reflexivity.
Qed.

Lemma orElse_None_r (e : option error) : orElse e None = e.
Proof. destruct e; reflexivity. Qed.

Lemma keeps_refl (w : world) : keeps w w.
Proof. intros k H. exact H. Qed.

Lemma keeps_trans (w1 w2 w3 : world) : keeps w1 w2 -> keeps w2 w3 -> keeps w1 w3.
Proof. intros H1 H2 k H. apply H2, H1, H. Qed.

Lemma keeps_files (w w' : world) : files w' = files w -> keeps w w'.
Proof. intros E k H. now rewrite E. Qed.

Lemma keeps_writeTo (p : string) (d : fdata) (w w' : world) :
  files w' = <[p := d]> (files w) -> keeps w w'.
Proof.
  intros E k H. rewrite E. destruct (decide (p = k)) as [->|Hne].
  - rewrite lookup_insert_eq. eauto.
  - now rewrite lookup_insert_ne.
Qed.

Lemma releaseFrom_head (r : resource) (l : list resource) :
  fs.releaseFrom r (r :: l) = l.
Proof. cbn. now rewrite decide_True. Qed.

Ltac frame :=
  repeat split; cbn;
  try reflexivity; try apply keeps_refl;
  try (eapply keeps_writeTo; reflexivity);
  try (apply keeps_files; reflexivity).

(** An operation adds one event, with the error it returns; it acquires
    [acq x] when it returns [x] and nothing when it fails. *)
Lemma attempt_spec {A : Type} (o : op) (sem : world -> (A + error) * world)
      (acq : A -> list resource) :
  (forall w0 : world,
      trace (snd (sem w0)) = trace w0
      /\ keeps w0 (snd (sem w0))
      /\ live (snd (sem w0)) = match fst (sem w0) with
                               | inl x => (acq x ++ live w0)%list
                               | inr _ => live w0
                               end) ->
  forall w : world,
  exists (r : A + error) (w' : world),
    io.attempt o sem w = (Returns r, w')
    /\ trace w' = (trace w ++ [(o, errOf r)])%list
    /\ keeps w w'
    /\ live w' = match r with
                 | inl x => (acq x ++ live w)%list
                 | inr _ => live w
                 end.
Proof.
  intros Hsem w. unfold io.attempt, io.popFault.
  destruct (faults w) as [|[e|] fl] eqn:Ef.
  - destruct (Hsem w) as (Ht & Hk & Hl). destruct (sem w) as [r w1].
    cbn [fst snd] in *. exists r, (fs.log (o, errOf r) w1).
    split; [reflexivity|]. split; [cbn; now rewrite Ht|]. split; assumption.
  - exists (inr e), (fs.log (o, Some e) (fs.setFaults fl w)).
    split; [reflexivity|]. split; [reflexivity|].
    split; [apply keeps_files|]; reflexivity.
  - destruct (Hsem (fs.setFaults fl w)) as (Ht & Hk & Hl).
    destruct (sem (fs.setFaults fl w)) as [r w1].
    cbn [fst snd] in *. exists r, (fs.log (o, errOf r) w1).
    split; [reflexivity|]. split; [cbn; now rewrite Ht|]. split; assumption.
Qed.

Lemma closeWith_spec (dropped : bool) (r : resource) (w : world) :
  exists (e : option error) (w' : world),
    io.closeWith dropped r w = (Returns e, w')
    /\ trace w' = (trace w ++ [(OpClose r dropped, e)])%list
    /\ keeps w w'
    /\ live w' = fs.releaseFrom r (live w).
Proof.
  unfold io.closeWith, io.popFault.
  assert (Hc : forall w0, keeps w0 (io.closeEffect r w0)
                          /\ trace (io.closeEffect r w0) = trace w0
                          /\ live (io.closeEffect r w0) = live w0).
  { intros w0. destruct r; cbn; repeat split; auto using keeps_refl;
      eapply keeps_writeTo; reflexivity. }
  destruct (faults w) as [|[e|] fl] eqn:Ef.
  - destruct (Hc w) as (Hk & Ht & Hl).
    eexists _, _. split; [reflexivity|]. cbn. rewrite Ht, Hl. auto.
  - eexists _, _. split; [reflexivity|].
    split; [reflexivity|]. split; [apply keeps_files|]; reflexivity.
  - destruct (Hc (fs.setFaults fl w)) as (Hk & Ht & Hl).
    eexists _, _. split; [reflexivity|]. cbn. rewrite Ht, Hl. auto.
Qed.

Lemma Close_spec (r : resource) (w : world) :
  exists (e : option error) (w' : world),
    io.Close r w = (Returns e, w')
    /\ trace w' = (trace w ++ [(OpClose r false, e)])%list
    /\ keeps w w'
    /\ live w' = fs.releaseFrom r (live w).
Proof. apply closeWith_spec. Qed.

Lemma CloseDropped_spec (r : resource) (w : world) :
  exists (e : option error) (w' : world),
    io.CloseDropped r w = (Returns tt, w')
    /\ trace w' = (trace w ++ [(OpClose r true, e)])%list
    /\ keeps w w'
    /\ live w' = fs.releaseFrom r (live w).
Proof.
  destruct (closeWith_spec true r w) as (e & w' & E & H).
  exists e, w'. split; [|exact H]. unfold io.CloseDropped, bind. now rewrite E.
Qed.

Lemma Copy_spec (dst : ioWriter) (src : stream) (w : world) :
  exists (e : option error) (w' : world),
    io.Copy dst src w = (Returns e, w')
    /\ trace w' = (trace w ++ [(OpCopy, e)])%list
    /\ keeps w w'
    /\ live w' = live w.
Proof.
  unfold io.Copy, bind.
  match goal with
  | |- context [io.attempt ?o ?sem w] =>
    destruct (attempt_spec o sem (fun _ => []) ) with (w := w)
      as (r & w' & E & Ht & Hk & Hl)
  end.
  { intros w0. destruct src as [d|e]; [destruct dst|]; frame. }
  rewrite E. exists (errOf r), w'. split; [reflexivity|].
  repeat split; auto. destruct r; exact Hl.
Qed.


Lemma Create_spec (p : string) (w : world) :
  exists (r : os.File + error) (w' : world),
    os.Create p w = (Returns r, w')
    /\ trace w' = (trace w ++ [(OpCreate p, errOf r)])%list
    /\ keeps w w'
    /\ live w' = match r with
                 | inl f => RFile (os.fname f) :: live w
                 | inr _ => live w
                 end.
Proof.
  unfold os.Create.
  apply (attempt_spec _ _ (fun f => [RFile (os.fname f)])).
  intros w0. cbv beta zeta. destruct (fs.dirExists w0 _); [frame|].
  destruct (fs.dirExists w0 _); frame.
Qed.

Lemma Open_spec (p : string) (w : world) :
  exists (r : os.File + error) (w' : world),
    os.Open p w = (Returns r, w')
    /\ trace w' = (trace w ++ [(OpOpen p, errOf r)])%list
    /\ keeps w w'
    /\ live w' = match r with
                 | inl f => RFile (os.fname f) :: live w
                 | inr _ => live w
                 end.
Proof.
  unfold os.Open.
  apply (attempt_spec _ _ (fun f => [RFile (os.fname f)])).
  intros w0. cbv beta zeta. destruct (files w0 !! _); [frame|].
  destruct (fs.dirExists w0 _); frame.
Qed.

Lemma OpenReader_spec (p : string) (w : world) :
  exists (r : archive_zip.ReadCloser + error) (w' : world),
    archive_zip.OpenReader p w = (Returns r, w')
    /\ trace w' = (trace w ++ [(OpZipOpenReader p, errOf r)])%list
    /\ keeps w w'
    /\ live w' = match r with
                 | inl zr => RZipReader (archive_zip.source zr) :: live w
                 | inr _ => live w
                 end.
Proof.
  unfold archive_zip.OpenReader.
  apply (attempt_spec _ _ (fun zr => [RZipReader (archive_zip.source zr)])).
  intros w0. cbv beta zeta.
  destruct (files w0 !! _) as [[b|es [|]|es c]|]; try (frame; fail).
  destruct (fs.dirExists w0 _); frame.
Qed.

Lemma zipOpen_spec (f : archive_zip.File) (w : world) :
  exists (r : ioReadCloser + error) (w' : world),
    archive_zip.Open f w = (Returns r, w')
    /\ trace w' = (trace w ++ [(OpZipFileOpen (archive_zip.Name f), errOf r)])%list
    /\ keeps w w'
    /\ live w' = match r with
                 | inl rc => closer rc :: live w
                 | inr _ => live w
                 end.
Proof.
  unfold archive_zip.Open.
  apply (attempt_spec _ _ (fun rc => [closer rc])).
  intros w0. frame.
Qed.

Lemma CreateHeader_spec (zw : archive_zip.Writer) (fh : zip.FileHeader)
      (w : world) :
  exists (r : ioWriter + error) (w' : world),
    archive_zip.CreateHeader zw fh w = (Returns r, w')
    /\ trace w' = (trace w ++ [(OpCreateHeader (zip.Name fh), errOf r)])%list
    /\ keeps w w'
    /\ live w' = live w.
Proof.
  unfold archive_zip.CreateHeader.
  match goal with
  | |- context [io.attempt ?o ?sem w] =>
    destruct (attempt_spec o sem (fun _ => []) ) with (w := w)
      as (r & w' & E & Ht & Hk & Hl)
  end.
  { intros w0. frame. }
  exists r, w'. repeat split; auto. destruct r; exact Hl.
Qed.

Lemma gzipNewReader_spec (f : os.File) (w : world) :
  exists (r : archive_tar.Reader + error) (w' : world),
    gzip.NewReader f w = (Returns r, w')
    /\ trace w' = (trace w ++ [(OpGzipNewReader (os.fname f), errOf r)])%list
    /\ keeps w w'
    /\ live w' = live w.
Proof.
  unfold gzip.NewReader.
  match goal with
  | |- context [io.attempt ?o ?sem w] =>
    destruct (attempt_spec o sem (fun _ => []) ) with (w := w)
      as (r & w' & E & Ht & Hk & Hl)
  end.
  { intros w0. destruct (os.fcontent f) as [[[|]|es c|es c]|e]; frame. }
  exists r, w'. repeat split; auto. destruct r; exact Hl.
Qed.
(** ** Closing discipline and first error *)

(** Run the next operation of the goal with its specification. *)
Ltac exec spec :=
  let r := fresh "r" in
  let w' := fresh "w" in
  let E := fresh "E" in
  let T := fresh "T" in
  let K := fresh "K" in
  let L := fresh "L" in
  destruct spec as (r & w' & E & T & K & L);
  rewrite E; cbv beta iota zeta; cbn [fst snd].

(** The specification of an operation that runs later. *)
Ltac later spec :=
  let r := fresh "r" in
  let w' := fresh "w" in
  let E := fresh "E" in
  let T := fresh "T" in
  let K := fresh "K" in
  let L := fresh "L" in
  destruct spec as (r & w' & E & T & K & L).

(** Run a callee that [reports]. *)
Ltac exec_reports spec :=
  let err := fresh "err" in
  let w' := fresh "w" in
  let evs := fresh "evs" in
  let E := fresh "E" in
  let T := fresh "T" in
  let F := fresh "F" in
  let K := fresh "K" in
  let L := fresh "L" in
  destruct spec as (err & w' & evs & E & T & F & K & L);
  rewrite E; cbv beta iota zeta; cbn [fst snd].

Ltac traces :=
  repeat match goal with
         | T : trace ?w = _ |- context [trace ?w] => rewrite T
         end;
  rewrite <- ?app_assoc; reflexivity.

Ltac errors :=
  subst; rewrite ?firstError_app; cbn [firstError counted orElse errOf];
  repeat match goal with
         | |- context [match ?e with Some _ => _ | None => _ end] =>
           is_var e; destruct e
         end;
  cbn [firstError counted orElse errOf]; rewrite ?orElse_None_r;
  try reflexivity.

Ltac lives :=
  unfold id in *;
  repeat match goal with
         | L : live ?w = _ |- context [live ?w] => rewrite L
         end;
  rewrite ?releaseFrom_head; reflexivity.

Ltac done_reports :=
  eexists _, _, _; split; [reflexivity|];
  split; [traces|]; split; [errors|];
  split; [eauto 10 using keeps_trans, keeps_refl | lives].



Lemma call_entrySignInfo {S : Type} (a : archive) (name : string) (s : S) :
  call (entrySignInfo a name) s = (Returns (selected a name), s).
Proof. unfold call. now rewrite entrySignInfo_returns. Qed.

Lemma repackZipEntry_reports (a : archive) (zw : archive_zip.Writer)
      (f : archive_zip.File) (w : world) :
  reports (repackZipEntry a zw f) id w.
Proof.
  unfold reports, repackZipEntry, bind.
  exec (CreateHeader_spec zw (archive_zip.FileHeader f) w).
  destruct r as [dst|e]; [|done_reports].
  rewrite call_entrySignInfo. cbv beta iota.
  destruct (selected a (archive_zip.Name f)) as [info|].
  - exec (Open_spec (fullPath info) w0).
    destruct r as [src|e]; unfold ret; cbv beta iota; [|done_reports].
    unfold defer.
    exec (Copy_spec dst (reads (os.asReadCloser src)) w1).
    later (CloseDropped_spec (closer (os.asReadCloser src)) w2).
    destruct r; unfold ret; cbv beta iota zeta; cbn [fst snd]; rewrite E2;
      cbn [snd]; done_reports.
  - exec (zipOpen_spec f w0).
    destruct r as [src|e]; [|done_reports].
    unfold defer.
    exec (Copy_spec dst (reads src) w1).
    later (CloseDropped_spec (closer src) w2).
    destruct r; unfold ret; cbv beta iota zeta; cbn [fst snd]; rewrite E2;
      cbn [snd]; done_reports.
Qed.

Lemma rangeFiles_reports (f : archive_zip.File -> M world (option error))
      (files : list archive_zip.File) :
  (forall x w, reports (f x) id w) ->
  forall w, reports (rangeFiles files f) id w.
Proof.
  intros Hf. induction files as [|x files IH]; intros w.
  - unfold reports. cbn [rangeFiles]. unfold ret.
    exists None, w, []. rewrite app_nil_r. auto using keeps_refl.
  - unfold reports. cbn [rangeFiles]. unfold bind.
    exec_reports (Hf x w). destruct err as [e|]; unfold ret.
    + eexists _, _, _. split; [reflexivity|]. split; [exact T|].
      split; [exact F|]. auto.
    + exec_reports (IH w0).
      eexists _, _, _. split; [reflexivity|]. split; [traces|].
      split; [rewrite firstError_app, <- F; exact F0|].
      split; [eauto using keeps_trans | lives].
Qed.

Lemma eachTarGzEntry_repack_reports (a : archive) (r : archive_tar.Reader) :
  forall w : world,
  exists (err : option error) (w' : world) (evs : list event),
    eachTarGzEntry r (repackTarEntry a) (w, tt) = (Returns err, (w', tt))
    /\ trace w' = (trace w ++ evs)%list
    /\ err = firstError evs
    /\ keeps w w'
    /\ live w' = live w.
Proof.
  induction r as [e|h body rest IH]; intros w.
  - cbn [eachTarGzEntry]. unfold bind, inWorld, noteNext, ret.
    exists (if errors_Is e EOF then None else Some e),
      (fs.log (OpTarNext, Some e) w), [(OpTarNext, Some e)]. split.
    { destruct (errors_Is e EOF); reflexivity. }
    split; [reflexivity|]. split.
    { cbn. destruct (errors_Is e EOF); reflexivity. }
    split; [apply keeps_files|]; reflexivity.
  - cbn [eachTarGzEntry]. unfold bind at 1. unfold inWorld, noteNext.
    unfold bind at 1. unfold repackTarEntry at 1. unfold bind at 1.
    rewrite call_entrySignInfo.
    assert (Hret : (match selected a (tar.Name h) with
                    | Some _ => ret None
                    | None => ret None
                    end) (fs.log (OpTarNext, None) w, tt)
                   = (Returns (@None error), (fs.log (OpTarNext, None) w, tt))).
    { destruct (selected a (tar.Name h)); reflexivity. }
    rewrite Hret.
    destruct (IH (fs.log (OpTarNext, None) w))
      as (err & w' & evs & E & T & F & K & L).
    rewrite E. exists err, w', ((OpTarNext, None) :: evs).
    split; [reflexivity|]. split.
    { rewrite T. cbn. now rewrite <- app_assoc. }
    split; [exact F|]. split; [|exact L].
    eapply keeps_trans; [|exact K]. apply keeps_files. reflexivity.
Qed.

Lemma openTarGz_spec (a : archive) (w : world) :
  exists (r : os.File * archive_tar.Reader + error) (w' : world)
         (evs : list event),
    openTarGz a w = (Returns r, w')
    /\ trace w' = (trace w ++ evs)%list
    /\ errOf r = firstError evs
    /\ keeps w w'
    /\ live w' = match r with
                 | inl (f, _) => RFile (os.fname f) :: live w
                 | inr _ => live w
                 end.
Proof.
  unfold openTarGz, bind.
  exec (Open_spec (path a) w). destruct r as [f|e]; unfold ret.
  - exec (gzipNewReader_spec f w0). destruct r as [tr|e].
    + eexists _, _, _. split; [reflexivity|]. split; [traces|].
      split; [reflexivity|]. split; [eauto using keeps_trans | lives].
    + exec (CloseDropped_spec (RFile (os.fname f)) w1).
      eexists _, _, _. split; [reflexivity|]. split; [traces|].
      split; [reflexivity|]. split; [eauto using keeps_trans | lives].
  - eexists _, _, _. split; [reflexivity|]. split; [traces|].
    split; [reflexivity|]. split; [eauto using keeps_trans | lives].
Qed.

Lemma writeSignedArchive_reports (a : archive) (f : os.File) (w : world) :
  reports (writeSignedArchive a f) id w.
Proof.
  unfold reports, writeSignedArchive. destruct (kind a).
  - unfold openZip, bind.
    exec (OpenReader_spec (path a) w). destruct r as [zr|e]; [|done_reports].
    unfold defer, archive_zip.NewWriter, eachZipEntry. cbn [archive_zip.target].
    destruct (rangeFiles_reports
                (repackZipEntry a (archive_zip.mkWriter (os.fname f)))
                (archive_zip.Files zr)
                (fun x w => repackZipEntry_reports a _ x w)
                (fs.acquire (RZipWriter (os.fname f)) w0))
      as (err & w1 & evs & E1 & T1 & F1 & K1 & L1).
    rewrite E1. cbv beta iota.
    exec (Close_spec (RZipWriter (os.fname f)) w1).
    later (CloseDropped_spec (RZipReader (archive_zip.source zr)) w2).
    cbn [trace live fs.acquire fs.setLive] in T1, L1.
    assert (K1' : keeps w0 w1).
    { eapply keeps_trans; [|exact K1]. apply keeps_files. reflexivity. }
    destruct (orElse err r) eqn:Eo; unfold ret; cbv beta iota zeta;
      cbn [fst snd]; rewrite E2; cbn [snd];
      (eexists _, _, _; split; [reflexivity|]; split; [traces|];
       split; [|split; [eauto 10 using keeps_trans | lives]]);
      rewrite !firstError_app, <- F1; cbn [firstError counted errOf orElse];
      rewrite ?orElse_None_r; now rewrite Eo.
  - destruct (macOS a); [|unfold ret; exists None, w, [];
                          rewrite app_nil_r; auto using keeps_refl].
    unfold bind.
    destruct (openTarGz_spec a w) as (o & w0 & evs0 & E0 & T0 & F0 & K0 & L0).
    rewrite E0. cbv beta iota. destruct o as [[cl tr]|e]; unfold ret.
    2:{ eexists _, _, _. split; [reflexivity|]. split; [exact T0|].
        split; [exact F0|]. auto. }
    unfold defer, gzip.NewWriter, archive_tar.NewWriter, withLocals.
    cbn [gzip.target archive_tar.target].
    destruct (eachTarGzEntry_repack_reports a tr
                (fs.acquire (RTarWriter (os.fname f))
                            (fs.acquire (RGzipWriter (os.fname f)) w0)))
      as (err & w1 & evs & E1 & T1 & F1 & K1 & L1).
    rewrite E1. cbv beta iota.
    exec (Close_spec (RTarWriter (os.fname f)) w1).
    exec (Close_spec (RGzipWriter (os.fname f)) w2).
    later (CloseDropped_spec (RFile (os.fname cl)) w3).
    cbn [trace live fs.acquire fs.setLive] in T1, L1.
    assert (K1' : keeps w0 w1).
    { eapply keeps_trans; [|exact K1]. apply keeps_files. reflexivity. }
    cbn [errOf] in F0.
    destruct (orElse (orElse err r) r0) eqn:Eo; unfold ret;
      cbv beta iota zeta; cbn [fst snd]; rewrite E3; cbn [snd];
      (eexists _, _, _; split; [reflexivity|]; split; [traces|];
       split; [|split; [eauto 10 using keeps_trans | lives]]);
      rewrite !firstError_app, <- F0, <- F1;
      cbn [firstError counted errOf orElse];
      rewrite ?orElse_None_r; rewrite <- Eo; destruct err, r, r0; reflexivity.
Qed.

Lemma repackSignedEntries_reports (destinationDir : string) (a : archive)
      (w : world) :
  reports (repackSignedEntries destinationDir a) id w.
Proof.
  unfold reports, repackSignedEntries.
  destruct (isZip a || macOS a);
    [|unfold ret; exists None, w, []; rewrite app_nil_r; auto using keeps_refl].
  unfold bind.
  exec (Create_spec (Join [destinationDir; path a +:+ ".withSignedContent"]) w).
  destruct r as [f|e]; [|done_reports].
  exec_reports (writeSignedArchive_reports a f w0).
  exec (Close_spec (RFile (os.fname f)) w1).
  destruct (orElse err r) eqn:Eo; unfold ret;
    (eexists _, _, _; split; [reflexivity|]; split; [traces|];
     split; [|split; [eauto 10 using keeps_trans | lives]]);
    rewrite !firstError_app, <- F; cbn [firstError counted errOf orElse];
    rewrite ?orElse_None_r; now rewrite Eo.
Qed.



(** ** Repacking writes at the destination *)

Lemma Create_creates (p : string) (w w1 : world) (f : os.File) :
  os.Create p w = (Returns (inl f), w1) ->
  os.fname f = Clean p /\ is_Some (files w1 !! Clean p).
Proof.
  unfold os.Create, io.attempt, io.popFault.
  destruct (faults w) as [|[e|] fl]; [| discriminate |].
  - destruct (fs.dirExists w (Clean p)); [discriminate|].
    destruct (fs.dirExists w (fs.parentDir (Clean p))); [|discriminate].
    intros [= <- <-]. split; [reflexivity|]. cbn. rewrite lookup_insert_eq. eauto.
  - cbn [fs.dirExists dirs fs.setFaults].
    destruct (fs.dirExists _ (Clean p)); [discriminate|].
    destruct (fs.dirExists _ (fs.parentDir (Clean p))); [|discriminate].
    intros [= <- <-]. split; [reflexivity|]. cbn. rewrite lookup_insert_eq. eauto.
Qed.

(** ** Repacking touches the destination only *)

Lemma touches_refl (P : string -> Prop) (w : world) : touches P w w.
Proof. split; reflexivity. Qed.

Lemma touches_trans (P : string -> Prop) (w1 w2 w3 : world) :
  touches P w1 w2 -> touches P w2 w3 -> touches P w1 w3.
Proof.
  intros [D1 F1] [D2 F2]. split; [congruence|].
  intros k Hk. rewrite (F2 k Hk). apply F1, Hk.
Qed.

Lemma touches_same (P : string -> Prop) (w w' : world) :
  dirs w' = dirs w -> files w' = files w -> touches P w w'.
Proof. intros Hd Hf. split; [exact Hd|]. intros k _. now rewrite Hf. Qed.

Lemma touches_writeTo (P : string -> Prop) (p : string) (d : fdata)
      (w w' : world) :
  P p -> dirs w' = dirs w -> files w' = <[p := d]> (files w) ->
  touches P w w'.
Proof.
  intros Hp Hd Hf. split; [exact Hd|]. intros k Hk. rewrite Hf.
  apply lookup_insert_ne. intros ->. exact (Hk Hp).
Qed.

Lemma confined_ret {S A : Type} (proj : S -> world) (P : string -> Prop)
      (a : A) :
  confined proj P (ret a).
Proof. intros s r s' [= _ <-]. apply touches_refl. Qed.

Lemma confined_call {S A : Type} (proj : S -> world) (P : string -> Prop)
      (o : outcome A) :
  confined proj P (call o).
Proof. intros s r s' [= _ <-]. apply touches_refl. Qed.

Lemma confined_bind {S A B : Type} (proj : S -> world) (P : string -> Prop)
      (m : M S A) (k : A -> M S B) :
  confined proj P m ->
  (forall (x : A) (s s' : S), m s = (Returns x, s') -> confined proj P (k x)) ->
  confined proj P (bind m k).
Proof.
  intros Hm Hk s r s' E. unfold bind in E.
  destruct (m s) as [[x|e] s1] eqn:Em.
  - apply touches_trans with (proj s1); [exact (Hm _ _ _ Em)|].
    exact (Hk x s s1 Em _ _ _ E).
  - injection E as <- <-. exact (Hm _ _ _ Em).
Qed.

Lemma confined_defer {S A : Type} (proj : S -> world) (P : string -> Prop)
      (d : M S unit) (body : M S A) :
  confined proj P d -> confined proj P body -> confined proj P (defer d body).
Proof.
  intros Hd Hb s r s' E. unfold defer in E.
  destruct (body s) as [r1 s1] eqn:Eb. destruct (d s1) as [r2 s2] eqn:Ed.
  cbn [snd] in E. injection E as <- <-.
  apply touches_trans with (proj s1); [exact (Hb _ _ _ Eb)|exact (Hd _ _ _ Ed)].
Qed.

Lemma confined_inWorld {L A : Type} (P : string -> Prop) (m : M world A) :
  confined id P m -> confined (@fst world L) P (inWorld m).
Proof.
  intros Hm [w l] r [w' l'] E. unfold inWorld in E.
  destruct (m w) as [r1 w1] eqn:Em. injection E as <- <- <-.
  exact (Hm _ _ _ Em).
Qed.

Lemma confined_withLocals {L A : Type} (P : string -> Prop) (l : L)
      (m : M (world * L) A) :
  confined fst P m -> confined id P (withLocals l m).
Proof.
  intros Hm w r w' E. unfold withLocals in E.
  destruct (m (w, l)) as [[x|e] [w1 l1]] eqn:Em; injection E as <- <-;
    exact (Hm _ _ _ Em).
Qed.

Lemma confined_attempt {A : Type} (P : string -> Prop) (o : op)
      (sem : world -> (A + error) * world) :
  (forall w0 : world, touches P w0 (snd (sem w0))) ->
  confined id P (io.attempt o sem).
Proof.
  intros Hsem w r w' E. unfold io.attempt, io.popFault in E.
  destruct (faults w) as [|[e|] fl].
  - pose proof (Hsem w) as H. destruct (sem w) as [x w1].
    injection E as <- <-. eapply touches_trans; [exact H|].
    now apply touches_same.
  - injection E as <- <-. now apply touches_same.
  - pose proof (Hsem (fs.setFaults fl w)) as H.
    destruct (sem (fs.setFaults fl w)) as [x w1].
    injection E as <- <-.
    eapply touches_trans; [|eapply touches_trans; [exact H|]];
      now apply touches_same.
Qed.

(** The path a resource writes when it is closed. *)
Lemma confined_closeWith (P : string -> Prop) (dropped : bool) (r : resource) :
  match r with
  | RZipWriter p | RTarWriter p | RGzipWriter p => P p
  | _ => True
  end ->
  confined id P (io.closeWith dropped r).
Proof.
  intros Hr w x w' E. unfold io.closeWith, io.popFault in E.
  assert (Hc : forall w0, touches P w0 (io.closeEffect r w0)).
  { intros w0. destruct r; cbn; try apply touches_refl;
      (eapply touches_writeTo; [exact Hr|reflexivity|reflexivity]). }
  destruct (faults w) as [|[e|] fl]; injection E as <- <-.
  - eapply touches_trans; [exact (Hc w)|]. now apply touches_same.
  - now apply touches_same.
  - eapply touches_trans; [|eapply touches_trans;
                            [exact (Hc (fs.setFaults fl w))|]];
      now apply touches_same.
Qed.

Lemma confined_CloseDropped (P : string -> Prop) (r : resource) :
  match r with
  | RZipWriter p | RTarWriter p | RGzipWriter p => P p
  | _ => True
  end ->
  confined id P (io.CloseDropped r).
Proof.
  intros Hr. unfold io.CloseDropped. apply confined_bind.
  - now apply confined_closeWith.
  - intros. apply confined_ret.
Qed.

Lemma confined_Copy (P : string -> Prop) (dst : ioWriter) (src : stream) :
  match dst with FileWriter p | ZipEntryWriter p => P p end ->
  confined id P (io.Copy dst src).
Proof.
  intros Hd. unfold io.Copy. apply confined_bind; [|intros; apply confined_ret].
  apply confined_attempt. intros w0.
  destruct src as [d|e]; [|now apply touches_same].
  destruct dst; cbn [snd];
    (eapply touches_writeTo; [exact Hd|reflexivity|reflexivity]).
Qed.

Lemma confined_Create (P : string -> Prop) (p : string) :
  P (Clean p) -> confined id P (os.Create p).
Proof.
  intros Hp. unfold os.Create. apply confined_attempt. intros w0.
  cbv beta zeta. destruct (fs.dirExists w0 _); [now apply touches_same|].
  destruct (fs.dirExists w0 _); [|now apply touches_same].
  cbn [snd]. eapply touches_writeTo; [exact Hp|reflexivity|reflexivity].
Qed.

Lemma confined_Open (P : string -> Prop) (p : string) :
  confined id P (os.Open p).
Proof.
  unfold os.Open. apply confined_attempt. intros w0. cbv beta zeta.
  destruct (files w0 !! _); [now apply touches_same|].
  destruct (fs.dirExists w0 _); now apply touches_same.
Qed.

Lemma confined_OpenReader (P : string -> Prop) (p : string) :
  confined id P (archive_zip.OpenReader p).
Proof.
  unfold archive_zip.OpenReader. apply confined_attempt. intros w0.
  cbv beta zeta.
  destruct (files w0 !! _) as [[b|es [|]|es c]|]; try now apply touches_same.
  destruct (fs.dirExists w0 _); now apply touches_same.
Qed.

Lemma confined_zipOpen (P : string -> Prop) (f : archive_zip.File) :
  confined id P (archive_zip.Open f).
Proof.
  unfold archive_zip.Open. apply confined_attempt. intros w0.
  now apply touches_same.
Qed.

Lemma confined_CreateHeader (P : string -> Prop) (zw : archive_zip.Writer)
      (fh : zip.FileHeader) :
  P (archive_zip.target zw) ->
  confined id P (archive_zip.CreateHeader zw fh).
Proof.
  intros Hp. unfold archive_zip.CreateHeader. apply confined_attempt.
  intros w0. cbn [snd].
  eapply touches_writeTo; [exact Hp|reflexivity|reflexivity].
Qed.

Lemma confined_gzipNewReader (P : string -> Prop) (f : os.File) :
  confined id P (gzip.NewReader f).
Proof.
  unfold gzip.NewReader. apply confined_attempt. intros w0.
  destruct (os.fcontent f) as [[[|]|es c|es c]|e]; now apply touches_same.
Qed.

(** Split a computation into its operations. *)
Ltac confine :=
  repeat first
         [ apply confined_ret
         | apply confined_call
         | apply confined_Open
         | apply confined_OpenReader
         | apply confined_zipOpen
         | apply confined_gzipNewReader
         | match goal with
           | |- confined _ _ (bind _ _) =>
             apply confined_bind; [|intros ? ? ? ?]
           | |- confined _ _ (defer _ _) => apply confined_defer
           | |- confined _ _ (withLocals _ _) => apply confined_withLocals
           | |- confined _ _ (inWorld _) => apply confined_inWorld
           | |- confined _ _ (match ?x with _ => _ end) => destruct x
           end ].

(** The readers that repack opens for the content of an entry. *)
Lemma entry_reader_closer (a : archive) (f : archive_zip.File)
      (info : option fileToSign) (r : ioReadCloser) (w w' : world) :
  match info with
  | Some info =>
    let* r := os.Open (fullPath info) in
    match r with
    | inr err => ret (inr err)
    | inl r => ret (inl (os.asReadCloser r))
    end
  | None => archive_zip.Open f
  end w = (Returns (inl r), w') ->
  exists p, closer r = RFile p \/ closer r = RZipEntry p.
Proof.
  destruct info as [info|].
  - unfold bind.
    destruct (os.Open (fullPath info) w) as [[[f0|e]|e] w1];
      unfold ret; intros [= <- _]; eauto.
  - unfold archive_zip.Open, io.attempt, io.popFault.
    destruct (faults w) as [|[e|] fl]; intros [= <- _]; eauto.
Qed.

Lemma confined_repackZipEntry (P : string -> Prop) (a : archive)
      (zw : archive_zip.Writer) (f : archive_zip.File) :
  P (archive_zip.target zw) -> confined id P (repackZipEntry a zw f).
Proof.
  intros Hp. unfold repackZipEntry. apply confined_bind.
  { now apply confined_CreateHeader. }
  intros [dst|e] w w' E; [|apply confined_ret].
  assert (Hd : dst = ZipEntryWriter (archive_zip.target zw)).
  { unfold archive_zip.CreateHeader, io.attempt, io.popFault in E.
    destruct (faults w) as [|[e|] fl]; congruence. }
  subst dst. apply confined_bind; [apply confined_call|].
  intros info _ _ _. apply confined_bind; [confine|].
  intros [r|e] s s' Er; [|apply confined_ret].
  destruct (entry_reader_closer a f info r s s' Er) as (p & Hc).
  apply confined_defer.
  - apply confined_CloseDropped. now destruct Hc as [-> | ->].
  - apply confined_bind; [now apply confined_Copy|]. intros. confine.
Qed.

Lemma confined_rangeFiles {S : Type} (proj : S -> world) (P : string -> Prop)
      (f : archive_zip.File -> M S (option error))
      (files : list archive_zip.File) :
  (forall x, confined proj P (f x)) -> confined proj P (rangeFiles files f).
Proof.
  intros Hf. induction files as [|x files IH]; cbn [rangeFiles].
  - apply confined_ret.
  - apply confined_bind; [apply Hf|]. intros [e|] ? ? ?;
      [apply confined_ret|exact IH].
Qed.

Lemma confined_noteNext (P : string -> Prop) (err : option error) :
  confined id P (noteNext err).
Proof. intros w r w' [= _ <-]. now apply touches_same. Qed.

Lemma confined_eachTarGzEntry {L : Type} (P : string -> Prop)
      (f : tar.Header -> stream -> M (world * L) (option error))
      (r : archive_tar.Reader) :
  (forall h s, confined fst P (f h s)) -> confined fst P (eachTarGzEntry r f).
Proof.
  intros Hf. induction r as [e|h body rest IH]; cbn [eachTarGzEntry].
  - apply confined_bind; [apply confined_inWorld, confined_noteNext|].
    intros. destruct (errors_Is e EOF); apply confined_ret.
  - apply confined_bind; [apply confined_inWorld, confined_noteNext|].
    intros. apply confined_bind; [apply Hf|].
    intros [e|] ? ? ?; [apply confined_ret|exact IH].
Qed.

Lemma confined_openTarGz (P : string -> Prop) (a : archive) :
  confined id P (openTarGz a).
Proof.
  unfold openTarGz. apply confined_bind; [apply confined_Open|].
  intros [f|e] ? ? ?; [|apply confined_ret].
  apply confined_bind; [apply confined_gzipNewReader|].
  intros [tr|e] ? ? ?; [apply confined_ret|].
  apply confined_bind; [now apply confined_CloseDropped|].
  intros. apply confined_ret.
Qed.

Lemma confined_writeSignedArchive (P : string -> Prop) (a : archive)
      (f : os.File) :
  P (os.fname f) -> confined id P (writeSignedArchive a f).
Proof.
  intros Hp. unfold writeSignedArchive, openZip. destruct (kind a).
  - apply confined_bind; [apply confined_OpenReader|].
    intros [zr|e] ? ? ?; [|apply confined_ret].
    apply confined_defer; [now apply confined_CloseDropped|].
    apply confined_bind.
    { intros w r w' [= _ <-]. now apply touches_same. }
    intros zw w w' [= <- _]. cbn [archive_zip.target].
    apply confined_bind.
    { apply confined_rangeFiles. intros x.
      now apply confined_repackZipEntry. }
    intros. apply confined_bind; [now apply confined_closeWith|].
    intros. destruct (orElse _ _); apply confined_ret.
  - destruct (macOS a); [|apply confined_ret].
    apply confined_bind; [apply confined_openTarGz|].
    intros [[cl tr]|e] ? ? ?; [|apply confined_ret].
    apply confined_defer; [now apply confined_CloseDropped|].
    apply confined_bind.
    { intros w r w' [= _ <-]. now apply touches_same. }
    intros zw w w' [= <- _]. cbn [gzip.target].
    apply confined_bind.
    { intros w1 r w1' [= _ <-]. now apply touches_same. }
    intros tw w1 w1' [= <- _]. cbn [archive_tar.target].
    apply confined_bind.
    { apply confined_withLocals, confined_eachTarGzEntry.
      intros h body. unfold repackTarEntry. confine. }
    intros [err []] ? ? ?.
    apply confined_bind; [now apply (confined_closeWith P false (RTarWriter _))|].
    intros. cbv zeta.
    apply confined_bind; [now apply (confined_closeWith P false (RGzipWriter _))|].
    intros. destruct (orElse _ _); apply confined_ret.
Qed.

Lemma Create_fname (p : string) (w w1 : world) (f : os.File) :
  os.Create p w = (Returns (inl f), w1) -> os.fname f = Clean p.
Proof.
  unfold os.Create, io.attempt, io.popFault.
  destruct (faults w) as [|[e|] fl]; [| discriminate |];
    destruct (fs.dirExists _ (Clean p)); try discriminate;
    destruct (fs.dirExists _ (fs.parentDir (Clean p))); try discriminate;
    now intros [= <- _].
Qed.

Lemma confined_repackSignedEntries (destinationDir : string) (a : archive) :
  confined id
           (fun k => k = Clean (Join [destinationDir;
                                      path a +:+ ".withSignedContent"]))
           (repackSignedEntries destinationDir a).
Proof.
  unfold repackSignedEntries. destruct (isZip a || macOS a);
    [|apply confined_ret].
  apply confined_bind; [now apply confined_Create|].
  intros [f|e] w w1 E; [|apply confined_ret].
  apply Create_fname in E.
  apply confined_bind; [now apply confined_writeSignedArchive|].
  intros. apply confined_bind; [now apply confined_closeWith|].
  intros. destruct (orElse _ _); apply confined_ret.
Qed.

(** C4, as amended. A zip or macOS archive is repacked in place: the new
    archive is created at the destination path itself,
    [Join(destinationDir, path + ".withSignedContent")]. Once the file has
    been created, whatever fails afterwards, repack returns the first
    error as it occurred (no [RepackFailed] wraps it) and the file,
    complete or not, is left at the destination path. Repack makes no
    directory, and every other path holds afterwards what it held before:
    no temporary file is written, and nothing is renamed or removed. *)
Theorem repack_writes_at_destination
        (destinationDir : string) (a : archive) (w w1 : world) (f : os.File) :
  isZip a || macOS a = true ->
  os.Create (Join [destinationDir; path a +:+ ".withSignedContent"]) w
  = (Returns (inl f), w1) ->
  exists (err : option error) (w' : world) (evs : list event),
    repackSignedEntries destinationDir a w = (Returns err, w')
    /\ trace w' = (trace w ++ evs)%list
    /\ err = firstError evs
    /\ is_Some (files w'
                !! Clean (Join [destinationDir; path a +:+ ".withSignedContent"]))
    /\ dirs w' = dirs w
    /\ forall k : string,
        k <> Clean (Join [destinationDir; path a +:+ ".withSignedContent"]) ->
        files w' !! k = files w !! k.
Proof.
  intros Hk Hc.
  destruct (repackSignedEntries_reports destinationDir a w)
    as (err & w' & evs & E & T & F & K & L).
  exists err, w', evs.
  destruct (confined_repackSignedEntries destinationDir a w _ _ E) as [D O].
  repeat split; auto.
  destruct (Create_creates _ _ _ _ Hc) as [Hn Hf].
  unfold repackSignedEntries in E. rewrite Hk in E. unfold bind in E.
  rewrite Hc in E. cbv beta iota in E.
  destruct (writeSignedArchive_reports a f w1)
    as (err1 & w2 & evs1 & E1 & _ & _ & K1 & _).
  rewrite E1 in E. cbv beta iota in E.
  destruct (Close_spec (RFile (os.fname f)) w2) as (r & w3 & E2 & _ & K2 & _).
  rewrite E2 in E. cbv beta iota in E.
  assert (Hw : w' = w3).
  { destruct (orElse err1 r); unfold ret in E; congruence. }
  subst w'. apply K2, K1, Hf.
Qed.

(** The sample Windows archive is repacked at its destination; the copy of
    the second entry fails. *)
Lemma repack_writes_at_destination_witness :
  exists (err : option error) (w' : world) (evs : list event),
    repackSignedEntries "" samples.windowsZip
      (samples.signedDisk (repeat None 8 ++ [Some (IOError "disk full")]))
    = (Returns err, w')
    /\ trace w' = ([] ++ evs)%list
    /\ err = firstError evs
    /\ is_Some (files w' !! "go1.zip.withSignedContent")
    /\ dirs w' = {[ "go1.zip.extracted" ]}
    /\ forall k : string,
        k <> "go1.zip.withSignedContent" ->
        files w' !! k
        = files (samples.signedDisk
                   (repeat None 8 ++ [Some (IOError "disk full")])) !! k.
Proof.
  exact (repack_writes_at_destination
           "" samples.windowsZip
           (samples.signedDisk (repeat None 8 ++ [Some (IOError "disk full")]))
           _ _ eq_refl eq_refl).
Defined.

(** The copy of the second entry fails: repack returns the error, and the
    archive left at the destination path lacks the content of that entry
    (the zip writer is closed all the same, so the file has its central
    directory). *)
Lemma failed_repack_leaves_truncated_archive :
  let run :=
    repackSignedEntries "" samples.windowsZip
      (samples.signedDisk (repeat None 8 ++ [Some (IOError "disk full")])) in
  fst run = Returns (Some (IOError "disk full"))
  /\ files (snd run) !! "go1.zip.withSignedContent"
     = Some (ZipData [(samples.zipHeader "a.exe", Raw "MZ signed");
                      (samples.zipHeader "b.txt", Raw "")] true).
Proof. vm_compute. split; reflexivity. Qed.
(** ** Runs without faults *)

Lemma attempt_nofault {A : Type} (o : op) (sem : world -> (A + error) * world)
      (w : world) :
  faults w = [] ->
  io.attempt o sem w
  = (Returns (fst (sem w)), fs.log (o, errOf (fst (sem w))) (snd (sem w))).
Proof.
  intros Hf. unfold io.attempt, io.popFault. rewrite Hf.
  destruct (sem w); reflexivity.
Qed.

Lemma creatable_dirs (w w' : world) (k : string) :
  dirs w' = dirs w -> creatable w' k = creatable w k.
Proof. intros E. unfold creatable, fs.dirExists. now rewrite E. Qed.

Lemma Create_ok (p : string) (w : world) :
  faults w = [] -> creatable w (Clean p) = true ->
  exists w',
    os.Create p w = (Returns (inl (os.mkFile (Clean p) (Content (Raw "")))), w')
    /\ quiet w w' (<[Clean p := Raw ""]> (files w)) (RFile (Clean p) :: live w).
Proof.
  intros Hf Hc. unfold os.Create. rewrite attempt_nofault by exact Hf.
  unfold creatable in Hc. apply andb_prop in Hc as [H1 H2].
  apply negb_true_iff in H1. cbv zeta. rewrite H1, H2. cbn [fst snd].
  eexists. split; [reflexivity|]. repeat split; cbn; auto.
Qed.

Lemma Create_no (p : string) (w : world) :
  faults w = [] -> creatable w (Clean p) = false ->
  exists e w', os.Create p w = (Returns (inr e), w').
Proof.
  intros Hf Hc. unfold os.Create. rewrite attempt_nofault by exact Hf.
  unfold creatable in Hc. cbv zeta.
  destruct (fs.dirExists w (Clean p)); cbn [fst snd]; [eauto|].
  cbn [negb andb] in Hc. rewrite Hc. cbn [fst snd]. eauto.
Qed.

Lemma Copy_file_ok (p : string) (d : fdata) (w : world) :
  faults w = [] ->
  exists w',
    io.Copy (FileWriter p) (Content d) w = (Returns None, w')
    /\ quiet w w' (<[p := d]> (files w)) (live w).
Proof.
  intros Hf. unfold io.Copy, bind. rewrite attempt_nofault by exact Hf.
  cbn [fst snd errOf]. eexists. split; [reflexivity|]. repeat split; cbn; auto.
Qed.


Lemma closeWith_ok (dropped : bool) (r : resource) (w : world) :
  faults w = [] ->
  exists w',
    io.closeWith dropped r w = (Returns None, w')
    /\ quiet w w' (files (io.closeEffect r w)) (fs.releaseFrom r (live w)).
Proof.
  intros Hf. unfold io.closeWith, io.popFault. rewrite Hf.
  eexists. split; [reflexivity|].
  destruct r; repeat split; cbn; auto.
Qed.

Lemma Close_ok (r : resource) (w : world) :
  faults w = [] ->
  exists w',
    io.Close r w = (Returns None, w')
    /\ quiet w w' (files (io.closeEffect r w)) (fs.releaseFrom r (live w)).
Proof. apply closeWith_ok. Qed.

Lemma CloseDropped_ok (r : resource) (w : world) :
  faults w = [] ->
  exists w',
    io.CloseDropped r w = (Returns tt, w')
    /\ quiet w w' (files (io.closeEffect r w)) (fs.releaseFrom r (live w)).
Proof.
  intros Hf. destruct (closeWith_ok true r w Hf) as (w' & E & Q).
  exists w'. split; [|exact Q]. unfold io.CloseDropped, bind. now rewrite E.
Qed.


Lemma OpenReader_ok (p : string) (es : list (zip.FileHeader * fdata))
      (w : world) :
  faults w = [] -> files w !! Clean p = Some (ZipData es true) ->
  exists w',
    archive_zip.OpenReader p w
    = (Returns (inl (archive_zip.mkReadCloser (zipFiles es) (Clean p))), w')
    /\ quiet w w' (files w) (RZipReader (Clean p) :: live w).
Proof.
  intros Hf Hd. unfold archive_zip.OpenReader.
  rewrite attempt_nofault by exact Hf.
  cbv zeta. rewrite Hd. cbn [fst snd].
  eexists. split; [reflexivity|]. repeat split; cbn; auto.
Qed.

Lemma OpenReader_no (p : string) (w : world) :
  faults w = [] ->
  (forall es, files w !! Clean p <> Some (ZipData es true)) ->
  exists e w', archive_zip.OpenReader p w = (Returns (inr e), w').
Proof.
  intros Hf Hd. unfold archive_zip.OpenReader.
  rewrite attempt_nofault by exact Hf. cbv zeta.
  destruct (files w !! Clean p) as [[b|es [|]|es c]|]; cbn [fst snd]; eauto.
  - now destruct (Hd es).
  - destruct (fs.dirExists w (Clean p)); cbn [fst snd]; eauto.
Qed.

Lemma zipOpen_ok (f : archive_zip.File) (w : world) :
  faults w = [] ->
  exists w',
    archive_zip.Open f w
    = (Returns (inl (mkIoReadCloser (RZipEntry (archive_zip.Name f))
                                    (Content (archive_zip.content f)))), w')
    /\ quiet w w' (files w) (RZipEntry (archive_zip.Name f) :: live w).
Proof.
  intros Hf. unfold archive_zip.Open. rewrite attempt_nofault by exact Hf.
  cbn [fst snd]. eexists. split; [reflexivity|]. repeat split; cbn; auto.
Qed.


Lemma MkdirAll_ok (p : string) (w : world) :
  faults w = [] -> find (fs.isFile w) (fs.ancestors (Clean p)) = None ->
  exists w',
    os.MkdirAll p w = (Returns None, w')
    /\ faults w' = []
    /\ dirs w' = list_to_set (fs.ancestors (Clean p)) ∪ dirs w
    /\ files w' = files w
    /\ live w' = live w.
Proof.
  intros Hf Hd. unfold os.MkdirAll, bind. rewrite attempt_nofault by exact Hf.
  cbv zeta. rewrite Hd. cbn [fst snd errOf].
  eexists. split; [reflexivity|]. repeat split; cbn; auto.
Qed.

Lemma MkdirAll_no (p : string) (w : world) (x : string) :
  faults w = [] -> find (fs.isFile w) (fs.ancestors (Clean p)) = Some x ->
  exists e w', os.MkdirAll p w = (Returns (Some e), w').
Proof.
  intros Hf Hd. unfold os.MkdirAll, bind. rewrite attempt_nofault by exact Hf.
  cbv zeta. rewrite Hd. cbn [fst snd errOf]. eauto.
Qed.

(** Run the next operation of the goal, which succeeds. *)
Ltac run lemma :=
  let w' := fresh "w" in
  let E := fresh "E" in
  let Qf := fresh "Qf" in
  let Qd := fresh "Qd" in
  let Qm := fresh "Qm" in
  let Ql := fresh "Ql" in
  destruct lemma as (w' & E & Qf & Qd & Qm & Ql);
  [try assumption..|];
  rewrite E; cbv beta iota zeta; cbn [fst snd].

Lemma writeFile_ok (p : string) (d : fdata) (w : world) :
  faults w = [] -> creatable w (Clean p) = true ->
  exists w',
    writeFile p (Content d) w = (Returns None, w')
    /\ quiet w w' (<[Clean p := d]> (files w)) (live w).
Proof.
  intros Hf Hc. unfold writeFile, bind.
  run (Create_ok p w). cbn [os.fname].
  run (Copy_file_ok (Clean p) d w0).
  run (Close_ok (RFile (Clean p)) w1).
  unfold ret. eexists. split; [reflexivity|].
  repeat split; auto; try congruence.
  - cbn [io.closeEffect] in Qm1. rewrite Qm1, Qm0, Qm.
    apply insert_insert_eq.
  - rewrite Ql1, Ql0, Ql. apply releaseFrom_head.
Qed.

Lemma writeFile_no (p : string) (r : stream) (w : world) :
  faults w = [] -> creatable w (Clean p) = false ->
  exists e w', writeFile p r w = (Returns (Some e), w').
Proof.
  intros Hf Hc. unfold writeFile, bind.
  destruct (Create_no p w Hf Hc) as (e & w' & E). rewrite E.
  unfold ret. eauto.
Qed.

(** ** Extraction without faults *)

Lemma stageable_dirs {H : Type} (sel : H -> option fileToSign)
      (key : H -> fileToSign -> string) (w w' : world) (es : list (H * fdata)) :
  dirs w' = dirs w -> stageable sel key w' es = stageable sel key w es.
Proof.
  intros E. induction es as [|[h d] es IH]; [reflexivity|].
  cbn [stageable]. rewrite IH. destruct (sel h); [|reflexivity].
  now rewrite (creatable_dirs w w').
Qed.

Lemma writeFileAndCloseReader_ok (p name : string) (d : fdata) (w : world)
      (l : list resource) :
  faults w = [] -> creatable w (Clean p) = true ->
  live w = RZipEntry name :: l ->
  exists w',
    writeFileAndCloseReader p (mkIoReadCloser (RZipEntry name) (Content d)) w
    = (Returns None, w')
    /\ quiet w w' (<[Clean p := d]> (files w)) l.
Proof.
  intros Hf Hc Hl. unfold writeFileAndCloseReader, bind. cbn [reads closer].
  run (writeFile_ok p d w).
  run (Close_ok (RZipEntry name) w0).
  cbn [io.closeEffect] in Qm0.
  unfold ret. eexists. split; [reflexivity|].
  split; [assumption|]. split; [congruence|]. split; [congruence|].
  rewrite Ql0, Ql, Hl. apply releaseFrom_head.
Qed.

Lemma writeFileAndCloseReader_no (p : string) (r : ioReadCloser) (w : world) :
  faults w = [] -> creatable w (Clean p) = false ->
  exists e w', writeFileAndCloseReader p r w = (Returns (Some e), w').
Proof.
  intros Hf Hc. unfold writeFileAndCloseReader, bind.
  destruct (writeFile_no p (reads r) w Hf Hc) as (e & w1 & E). rewrite E.
  destruct (Close_spec (closer r) w1) as (e2 & w2 & E2 & _). rewrite E2.
  unfold ret. cbn [orElse]. eauto.
Qed.

Lemma stageZipEntries_cons (a : archive) (h : zip.FileHeader) (d : fdata)
      (es : list (zip.FileHeader * fdata)) (results : list fileToSign)
      (w : world) :
  stageZipEntries a (zipFiles ((h, d) :: es)) results w
  = match zipSel a h with
    | Some info =>
      (let* fReader := archive_zip.Open (archive_zip.mkFile h d) in
       match fReader with
       | inr err => ret (fail a err)
       | inl fReader =>
         let* err := writeFileAndCloseReader (fullPath info) fReader in
         match err with
         | Some err => ret (fail a err)
         | None => stageZipEntries a (zipFiles es) (results ++ [info])%list
         end
       end) w
    | None => stageZipEntries a (zipFiles es) results w
    end.
Proof.
  cbn [zipFiles map stageZipEntries fst snd]. unfold bind at 1.
  rewrite call_entrySignInfo. cbv beta iota.
  change (archive_zip.Name (archive_zip.mkFile h d)) with (zip.Name h).
  change (selected a (zip.Name h)) with (zipSel a h).
  destruct (zipSel a h); reflexivity.
Qed.

Lemma stageZipEntries_step (a : archive) (h : zip.FileHeader) (d : fdata)
      (es : list (zip.FileHeader * fdata)) (info : fileToSign) (w : world) :
  faults w = [] -> zipSel a h = Some info ->
  creatable w (zipKey h info) = true ->
  exists w1,
    quiet w w1 (<[zipKey h info := d]> (files w)) (live w)
    /\ forall results,
        stageZipEntries a (zipFiles ((h, d) :: es)) results w
        = stageZipEntries a (zipFiles es) (results ++ [info])%list w1.
Proof.
  intros Hf Hs Hc. unfold zipKey in *.
  destruct (zipOpen_ok (archive_zip.mkFile h d) w Hf)
    as (w0 & E & Qf & Qd & Qm & Ql).
  change (archive_zip.Name (archive_zip.mkFile h d)) with (zip.Name h) in *.
  cbn [archive_zip.content] in E.
  assert (Hc0 : creatable w0 (Clean (fullPath info)) = true)
    by (now rewrite (creatable_dirs w w0)).
  destruct (writeFileAndCloseReader_ok (fullPath info) (zip.Name h) d w0 (live w)
                                       Qf Hc0 Ql)
    as (w1 & E1 & Qf1 & Qd1 & Qm1 & Ql1).
  exists w1. split; [repeat split; congruence|].
  intros results. rewrite stageZipEntries_cons, Hs. unfold bind.
  rewrite E. cbv beta iota. now rewrite E1.
Qed.

Lemma stageZipEntries_stuck (a : archive) (h : zip.FileHeader) (d : fdata)
      (es : list (zip.FileHeader * fdata)) (info : fileToSign)
      (results : list fileToSign) (w : world) :
  faults w = [] -> zipSel a h = Some info ->
  creatable w (zipKey h info) = false ->
  exists e w',
    stageZipEntries a (zipFiles ((h, d) :: es)) results w = (Returns (inr e), w').
Proof.
  intros Hf Hs Hc. unfold zipKey in *.
  destruct (zipOpen_ok (archive_zip.mkFile h d) w Hf)
    as (w0 & E & Qf & Qd & Qm & Ql).
  assert (Hc0 : creatable w0 (Clean (fullPath info)) = false)
    by (now rewrite (creatable_dirs w w0)).
  destruct (writeFileAndCloseReader_no
              (fullPath info)
              (mkIoReadCloser (RZipEntry (archive_zip.Name (archive_zip.mkFile h d)))
                              (Content (archive_zip.content (archive_zip.mkFile h d))))
              w0 Qf Hc0)
    as (e & w1 & E1).
  rewrite stageZipEntries_cons, Hs. unfold bind.
  rewrite E. cbv beta iota. rewrite E1. unfold ret, fail. eauto.
Qed.

Lemma stageZipEntries_run (a : archive) (es : list (zip.FileHeader * fdata)) :
  forall (results : list fileToSign) (w : world),
    faults w = [] ->
    if stageable (zipSel a) zipKey w es then
      exists w',
        stageZipEntries a (zipFiles es) results w
        = (Returns (inl (results ++ requestsOf (zipSel a) es)%list), w')
        /\ quiet w w' (writesOf (zipSel a) zipKey es (files w)) (live w)
    else
      exists e w',
        stageZipEntries a (zipFiles es) results w = (Returns (inr e), w').
Proof.
  induction es as [|[h d] es IH]; intros results w Hf.
  - cbn. unfold ret. exists w. rewrite app_nil_r. repeat split; auto.
  - cbn [stageable requestsOf writesOf].
    destruct (zipSel a h) as [info|] eqn:Hs.
    2:{ rewrite stageZipEntries_cons, Hs. apply IH, Hf. }
    destruct (creatable w (zipKey h info)) eqn:Hc; cbn [andb].
    + destruct (stageZipEntries_step a h d es info w Hf Hs Hc)
        as (w1 & (Qf & Qd & Qm & Ql) & Hstep).
      specialize (IH (results ++ [info])%list w1 Qf).
      rewrite (stageable_dirs _ _ w w1) in IH by congruence.
      rewrite Hstep.
      destruct (stageable (zipSel a) zipKey w es); [|exact IH].
      destruct IH as (w' & E' & Qf' & Qd' & Qm' & Ql').
      exists w'. split.
      { rewrite E'. now rewrite <- app_assoc. }
      repeat split; congruence.
    + eapply stageZipEntries_stuck; eassumption.
Qed.

Lemma stageTarEntry_run (a : archive) (h : tar.Header) (d : fdata)
      (results : list fileToSign) (w : world) :
  stageTarEntry a h (Content d) (w, results)
  = match tarSel a h with
    | Some info =>
      match writeFile (Join [fullPath info; tar.Name h]) (Content d) w with
      | (Returns (Some err), w') => (Returns (Some err), (w', results))
      | (Returns None, w') => (Returns None, (w', (results ++ [info])%list))
      | (Panics e, w') => (Panics e, (w', results))
      end
    | None => (Returns None, (w, results))
    end.
Proof.
  unfold stageTarEntry, bind. rewrite call_entrySignInfo. cbv beta iota.
  change (selected a (tar.Name h)) with (tarSel a h).
  destruct (tarSel a h) as [info|]; [|reflexivity].
  unfold inWorld.
  destruct (writeFile (Join [fullPath info; tar.Name h]) (Content d) w)
    as [[[err|]|e] w']; reflexivity.
Qed.

Lemma eachTarGzEntry_cons {L : Type}
      (f : tar.Header -> stream -> M (world * L) (option error))
      (h : tar.Header) (d : fdata) (rest : archive_tar.Reader)
      (w : world) (l : L) :
  eachTarGzEntry (archive_tar.AtEntry h d rest) f (w, l)
  = match f h (Content d) (fs.log (OpTarNext, None) w, l) with
    | (Returns (Some err), s) => (Returns (Some err), s)
    | (Returns None, s) => eachTarGzEntry rest f s
    | (Panics e, s) => (Panics e, s)
    end.
Proof.
  cbn [eachTarGzEntry]. unfold bind, inWorld, noteNext.
  destruct (f h (Content d) (fs.log (OpTarNext, None) w, l))
    as [[[err|]|e] s]; reflexivity.
Qed.

Lemma stageTarEntries_run (a : archive) (e : error)
      (es : list (tar.Header * fdata)) :
  forall (results : list fileToSign) (w : world),
    faults w = [] ->
    if stageable (tarSel a) tarKey w es then
      exists w',
        eachTarGzEntry (archive_tar.readerOf es e) (stageTarEntry a) (w, results)
        = (Returns (if errors_Is e EOF then None else Some e),
           (w', (results ++ requestsOf (tarSel a) es)%list))
        /\ quiet w w' (writesOf (tarSel a) tarKey es (files w)) (live w)
    else
      exists err st,
        eachTarGzEntry (archive_tar.readerOf es e) (stageTarEntry a) (w, results)
        = (Returns (Some err), st).
Proof.
  induction es as [|[h d] es IH]; intros results w Hf.
  - cbn [stageable archive_tar.readerOf eachTarGzEntry requestsOf writesOf].
    unfold bind, inWorld, noteNext, ret. rewrite app_nil_r.
    exists (fs.log (OpTarNext, Some e) w). split.
    + destruct (errors_Is e EOF); reflexivity.
    + repeat split; auto.
  - cbn [stageable archive_tar.readerOf requestsOf writesOf].
    rewrite eachTarGzEntry_cons, stageTarEntry_run.
    assert (Hf0 : faults (fs.log (OpTarNext, None) w) = []) by exact Hf.
    destruct (tarSel a h) as [info|] eqn:Hs.
    2:{ specialize (IH results _ Hf0).
        rewrite (stageable_dirs _ _ w) in IH by reflexivity.
        destruct (stageable (tarSel a) tarKey w es); exact IH. }
    destruct (creatable w (tarKey h info)) eqn:Hc; cbn [andb].
    + assert (Hc0 : creatable (fs.log (OpTarNext, None) w)
                              (Clean (Join [fullPath info; tar.Name h])) = true)
        by exact Hc.
      destruct (writeFile_ok _ d _ Hf0 Hc0) as (w1 & E & Qf & Qd & Qm & Ql).
      rewrite E. specialize (IH (results ++ [info])%list w1 Qf).
      rewrite (stageable_dirs _ _ w w1) in IH by exact Qd.
      destruct (stageable (tarSel a) tarKey w es); [|exact IH].
      destruct IH as (w' & E' & Qf' & Qd' & Qm' & Ql').
      exists w'. split.
      { rewrite E'. now rewrite <- app_assoc. }
      cbn [files fs.log dirs live] in *.
      unfold quiet, tarKey in *. repeat split; congruence.
    + assert (Hc0 : creatable (fs.log (OpTarNext, None) w)
                              (Clean (Join [fullPath info; tar.Name h])) = false)
        by exact Hc.
      destruct (writeFile_no _ (Content d) _ Hf0 Hc0) as (err & w1 & E).
      rewrite E. eauto.
Qed.

(** The whole of extraction, by kind of archive. *)

Lemma find_none_all {A : Type} (f : A -> bool) (l : list A) :
  (forall x, In x l -> f x = false) -> find f l = None.
Proof.
  induction l as [|x l IH]; intros H; [reflexivity|]. cbn [find].
  rewrite (H x) by (left; reflexivity). apply IH. intros y Hy. apply H. now right.
Qed.

Lemma prepare_zip_unfold (a : archive) (w : world) :
  kind a = zipArchive ->
  prepareEntriesToSign a w
  = match os.MkdirAll (entryExtractDir a) w with
    | (Returns (Some err), w0) => (Returns (inr err), w0)
    | (Returns None, w0) =>
      match archive_zip.OpenReader (path a) w0 with
      | (Returns (inl zr), w1) =>
        let '(r, w2) := stageZipEntries a (archive_zip.Files zr) [] w1 in
        (r, snd (io.CloseDropped (RZipReader (archive_zip.source zr)) w2))
      | (Returns (inr err), w1) => (Returns (fail a err), w1)
      | (Panics e, w1) => (Panics e, w1)
      end
    | (Panics e, w0) => (Panics e, w0)
    end.
Proof.
  intros Hk. unfold prepareEntriesToSign. rewrite Hk. unfold bind.
  destruct (os.MkdirAll (entryExtractDir a) w) as [[[err|]|e] w0]; try reflexivity.
  destruct (archive_zip.OpenReader (path a) w0) as [[[zr|err]|e] w1];
    reflexivity.
Qed.

(** Extraction of a zip archive succeeds exactly when the staging
    directories can be made, the archive is a complete zip file and every
    selected entry can be created; it then returns the requests of the
    selected entries and has written their contents. *)
Lemma prepare_zip_run (a : archive) (w : world) :
  kind a = zipArchive -> faults w = [] ->
  match find (fs.isFile w) (stagingDirs a), files w !! Clean (path a) with
  | None, Some (ZipData es true) =>
    if stageable (zipSel a) zipKey (withStagingDirs a w) es then
      exists w',
        prepareEntriesToSign a w = (Returns (inl (requestsOf (zipSel a) es)), w')
        /\ quiet (withStagingDirs a w) w'
                 (writesOf (zipSel a) zipKey es (files w)) (live w)
    else exists e w', prepareEntriesToSign a w = (Returns (inr e), w')
  | _, _ => exists e w', prepareEntriesToSign a w = (Returns (inr e), w')
  end.
Proof.
  intros Hk Hf. rewrite (prepare_zip_unfold a w Hk). unfold stagingDirs.
  destruct (find (fs.isFile w) (fs.ancestors (Clean (entryExtractDir a))))
    as [x|] eqn:Hfind.
  { destruct (MkdirAll_no _ _ _ Hf Hfind) as (e & w' & E). rewrite E.
    destruct (files w !! Clean (path a)) as [[b|es [|]|es c]|]; eauto. }
  destruct (MkdirAll_ok _ _ Hf Hfind) as (w0 & E & Qf & Qd & Qm & Ql).
  rewrite E.
  assert (Hno : (forall es, files w !! Clean (path a) <> Some (ZipData es true)) ->
                exists e w',
                  (match archive_zip.OpenReader (path a) w0 with
                   | (Returns (inl zr), w1) =>
                     let '(r, w2) :=
                       stageZipEntries a (archive_zip.Files zr) [] w1 in
                     (r, snd (io.CloseDropped
                                (RZipReader (archive_zip.source zr)) w2))
                   | (Returns (inr err), w1) => (Returns (fail a err), w1)
                   | (Panics e, w1) => (Panics e, w1)
                   end) = (Returns (inr e), w')).
  { intros Hd. destruct (OpenReader_no (path a) w0 Qf) as (e & w' & E0).
    { now rewrite Qm. }
    rewrite E0. unfold fail. eauto. }
  destruct (files w !! Clean (path a)) as [[b|es [|]|es c]|] eqn:Hd;
    try (apply Hno; intros; congruence).
  clear Hno.
  assert (Hd0 : files w0 !! Clean (path a) = Some (ZipData es true))
    by (now rewrite Qm).
  destruct (OpenReader_ok (path a) es w0 Qf Hd0)
    as (w1 & E1 & Qf1 & Qd1 & Qm1 & Ql1).
  rewrite E1. cbn [archive_zip.source archive_zip.Files].
  pose proof (stageZipEntries_run a es [] w1 Qf1) as Hrun.
  rewrite (stageable_dirs _ _ (withStagingDirs a w) w1) in Hrun
    by (unfold withStagingDirs, stagingDirs; cbn [dirs fs.setDirs]; congruence).
  destruct (stageable (zipSel a) zipKey (withStagingDirs a w) es).
  - destruct Hrun as (w2 & E2 & Qf2 & Qd2 & Qm2 & Ql2). rewrite E2.
    destruct (CloseDropped_ok (RZipReader (Clean (path a))) w2 Qf2)
      as (w3 & E3 & Qf3 & Qd3 & Qm3 & Ql3).
    rewrite E3. cbn [snd]. exists w3. split; [reflexivity|].
    cbn [io.closeEffect] in Qm3. unfold quiet, withStagingDirs, stagingDirs.
    cbn [dirs fs.setDirs].
    split; [assumption|]. split; [congruence|]. split; [congruence|].
    rewrite Ql3, Ql2, Ql1, releaseFrom_head. congruence.
  - destruct Hrun as (e & w2 & E2). rewrite E2. eauto.
Qed.

Lemma prepare_tar_unfold (a : archive) (w : world) :
  kind a = tarGzArchive -> macOS a = true ->
  prepareEntriesToSign a w
  = match os.MkdirAll (entryExtractDir a) w with
    | (Returns (Some err), w0) => (Returns (inr err), w0)
    | (Returns None, w0) =>
      match os.Open (path a) w0 with
      | (Returns (inl f), w1) =>
        let '(r, w2) :=
          match gzip.NewReader f w1 with
          | (Returns (inl tr), w3) =>
            match eachTarGzEntry tr (stageTarEntry a) (w3, []) with
            | (Returns (Some err), (w4, _)) => (Returns (fail a err), w4)
            | (Returns None, (w4, results)) => (Returns (inl results), w4)
            | (Panics e, (w4, _)) => (Panics e, w4)
            end
          | (Returns (inr err), w3) => (Returns (fail a err), w3)
          | (Panics e, w3) => (Panics e, w3)
          end in
        (r, snd (io.CloseDropped (RFile (os.fname f)) w2))
      | (Returns (inr err), w1) => (Returns (fail a err), w1)
      | (Panics e, w1) => (Panics e, w1)
      end
    | (Panics e, w0) => (Panics e, w0)
    end.
Proof.
  intros Hk Hm. unfold prepareEntriesToSign. rewrite Hk, Hm. unfold bind.
  destruct (os.MkdirAll (entryExtractDir a) w) as [[[err|]|e] w0]; try reflexivity.
  destruct (os.Open (path a) w0) as [[[f|err]|e] w1]; try reflexivity.
  unfold defer, withLocals.
  destruct (gzip.NewReader f w1) as [[[tr|err]|e] w3]; try reflexivity.
  destruct (eachTarGzEntry tr (stageTarEntry a) (w3, []))
    as [[[err|]|e] [w4 results]]; reflexivity.
Qed.

Lemma gzipNewReader_nofault (f : os.File) (w : world) :
  faults w = [] ->
  exists w',
    gzip.NewReader f w
    = (Returns match os.fcontent f with
               | Content (TarGzData es c) =>
                 inl (archive_tar.readerOf es (if c then EOF else ErrUnexpectedEOF))
               | Content (Raw EmptyString) => inr EOF
               | Content _ => inr ErrHeader
               | Unreadable e => inr e
               end, w')
    /\ quiet w w' (files w) (live w).
Proof.
  intros Hf. unfold gzip.NewReader. rewrite attempt_nofault by exact Hf.
  destruct (os.fcontent f) as [[[|]|es c|es c]|e];
    (eexists; split; [reflexivity | repeat split; auto]).
Qed.

Lemma Open_nofault (p : string) (w : world) :
  faults w = [] ->
  exists r w',
    os.Open p w = (Returns r, w')
    /\ match r with
       | inl f =>
         f = os.mkFile (Clean p)
                       match files w !! Clean p with
                       | Some d => Content d
                       | None => Unreadable (ErrIsDir (Clean p))
                       end
         /\ quiet w w' (files w) (RFile (Clean p) :: live w)
       | inr _ => files w !! Clean p = None
       end.
Proof.
  intros Hf. unfold os.Open. rewrite attempt_nofault by exact Hf. cbv zeta.
  destruct (files w !! Clean p) as [d|]; cbn [fst snd].
  - eexists _, _. split; [reflexivity|]. repeat split; auto.
  - destruct (fs.dirExists w (Clean p)); cbn [fst snd];
      eexists _, _; (split; [reflexivity|]); repeat split; auto.
Qed.

(** Extraction of a macOS tar.gz archive succeeds exactly when the
    staging directories can be made, the archive is a complete tar.gz file
    and every selected entry can be created at the path it is written to. *)
Lemma prepare_tar_run (a : archive) (w : world) :
  kind a = tarGzArchive -> macOS a = true -> faults w = [] ->
  match find (fs.isFile w) (stagingDirs a), files w !! Clean (path a) with
  | None, Some (TarGzData es true) =>
    if stageable (tarSel a) tarKey (withStagingDirs a w) es then
      exists w',
        prepareEntriesToSign a w = (Returns (inl (requestsOf (tarSel a) es)), w')
        /\ quiet (withStagingDirs a w) w'
                 (writesOf (tarSel a) tarKey es (files w)) (live w)
    else exists e w', prepareEntriesToSign a w = (Returns (inr e), w')
  | _, _ => exists e w', prepareEntriesToSign a w = (Returns (inr e), w')
  end.
Proof.
  intros Hk Hm Hf. rewrite (prepare_tar_unfold a w Hk Hm). unfold stagingDirs.
  destruct (find (fs.isFile w) (fs.ancestors (Clean (entryExtractDir a))))
    as [x|] eqn:Hfind.
  { destruct (MkdirAll_no _ _ _ Hf Hfind) as (e & w' & E). rewrite E.
    destruct (files w !! Clean (path a)) as [[b|es c|es [|]]|]; eauto. }
  destruct (MkdirAll_ok _ _ Hf Hfind) as (w0 & E & Qf & Qd & Qm & Ql).
  rewrite E.
  destruct (Open_nofault (path a) w0 Qf) as (r & w1 & E1 & Hr). rewrite E1.
  destruct r as [f|err].
  2:{ rewrite Qm in Hr. rewrite Hr. unfold fail. eauto. }
  destruct Hr as (-> & Qf1 & Qd1 & Qm1 & Ql1). cbn [os.fname].
  destruct (gzipNewReader_nofault
              (os.mkFile (Clean (path a))
                         match files w0 !! Clean (path a) with
                         | Some d => Content d
                         | None => Unreadable (ErrIsDir (Clean (path a)))
                         end) w1 Qf1)
    as (w2 & E2 & Qf2 & Qd2 & Qm2 & Ql2).
  rewrite E2. cbn [os.fcontent]. rewrite Qm.
  destruct (files w !! Clean (path a)) as [[b|es c|es c]|] eqn:Hd;
    try (destruct b; unfold fail; eauto; fail);
    try (unfold fail; eauto; fail).
  pose proof (stageTarEntries_run a (if c then EOF else ErrUnexpectedEOF)
                                  es [] w2 Qf2) as Hrun.
  rewrite (stageable_dirs _ _ (withStagingDirs a w) w2) in Hrun
    by (unfold withStagingDirs, stagingDirs; cbn [dirs fs.setDirs]; congruence).
  destruct (stageable (tarSel a) tarKey (withStagingDirs a w) es).
  - destruct Hrun as (w3 & E3 & Qf3 & Qd3 & Qm3 & Ql3). rewrite E3.
    destruct c; cbn [errors_Is]; [|unfold fail; destruct es; eauto].
    rewrite decide_True by reflexivity.
    destruct (CloseDropped_ok (RFile (Clean (path a))) w3 Qf3)
      as (w4 & E4 & Qf4 & Qd4 & Qm4 & Ql4).
    rewrite E4. cbn [snd]. exists w4. split; [reflexivity|].
    cbn [io.closeEffect] in Qm4. unfold quiet, withStagingDirs, stagingDirs.
    cbn [dirs fs.setDirs].
    split; [assumption|]. split; [congruence|]. split; [congruence|].
    rewrite Ql4, Ql3, Ql2, Ql1, releaseFrom_head. congruence.
  - destruct Hrun as (e & [w3 l3] & E3). rewrite E3. unfold fail.
    destruct c; eauto.
Qed.

(** Extraction of a tar.gz archive that is not macOS only makes the
    staging directories. *)
Lemma prepare_other_run (a : archive) (w : world) :
  kind a = tarGzArchive -> macOS a = false -> faults w = [] ->
  match find (fs.isFile w) (stagingDirs a) with
  | None =>
    exists w',
      prepareEntriesToSign a w = (Returns (inl []), w')
      /\ quiet (withStagingDirs a w) w' (files w) (live w)
  | Some _ => exists e w', prepareEntriesToSign a w = (Returns (inr e), w')
  end.
Proof.
  intros Hk Hm Hf. unfold prepareEntriesToSign, bind. rewrite Hk, Hm.
  unfold stagingDirs.
  destruct (find (fs.isFile w) (fs.ancestors (Clean (entryExtractDir a))))
    as [x|] eqn:Hfind.
  - destruct (MkdirAll_no _ _ _ Hf Hfind) as (e & w' & E). rewrite E.
    unfold ret. eauto.
  - destruct (MkdirAll_ok _ _ Hf Hfind) as (w0 & E & Qf & Qd & Qm & Ql).
    rewrite E. unfold ret. exists w0. split; [reflexivity|].
    unfold quiet, withStagingDirs, stagingDirs. cbn [dirs fs.setDirs]. auto.
Qed.

(** ** Extraction twice *)

Section Writes.

Context {H : Type}.
Variable sel : H -> option fileToSign.
Variable key : H -> fileToSign -> string.

Lemma writesOf_union (es : list (H * fdata)) :
  forall m : gmap string fdata,
    writesOf sel key es m = writesOf sel key es ∅ ∪ m.
Proof.
  induction es as [|[h d] es IH]; intros m; cbn [writesOf].
  - now rewrite (left_id_L ∅ (∪)).
  - destruct (sel h) as [info|]; [|apply IH].
    rewrite (IH (<[key h info := d]> m)), (IH (<[key h info := d]> ∅)).
    rewrite <- (assoc_L (∪)). f_equal.
    rewrite !insert_union_singleton_l. now rewrite (right_id_L ∅ (∪)).
Qed.

(** Writing the selected entries a second time changes nothing. *)
Lemma writesOf_twice (es : list (H * fdata)) (m : gmap string fdata) :
  writesOf sel key es (writesOf sel key es m) = writesOf sel key es m.
Proof.
  rewrite (writesOf_union es (writesOf sel key es m)), (writesOf_union es m).
  rewrite (assoc_L (∪)). now rewrite (idemp_L (∪)).
Qed.

(** A path that is a directory is none of the paths written. *)
Lemma writesOf_not_dir (w : world) (x : string) (es : list (H * fdata)) :
  forall m : gmap string fdata,
    stageable sel key w es = true -> fs.dirExists w x = true ->
    writesOf sel key es m !! x = m !! x.
Proof.
  induction es as [|[h d] es IH]; intros m Hs Hx; cbn [writesOf stageable] in *;
    [reflexivity|].
  destruct (sel h) as [info|]; [|now apply IH].
  apply andb_prop in Hs as [Hc Hs]. rewrite IH by assumption.
  apply lookup_insert_ne. intros E.
  unfold creatable in Hc. rewrite E, Hx in Hc. discriminate.
Qed.

End Writes.

Lemma stagingDirs_exist (a : archive) (w : world) (x : string) :
  In x (stagingDirs a) -> fs.dirExists (withStagingDirs a w) x = true.
Proof.
  intros Hx. unfold fs.dirExists, withStagingDirs. cbn [dirs fs.setDirs].
  rewrite !orb_true_iff. right. apply bool_decide_eq_true.
  apply elem_of_union_l, elem_of_list_to_set, list_elem_of_In, Hx.
Qed.

Lemma withStagingDirs_again (a : archive) (w w1 : world) :
  dirs w1 = dirs (withStagingDirs a w) ->
  dirs (withStagingDirs a w1) = dirs w1.
Proof.
  unfold withStagingDirs. cbn [dirs fs.setDirs]. intros ->.
  now rewrite (assoc_L (∪)), (idemp_L (∪)).
Qed.

(** After a first extraction the conditions of a second one hold, and the
    second writes what is already there. *)
Lemma second_run {H : Type} (sel : H -> option fileToSign)
      (key : H -> fileToSign -> string) (a : archive) (w w1 : world)
      (es : list (H * fdata)) (l : list resource) :
  find (fs.isFile w) (stagingDirs a) = None ->
  stageable sel key (withStagingDirs a w) es = true ->
  quiet (withStagingDirs a w) w1 (writesOf sel key es (files w)) l ->
  find (fs.isFile w1) (stagingDirs a) = None
  /\ stageable sel key (withStagingDirs a w1) es = true
  /\ writesOf sel key es (files w1) = files w1
  /\ dirs (withStagingDirs a w1) = dirs w1.
Proof.
  intros Hfind Hs (Qf & Qd & Qm & Ql).
  pose proof (withStagingDirs_again a w w1 Qd) as Hd.
  repeat split.
  - apply find_none_all. intros x Hx. unfold fs.isFile.
    apply bool_decide_eq_false. rewrite Qm.
    rewrite (writesOf_not_dir sel key (withStagingDirs a w) x es)
      by (auto using stagingDirs_exist).
    pose proof (find_none _ _ Hfind x Hx) as Hn. unfold fs.isFile in Hn.
    now apply bool_decide_eq_false in Hn.
  - rewrite (stageable_dirs _ _ (withStagingDirs a w)); [exact Hs|].
    now rewrite Hd.
  - rewrite Qm. apply writesOf_twice.
  - exact Hd.
Qed.

(** C9. Idempotence of extraction. When extraction has succeeded, and has
    not overwritten the archive itself, running it again from the world it
    left, into the same staging directory, succeeds: the staging directory
    that exists is reused. The second run returns the same list of sign
    requests and leaves the same files, with the same contents, and the same
    directories as the first. *)
Theorem extraction_twice (a : archive) (w w1 : world) (reqs : list fileToSign) :
  faults w = [] ->
  prepareEntriesToSign a w = (Returns (inl reqs), w1) ->
  files w1 !! Clean (path a) = files w !! Clean (path a) ->
  exists w2,
    prepareEntriesToSign a w1 = (Returns (inl reqs), w2)
    /\ files w2 = files w1
    /\ dirs w2 = dirs w1.
Proof.
  intros Hf Hrun Hsame.
  destruct (kind a) eqn:Hk; [|destruct (macOS a) eqn:Hm].
  - pose proof (prepare_zip_run a w Hk Hf) as R1.
    destruct (find (fs.isFile w) (stagingDirs a)) eqn:Hfind;
      [destruct R1 as (e & w' & E); congruence|].
    destruct (files w !! Clean (path a)) as [[b|es [|]|es c]|] eqn:Hd;
      try (destruct R1 as (e & w' & E); congruence).
    destruct (stageable (zipSel a) zipKey (withStagingDirs a w) es) eqn:Hs;
      [|destruct R1 as (e & w' & E); congruence].
    destruct R1 as (w' & E & Q). rewrite Hrun in E. injection E as -> <-.
    destruct (second_run _ _ a w w1 es _ Hfind Hs Q) as (F2 & S2 & W2 & D2).
    pose proof (prepare_zip_run a w1 Hk (proj1 Q)) as R2.
    rewrite F2, Hsame, S2 in R2. destruct R2 as (w2 & E2 & Qf2 & Qd2 & Qm2 & Ql2).
    exists w2. split; [exact E2|]. split; congruence.
  - pose proof (prepare_tar_run a w Hk Hm Hf) as R1.
    destruct (find (fs.isFile w) (stagingDirs a)) eqn:Hfind;
      [destruct R1 as (e & w' & E); congruence|].
    destruct (files w !! Clean (path a)) as [[b|es c|es [|]]|] eqn:Hd;
      try (destruct R1 as (e & w' & E); congruence).
    destruct (stageable (tarSel a) tarKey (withStagingDirs a w) es) eqn:Hs;
      [|destruct R1 as (e & w' & E); congruence].
    destruct R1 as (w' & E & Q). rewrite Hrun in E. injection E as -> <-.
    destruct (second_run _ _ a w w1 es _ Hfind Hs Q) as (F2 & S2 & W2 & D2).
    pose proof (prepare_tar_run a w1 Hk Hm (proj1 Q)) as R2.
    rewrite F2, Hsame, S2 in R2. destruct R2 as (w2 & E2 & Qf2 & Qd2 & Qm2 & Ql2).
    exists w2. split; [exact E2|]. split; congruence.
  - pose proof (prepare_other_run a w Hk Hm Hf) as R1.
    destruct (find (fs.isFile w) (stagingDirs a)) eqn:Hfind;
      [destruct R1 as (e & w' & E); congruence|].
    destruct R1 as (w' & E & Q). rewrite Hrun in E. injection E as -> <-.
    destruct (second_run (fun _ : unit => None) (fun _ _ => "") a w w1 [] _
                         Hfind eq_refl Q) as (F2 & _ & _ & D2).
    pose proof (prepare_other_run a w1 Hk Hm (proj1 Q)) as R2.
    rewrite F2 in R2. destruct R2 as (w2 & E2 & Qf2 & Qd2 & Qm2 & Ql2).
    exists w2. split; [exact E2|]. split; congruence.
Qed.

(** ** Repacking a zip archive without faults *)






(** ** The claims on extraction and repack *)

(** There and back: the sample Windows archive is extracted twice. *)
Lemma extraction_twice_witness :
  exists w2,
    prepareEntriesToSign samples.windowsZip
      (snd (prepareEntriesToSign samples.windowsZip samples.disk))
    = (Returns (inl [FileToSign "go1.zip" "go1.zip.extracted/a.exe"
                                "Microsoft400"]), w2)
    /\ files w2 = files (snd (prepareEntriesToSign samples.windowsZip samples.disk))
    /\ dirs w2 = dirs (snd (prepareEntriesToSign samples.windowsZip samples.disk)).
Proof.
  apply (extraction_twice samples.windowsZip samples.disk).
  - reflexivity.
  - vm_compute. reflexivity.
  - vm_compute. reflexivity.
Defined.

Lemma writesOf_app {H : Type} (sel : H -> option fileToSign)
      (key : H -> fileToSign -> string) (pre post : list (H * fdata)) :
  forall m : gmap string fdata,
    writesOf sel key (pre ++ post) m
    = writesOf sel key post (writesOf sel key pre m).
Proof.
  induction pre as [|[h d] pre IH]; intros m; [reflexivity|].
  cbn [app writesOf]. destruct (sel h); apply IH.
Qed.

Lemma writesOf_other {H : Type} (sel : H -> option fileToSign)
      (key : H -> fileToSign -> string) (x : string) (es : list (H * fdata)) :
  forall m : gmap string fdata,
    (forall h d info, In (h, d) es -> sel h = Some info -> key h info <> x) ->
    writesOf sel key es m !! x = m !! x.
Proof.
  induction es as [|[h d] es IH]; intros m Hne; [reflexivity|].
  cbn [writesOf]. destruct (sel h) as [info|] eqn:Hs.
  - rewrite IH by (intros; eapply Hne; [right|]; eassumption).
    apply lookup_insert_ne. eapply Hne; [left; reflexivity | exact Hs].
  - apply IH. intros; eapply Hne; [right|]; eassumption.
Qed.

(** A selected entry that no later entry overwrites is found at its
    path. *)
Lemma writesOf_last {H : Type} (sel : H -> option fileToSign)
      (key : H -> fileToSign -> string) (pre post : list (H * fdata))
      (h : H) (d : fdata) (info : fileToSign) (m : gmap string fdata) :
  sel h = Some info ->
  (forall h' d' info',
      In (h', d') post -> sel h' = Some info' -> key h' info' <> key h info) ->
  writesOf sel key (pre ++ (h, d) :: post) m !! key h info = Some d.
Proof.
  intros Hs Hne. rewrite writesOf_app. cbn [writesOf]. rewrite Hs.
  rewrite writesOf_other by exact Hne. apply lookup_insert_eq.
Qed.

Lemma zipSel_fullPath (a : archive) (h : zip.FileHeader) (info : fileToSign) :
  zipSel a h = Some info ->
  fullPath info = Join [path a +:+ ".extracted"; zip.Name h].
Proof.
  unfold zipSel, selected, entrySignInfo, entryExtractDir.
  destruct (kind a).
  - destruct (HasSuffix (zip.Name h) ".exe"); [|discriminate].
    now intros [= <-].
  - destruct (macOS a); [|discriminate].
    destruct (matchOrPanic "go/bin/*" (zip.Name h)) as [[|]|]; try discriminate.
    + now intros [= <-].
    + destruct (matchOrPanic "pkg/tool/*/*" (zip.Name h)) as [[|]|];
        try discriminate. now intros [= <-].
Qed.

(** C6, as amended. For every zip archive whose staging directory can be
    made: when the directory of every staged path exists (and no staged
    path is a directory), extraction succeeds; it returns one sign request
    for each entry that the entry selector matches, in the order of the
    archive; the staged path of the request of an entry is
    [filepath.Join(<archive path>.extracted, name)], which is
    [<stagingDir>/<name>] cleaned; and the file at that path holds the full
    content of the entry (of the last such entry, when several are staged at
    one path). The staging directory and the directories above it are the
    only directories that extraction makes: none is made between the
    staging directory and a staged file, and when the directory of some
    staged path is missing extraction fails with an error. *)
Theorem extraction_stages_selected_zip_entries
        (a : archive) (w : world) (es : list (zip.FileHeader * fdata)) :
  kind a = zipArchive ->
  faults w = [] ->
  files w !! Clean (path a) = Some (ZipData es true) ->
  find (fs.isFile w) (stagingDirs a) = None ->
  (stageable (zipSel a) zipKey (withStagingDirs a w) es = true ->
   exists w',
     prepareEntriesToSign a w = (Returns (inl (requestsOf (zipSel a) es)), w')
     /\ dirs w' = list_to_set (stagingDirs a) ∪ dirs w
     /\ files w' = writesOf (zipSel a) zipKey es (files w)
     /\ forall pre h d post info,
         es = (pre ++ (h, d) :: post)%list ->
         zipSel a h = Some info ->
         fullPath info = Join [path a +:+ ".extracted"; zip.Name h]
         /\ ((forall h' d' info',
                 In (h', d') post -> zipSel a h' = Some info' ->
                 Clean (fullPath info') <> Clean (fullPath info)) ->
             files w' !! Clean (fullPath info) = Some d))
  /\ (stageable (zipSel a) zipKey (withStagingDirs a w) es = false ->
      exists e w', prepareEntriesToSign a w = (Returns (inr e), w')).
Proof.
  intros Hk Hf Hd Hfind.
  pose proof (prepare_zip_run a w Hk Hf) as R. rewrite Hfind, Hd in R.
  split; intros Hs; rewrite Hs in R; [|exact R].
  destruct R as (w' & E & Qf & Qd & Qm & Ql).
  exists w'. split; [exact E|]. split; [exact Qd|]. split; [exact Qm|].
  intros pre h d post info -> Hsel. split; [now apply zipSel_fullPath|].
  intros Hlast. rewrite Qm.
  apply (writesOf_last (zipSel a) zipKey pre post h d info (files w) Hsel Hlast).
Qed.

(** Extraction of the sample Windows archive, and of the archive whose
    executable lies in a directory. *)
Lemma extraction_stages_selected_zip_entries_witness :
  (exists w',
      prepareEntriesToSign samples.windowsZip samples.disk
      = (Returns (inl [FileToSign "go1.zip" "go1.zip.extracted/a.exe"
                                  "Microsoft400"]), w')
      /\ files w' !! "go1.zip.extracted/a.exe" = Some (Raw "MZ"))
  /\ (exists e w',
         prepareEntriesToSign samples.nestedZip samples.nestedDisk
         = (Returns (inr e), w')).
Proof.
  split.
  - destruct (extraction_stages_selected_zip_entries
                samples.windowsZip samples.disk samples.windowsEntries
                eq_refl eq_refl eq_refl eq_refl) as [Hok _].
    destruct (Hok eq_refl) as (w' & E & _ & _ & Hentry).
    exists w'. split; [exact E|].
    destruct (Hentry [] (samples.zipHeader "a.exe") (Raw "MZ")
                     [(samples.zipHeader "b.txt", Raw "hello")]
                     (FileToSign "go1.zip" "go1.zip.extracted/a.exe"
                                 "Microsoft400")
                     eq_refl eq_refl) as [_ Hfile].
    apply Hfile. intros h' d' info' [[= <- <-]|[]]. discriminate.
  - destruct (extraction_stages_selected_zip_entries
                samples.nestedZip samples.nestedDisk samples.nestedEntries
                eq_refl eq_refl eq_refl eq_refl) as [_ Hno].
    apply Hno. reflexivity.
Defined.

(** An executable in a directory of the archive: extraction makes the
    staging directory but not [go/bin] below it, [os.Create] fails, and
    extraction fails without having written the entry. *)
Lemma extraction_makes_no_intermediate_directory :
  let run := prepareEntriesToSign samples.nestedZip samples.nestedDisk in
  fst run
  = Returns (inr (FailedToExtract
                    "go2.zip" (ErrNotExist "go2.zip.extracted/go/bin/go.exe")))
  /\ files (snd run) !! "go2.zip.extracted/go/bin/go.exe" = None
  /\ selected samples.nestedZip "go/bin/go.exe"
     = Some (FileToSign "go2.zip" "go2.zip.extracted/go/bin/go.exe" "Microsoft400").
Proof. vm_compute. repeat split; reflexivity. Qed.

(** A macOS archive whose doubled directory exists: the entry is written
    at the staged path joined with its name once more, not at the staged
    path that the request records. *)
Lemma tar_entry_is_written_elsewhere :
  let w := World {[ "go1.darwin-arm64.tar.gz.extracted/go/bin/go/go/bin" ]}
                 (files samples.disk) [] [] [] in
  let run := prepareEntriesToSign samples.darwinTarGz w in
  fst run
  = Returns (inl [FileToSign "go1.darwin-arm64.tar.gz"
                             "go1.darwin-arm64.tar.gz.extracted/go/bin/go"
                             "MacDeveloperHarden"])
  /\ files (snd run) !! "go1.darwin-arm64.tar.gz.extracted/go/bin/go" = None
  /\ files (snd run) !! "go1.darwin-arm64.tar.gz.extracted/go/bin/go/go/bin/go"
     = Some (Raw "ELF").
Proof. vm_compute. repeat split; reflexivity. Qed.





(** A macOS archive: the callback of the tar.gz branch writes nothing, and
    the new archive has no entry. *)
Lemma macos_repack_writes_no_entry :
  let run := repackSignedEntries "" samples.darwinTarGz samples.disk in
  fst run = Returns None
  /\ files (snd run) !! "go1.darwin-arm64.tar.gz.withSignedContent"
     = Some (TarGzData [] true).
Proof. vm_compute. split; reflexivity. Qed.



(** ** Notarization and signatures *)

(** C8. The bodies of [prepareSignatures] and [prepareNotarization] are
    empty: for every archive, macOS or not, each returns no sign request. *)
Theorem signature_and_notarization_request_nothing (a : archive) (w : world) :
  prepareSignatures a w = (Returns (inl []), w)
  /\ prepareNotarization a w = (Returns (inl []), w).
Proof. split; reflexivity. Qed.

(** * Further properties of the program *)
(** ** [filepath.Match] on patterns of literal bytes and stars *)

Lemma containsSep_append (a b : string) :
  containsSep (a +:+ b) = containsSep a || containsSep b.
Proof.
  induction a as [|c a IH]; [reflexivity|].
  rewrite append_cons. cbn [containsSep]. rewrite IH. apply orb_assoc.
Qed.

Lemma plain_append (a b : string) :
  plain (a +:+ b) = plain a && plain b.
Proof.
  induction a as [|c a IH]; [reflexivity|].
  rewrite append_cons. cbn [plain]. rewrite IH. now rewrite !andb_assoc.
Qed.

(** Two ways to split one string. *)
Lemma append_eq_append (a b c d : string) :
  a +:+ b = c +:+ d ->
  (exists e, c = a +:+ e /\ b = e +:+ d)
  \/ (exists e, a = c +:+ e /\ d = e +:+ b).
Proof.
  revert c. induction a as [|x a IH]; intros c H.
  - left. exists c. now rewrite !append_nil_l in *.
  - destruct c as [|y c].
    + right. exists (String x a). now rewrite !append_nil_l in *.
    + rewrite !append_cons in H. injection H as <- H.
      destruct (IH c H) as [(e & -> & ->)|(e & -> & ->)]; [left|right];
        exists e; now rewrite append_cons.
Qed.

Lemma append_inv_head (a b c : string) : a +:+ b = a +:+ c -> b = c.
Proof.
  induction a as [|x a IH]; [now rewrite !append_nil_l|].
  rewrite !append_cons. intros [= H]. now apply IH.
Qed.

(** The chunk [chunk] is found in [chunk ++ t] and again after the run
    [run]: what lies between the two ends is a run a star can take. *)
Lemma absorb (n : nat) :
  forall chunk t run t',
    String.length chunk < n ->
    containsSep run = false ->
    chunk +:+ t = run +:+ chunk +:+ t' ->
    exists y, t = y +:+ t' /\ containsSep y = false.
Proof.
  induction n as [|n IH]; intros chunk t run t' Hl Hr He; [lia|].
  destruct run as [|r run].
  { exists "". rewrite !append_nil_l in *. split; [|reflexivity].
    now apply append_inv_head in He. }
  destruct (append_eq_append _ _ _ _ He) as [(e & Hrun & Ht)|(e & Hc & Ht)].
  - exists (e +:+ chunk). rewrite append_assoc. split; [exact Ht|].
    rewrite Hrun, containsSep_append in Hr.
    apply orb_false_elim in Hr as [Hr1 Hr2].
    now rewrite containsSep_append, Hr1, Hr2.
  - rewrite Hc, append_assoc in Ht. symmetry in Ht.
    apply (IH e t (String r run) t'); auto.
    rewrite Hc, length_append in Hl. cbn [String.length] in Hl. lia.
Qed.

Lemma glob_empty (n : string) : glob "" n <-> n = "".
Proof.
  split; [intros H; now inversion H | intros ->; constructor].
Qed.

Lemma glob_star_extend (q y t : string) :
  containsSep y = false -> glob (String "*" q) t -> glob (String "*" q) (y +:+ t).
Proof.
  intros Hy H. apply glob_star_inv in H as (run & t' & -> & Hr & Ht).
  rewrite <- append_assoc. apply glob_star_inv. exists (y +:+ run), t'.
  rewrite containsSep_append, Hy, Hr. auto.
Qed.

Lemma skipStars_glob (p : string) :
  plain p = true ->
  plain (snd (skipStars p)) = true
  /\ (fst (skipStars p) = true ->
      forall n, glob p n <-> glob (String "*" (snd (skipStars p))) n).
Proof.
  induction p as [|c r IH]; intros Hp; cbn [skipStars].
  - split; [reflexivity | discriminate].
  - destruct (Ascii.eqb_spec c "*") as [->|Hc]; cbn [fst snd];
      [|split; [exact Hp | discriminate]].
    cbn [plain] in Hp. apply andb_prop in Hp as [_ Hr].
    destruct (IH Hr) as [Hp1 Hg]. split; [exact Hp1|]. intros _ n.
    pose proof (skipStars_shorter r) as (_ & _ & H3 & _).
    destruct (fst (skipStars r)) eqn:Es.
    + specialize (Hg eq_refl). split.
      * intros H. apply glob_star_inv in H as (run & t & -> & Hrun & Ht).
        apply Hg in Ht. now apply glob_star_extend.
      * intros H. apply glob_star_inv. exists "", n. rewrite append_nil_l.
        repeat split. now apply Hg.
    + now rewrite (H3 eq_refl).
Qed.

Lemma scanIndex_plain (p : string) :
  plain p = true ->
  take (scanIndex false p) p +:+ drop (scanIndex false p) p = p
  /\ starFree (take (scanIndex false p) p) = true
  /\ plain (take (scanIndex false p) p) = true
  /\ plain (drop (scanIndex false p) p) = true
  /\ (drop (scanIndex false p) p = ""
      \/ exists r, drop (scanIndex false p) p = String "*" r).
Proof.
  induction p as [|c r IH]; intros Hp.
  - cbn. repeat split; auto.
  - pose proof Hp as Hp0. cbn [plain] in Hp.
    apply andb_prop in Hp as [Hp Hr]. apply andb_prop in Hp as [Hp H3].
    apply andb_prop in Hp as [H1 H2]. apply negb_true_iff in H1, H2, H3.
    destruct (IH Hr) as (I1 & I2 & I3 & I4 & I5).
    cbn [scanIndex]. rewrite H3, H1.
    destruct (Ascii.eqb_spec c "*") as [->|Hc].
    + cbn. repeat split; auto. right. eauto.
    + assert (Hi : (if Ascii.eqb c "]" then S (scanIndex false r)
                    else S (scanIndex false r)) = S (scanIndex false r))
        by (destruct (Ascii.eqb c "]"); reflexivity).
      rewrite Hi. cbn [take drop]. rewrite append_cons, I1.
      cbn [starFree plain]. rewrite H1, H2, H3, I2, I3.
      destruct (Ascii.eqb_spec c "*"); [contradiction|]. cbn. auto.
Qed.

Lemma scanChunk_plain (pattern : string) (star : bool) (chunk rest : string) :
  plain pattern = true ->
  scanChunk pattern = (star, chunk, rest) ->
  plain chunk = true /\ starFree chunk = true /\ plain rest = true
  /\ (rest = "" \/ exists r, rest = String "*" r)
  /\ (star = true -> chunk = "" -> rest = "")
  /\ forall n,
      glob pattern n <->
      if star
      then exists run t, n = run +:+ t /\ containsSep run = false
                         /\ glob (chunk +:+ rest) t
      else glob (chunk +:+ rest) n.
Proof.
  intros Hp. unfold scanChunk.
  destruct (skipStars_glob pattern Hp) as [Hp1 Hg].
  pose proof (skipStars_shorter pattern) as (_ & _ & H3 & H4).
  destruct (skipStars pattern) as [st p1]. cbn [fst snd] in *.
  intros [= <- <- <-].
  destruct (scanIndex_plain p1 Hp1) as (I1 & I2 & I3 & I4 & I5).
  repeat split; auto.
  - intros _ Hc. destruct p1 as [|c r]; [reflexivity|].
    cbn [behead] in H4. destruct (Ascii.eqb c "*") eqn:Ec; [discriminate|].
    pose proof (scanIndex_positive c r Ec) as Hi.
    destruct (scanIndex false (String c r)); [lia|discriminate].
  - rewrite I1. destruct st.
    + intros H. apply (Hg eq_refl) in H. now apply glob_star_inv in H.
    + now rewrite (H3 eq_refl).
  - rewrite I1. destruct st.
    + intros H. apply (Hg eq_refl). now apply glob_star_inv.
    + now rewrite (H3 eq_refl).
Qed.

Lemma checkRest_plain (fuel : nat) :
  forall pattern,
    plain pattern = true -> String.length pattern < fuel ->
    checkRest fuel pattern = Some None.
Proof.
  induction fuel as [|fuel IH]; intros pattern Hp Hl; [lia|].
  cbn [checkRest]. destruct (is_empty pattern) eqn:Ep; [reflexivity|].
  assert (Hne : pattern <> "") by (intros ->; discriminate).
  destruct (scanChunk pattern) as [[star chunk] rest] eqn:Es.
  pose proof (scanChunk_shorter pattern Hne _ _ _ Es) as Hr.
  destruct (scanChunk_plain _ _ _ _ Hp Es) as (Hc & _ & Hrest & _).
  rewrite matchChunk_plain by exact Hc.
  destruct (stripPrefix chunk ""); apply IH; auto; lia.
Qed.

(** The loop that looks for a literal chunk after a star finds the
    place nearest to the start of the name. *)
Lemma starLoop_plain (chunk : string) (last : bool) :
  plain chunk = true ->
  forall name,
    match starLoop chunk last name with
    | Some (StarFound t) =>
      exists run,
        run <> "" /\ containsSep run = false /\ name = run +:+ chunk +:+ t
        /\ (last = true -> t = "")
        /\ forall run2 t2,
            run2 <> "" -> containsSep run2 = false ->
            name = run2 +:+ chunk +:+ t2 -> (last = true -> t2 = "") ->
            String.length run <= String.length run2
    | Some StarNotFound =>
      forall run2 t2,
        run2 <> "" -> containsSep run2 = false ->
        name = run2 +:+ chunk +:+ t2 -> (last = true -> t2 = "") -> False
    | _ => False
    end.
Proof.
  intros Hp. induction name as [|c rest IH]; cbn [starLoop].
  - intros run2 t2 Hne _ H. destruct run2; [congruence|discriminate].
  - destruct (Ascii.eqb_spec c "/") as [->|Hc].
    { intros run2 t2 Hne Hs H. destruct run2 as [|x r2]; [congruence|].
      rewrite append_cons in H. injection H as <- _. discriminate. }
    rewrite matchChunk_plain by exact Hp.
    assert (Hrec :
      (forall t2, rest = chunk +:+ t2 -> (last = true -> t2 = "") -> False) ->
      match starLoop chunk last rest with
      | Some (StarFound t) =>
        exists run,
          run <> "" /\ containsSep run = false
          /\ String c rest = run +:+ chunk +:+ t
          /\ (last = true -> t = "")
          /\ forall run2 t2,
              run2 <> "" -> containsSep run2 = false ->
              String c rest = run2 +:+ chunk +:+ t2 -> (last = true -> t2 = "") ->
              String.length run <= String.length run2
      | Some StarNotFound =>
        forall run2 t2,
          run2 <> "" -> containsSep run2 = false ->
          String c rest = run2 +:+ chunk +:+ t2 -> (last = true -> t2 = "") ->
          False
      | _ => False
      end).
    { intros Hhere.
      assert (Hsplit : forall run2 t2,
                 run2 <> "" -> containsSep run2 = false ->
                 String c rest = run2 +:+ chunk +:+ t2 ->
                 (last = true -> t2 = "") ->
                 exists r2, run2 = String c r2 /\ r2 <> ""
                            /\ containsSep r2 = false
                            /\ rest = r2 +:+ chunk +:+ t2).
      { intros run2 t2 Hne Hs H Hl. destruct run2 as [|x r2]; [congruence|].
        rewrite append_cons in H. injection H as <- H.
        cbn [containsSep] in Hs. apply orb_false_elim in Hs as [_ Hs].
        exists r2. repeat split; auto. intros ->.
        rewrite append_nil_l in H. exact (Hhere t2 H Hl). }
      destruct (starLoop chunk last rest) as [[t| |e]|]; try exact IH.
      - destruct IH as (run & Hne & Hs & Hn & Hl & Hmin).
        exists (String c run). split; [discriminate|].
        split; [cbn [containsSep]; rewrite Hs;
                destruct (Ascii.eqb_spec c "/"); [contradiction|reflexivity]|].
        split; [now rewrite append_cons, <- Hn|]. split; [exact Hl|].
        intros run2 t2 Hne2 Hs2 H2 Hl2.
        destruct (Hsplit run2 t2 Hne2 Hs2 H2 Hl2) as (r2 & -> & Hr2 & Hsr & Hrest).
        cbn [String.length]. specialize (Hmin r2 t2 Hr2 Hsr Hrest Hl2). lia.
      - intros run2 t2 Hne2 Hs2 H2 Hl2.
        destruct (Hsplit run2 t2 Hne2 Hs2 H2 Hl2) as (r2 & -> & Hr2 & Hsr & Hrest).
        exact (IH r2 t2 Hr2 Hsr Hrest Hl2). }
    destruct (stripPrefix chunk rest) as [t|] eqn:Est.
    + apply stripPrefix_Some in Est.
      destruct (last && negb (is_empty t)) eqn:El.
      * apply Hrec. intros t2 H2 Hl2. apply andb_prop in El as [-> Ht].
        rewrite Est in H2. apply append_inv_head in H2. subst t2.
        rewrite (Hl2 eq_refl) in Ht. discriminate.
      * exists (String c ""). split; [discriminate|].
        split; [cbn [containsSep];
                destruct (Ascii.eqb_spec c "/"); [contradiction|reflexivity]|].
        split; [now rewrite append_cons, append_nil_l, Est|]. split.
        { intros ->. cbn [andb] in El. apply negb_false_iff in El.
          destruct t; [reflexivity|discriminate]. }
        intros run2 t2 Hne2 _ _ _. destruct run2; [congruence|].
        cbn [String.length]. lia.
    + apply Hrec. intros t2 H2 _.
      rewrite (proj2 (stripPrefix_Some chunk rest t2) H2) in Est. discriminate.
Qed.

(** On a pattern of literal bytes and stars [Match] reports no error and
    decides the glob. *)
Lemma MatchLoop_glob (fuel : nat) :
  forall pattern name,
    plain pattern = true -> String.length pattern < fuel ->
    exists b, MatchLoop fuel pattern name = Some (b, None)
              /\ (b = true <-> glob pattern name).
Proof.
  induction fuel as [|fuel IH]; intros pattern name Hp Hl; [lia|].
  rewrite MatchLoop_S. destruct (is_empty pattern) eqn:Ep.
  { destruct pattern; [|discriminate]. exists (is_empty name).
    split; [reflexivity|]. rewrite glob_empty.
    destruct name; split; auto; discriminate. }
  assert (Hne : pattern <> "") by (intros ->; discriminate).
  destruct (scanChunk pattern) as [[star chunk] rest] eqn:Es.
  pose proof (scanChunk_shorter pattern Hne _ _ _ Es) as Hr.
  destruct (scanChunk_plain _ _ _ _ Hp Es)
    as (Hc & Hsf & Hprest & Hshape & Hlast & Hg).
  assert (Hno : noMatch fuel rest = Some (false, None)).
  { unfold noMatch. rewrite checkRest_plain by (auto; lia). reflexivity. }
  assert (Hpre : forall t, glob (chunk +:+ rest) t <->
                           exists t', t = chunk +:+ t' /\ glob rest t')
    by (intros t; now apply glob_prefix).
  destruct (star && is_empty chunk) eqn:Esc.
  { apply andb_prop in Esc as [-> Hce]. destruct chunk; [|discriminate].
    rewrite (Hlast eq_refl eq_refl) in *.
    exists (negb (containsSep name)). split; [reflexivity|].
    rewrite Hg, negb_true_iff. split.
    - intros Hs. exists name, "". rewrite append_empty_r.
      repeat split; auto. constructor.
    - intros (run & t & -> & Hs & Ht). rewrite append_nil_l in Ht.
      apply glob_empty in Ht as ->. now rewrite append_empty_r. }
  rewrite matchChunk_plain by exact Hc.
  (* the glob of the pattern, by the place of the chunk *)
  assert (Hglob : glob pattern name <->
                  exists run t, name = run +:+ chunk +:+ t
                                /\ containsSep run = false
                                /\ (star = false -> run = "")
                                /\ glob rest t).
  { rewrite Hg. destruct star.
    - split.
      + intros (run & t & -> & Hs & Ht). apply Hpre in Ht as (t' & -> & Ht').
        exists run, t'. repeat split; auto; discriminate.
      + intros (run & t & -> & Hs & _ & Ht). exists run, (chunk +:+ t).
        repeat split; auto. apply Hpre. eauto.
    - rewrite Hpre. split.
      + intros (t & -> & Ht). exists "", t. rewrite append_nil_l. auto.
      + intros (run & t & -> & _ & Hrun & Ht). rewrite (Hrun eq_refl).
        rewrite append_nil_l. eauto. }
  (* a match of the rest from a later place gives one from an earlier *)
  assert (Hearlier : forall t e t2,
             containsSep e = false -> chunk +:+ t = e +:+ chunk +:+ t2 ->
             (rest = "" -> t = "") ->
             glob rest t2 -> glob rest t).
  { intros t e t2 He Heq Hend Ht2.
    destruct Hshape as [->|(r & ->)].
    - rewrite (Hend eq_refl). constructor.
    - destruct (absorb (S (String.length chunk)) chunk t e t2) as (y & -> & Hy);
        auto. now apply glob_star_extend. }
  destruct (stripPrefix chunk name) as [t|] eqn:Est.
  - apply stripPrefix_Some in Est. subst name.
    destruct (is_empty t || negb (is_empty rest)) eqn:Econt.
    + destruct (IH rest t Hprest ltac:(lia)) as (b & Eb & Hb).
      exists b. split; [exact Eb|]. rewrite Hb, Hglob. split.
      * intros Ht. exists "", t. rewrite append_nil_l. auto.
      * intros (run & t2 & Heq & Hs & _ & Ht2).
        apply (Hearlier t run t2 Hs Heq); auto.
        intros ->. cbn [is_empty negb] in Econt. rewrite orb_false_r in Econt.
        destruct t; [reflexivity|discriminate].
    + apply orb_false_elim in Econt as [Et Erest].
      apply negb_false_iff in Erest.
      destruct rest; [|discriminate]. clear Hshape.
      assert (Hnot0 : forall t2, chunk +:+ t = chunk +:+ t2 -> t2 <> "").
      { intros t2 H ->. apply append_inv_head in H. subst t. discriminate. }
      destruct star.
      * pose proof (starLoop_plain chunk true Hc (chunk +:+ t)) as Hstar.
        cbn [is_empty].
        destruct (starLoop chunk true (chunk +:+ t)) as [[t1| |e]|];
          try contradiction.
        -- destruct Hstar as (run & Hrne & Hrs & Hn & Hlt & _).
           rewrite (Hlt eq_refl) in *.
           destruct (IH "" "" eq_refl ltac:(lia)) as (b & Eb & Hb).
           exists b. split; [exact Eb|]. rewrite Hb, Hglob. split.
           ++ intros H0. exists run, "". repeat split; auto. discriminate.
           ++ intros _. constructor.
        -- exists false. split; [exact Hno|]. rewrite Hglob.
           split; [discriminate|].
           intros (run & t2 & Heq & Hs & _ & Ht2). apply glob_empty in Ht2.
           subst t2. destruct run as [|x run].
           ++ rewrite append_nil_l in Heq. exfalso. exact (Hnot0 "" Heq eq_refl).
           ++ exfalso. apply (Hstar (String x run) ""); auto.
      * exists false. split; [exact Hno|]. rewrite Hglob.
        split; [discriminate|].
        intros (run & t2 & Heq & _ & Hrun & Ht2). rewrite (Hrun eq_refl) in Heq.
        rewrite append_nil_l in Heq. apply glob_empty in Ht2.
        exfalso. exact (Hnot0 t2 Heq Ht2).
  - assert (Hnot0 : forall t2, name <> chunk +:+ t2).
    { intros t2 H. rewrite (proj2 (stripPrefix_Some chunk name t2) H) in Est.
      discriminate. }
    destruct star.
    + pose proof (starLoop_plain chunk (is_empty rest) Hc name) as Hstar.
      destruct (starLoop chunk (is_empty rest) name) as [[t1| |e]|];
        try contradiction.
      * destruct Hstar as (run & Hrne & Hrs & Hn & Hlt & Hmin).
        destruct (IH rest t1 Hprest ltac:(lia)) as (b & Eb & Hb).
        exists b. split; [exact Eb|]. rewrite Hb, Hglob. split.
        -- intros Ht. exists run, t1. repeat split; auto. discriminate.
        -- intros (run2 & t2 & Heq & Hs & _ & Ht2).
           assert (Hend2 : is_empty rest = true -> t2 = "").
           { intros He. destruct rest; [|discriminate].
             now apply glob_empty in Ht2. }
           destruct run2 as [|x r2].
           { rewrite append_nil_l in Heq. now apply Hnot0 in Heq. }
           specialize (Hmin (String x r2) t2 ltac:(discriminate) Hs Heq Hend2).
           rewrite Hn in Heq.
           destruct (append_eq_append _ _ _ _ Heq) as [(e & He & Ht)|(e & He & Ht)].
           ++ apply (Hearlier t1 e t2); auto.
              ** rewrite He, containsSep_append in Hs.
                 now apply orb_false_elim in Hs as [_ Hs].
              ** intros ->. now apply Hlt.
           ++ rewrite He, length_append in Hmin.
              destruct e; [|cbn [String.length] in Hmin; lia].
              rewrite append_nil_l in Ht. apply append_inv_head in Ht.
              now subst t2.
      * exists false. split; [exact Hno|]. rewrite Hglob.
        split; [discriminate|].
        intros (run2 & t2 & Heq & Hs & _ & Ht2).
        destruct run2 as [|x r2].
        { rewrite append_nil_l in Heq. now apply Hnot0 in Heq. }
        exfalso. apply (Hstar (String x r2) t2); auto.
        intros He. destruct rest; [|discriminate]. now apply glob_empty in Ht2.
    + exists false. split; [exact Hno|]. rewrite Hglob.
      split; [discriminate|].
      intros (run & t2 & Heq & _ & Hrun & _). rewrite (Hrun eq_refl) in Heq.
      rewrite append_nil_l in Heq. now apply Hnot0 in Heq.
Qed.

Lemma Match_glob (pattern name : string) :
  plain pattern = true ->
  exists b, Match pattern name = (b, None) /\ (b = true <-> glob pattern name).
Proof.
  intros Hp. unfold Match.
  destruct (MatchLoop_glob (S (String.length pattern)) pattern name Hp)
    as (b & E & H); [lia|].
  rewrite E. eauto.
Qed.
(** X1. [matchOrPanic] on a pattern of literal bytes and stars returns,
    whatever the name, and its answer is the glob: a byte matches itself and
    a star matches a run of bytes, possibly empty, without a separator. The
    five patterns of the program are of this kind. *)
Theorem matchOrPanic_decides_glob (pattern name : string) :
  plain pattern = true ->
  exists b, matchOrPanic pattern name = Returns b
            /\ (b = true <-> glob pattern name).
Proof.
  intros Hp. destruct (Match_glob pattern name Hp) as (b & E & H).
  exists b. unfold matchOrPanic. now rewrite E.
Qed.

Lemma matchOrPanic_decides_glob_witness :
  exists b, matchOrPanic "go*darwin*.tar.gz" "go1.21.0.darwin-arm64.tar.gz"
            = Returns b
            /\ (b = true <->
                glob "go*darwin*.tar.gz" "go1.21.0.darwin-arm64.tar.gz").
Proof.
  exact (matchOrPanic_decides_glob
           "go*darwin*.tar.gz" "go1.21.0.darwin-arm64.tar.gz" eq_refl).
Defined.

(** ** The three globs of [run] *)

Lemma glob_literal (s n : string) : starFree s = true -> glob s n <-> n = s.
Proof.
  intros Hs. rewrite <- (append_empty_r s) at 1. rewrite glob_prefix by exact Hs.
  split.
  - intros (t & -> & Ht). apply glob_empty in Ht as ->. apply append_empty_r.
  - intros ->. exists "". rewrite append_empty_r. split; [reflexivity|constructor].
Qed.

Lemma glob_go_zip (n : string) :
  glob "go*.zip" n <->
  exists run, n = "go" +:+ run +:+ ".zip" /\ containsSep run = false.
Proof.
  change "go*.zip" with ("go" +:+ "*.zip"). rewrite glob_prefix by reflexivity.
  split.
  - intros (t & -> & Ht). apply glob_star_inv in Ht as (run & t' & -> & Hr & Ht').
    apply glob_literal in Ht' as ->; [|reflexivity]. eauto.
  - intros (run & -> & Hr). eexists. split; [reflexivity|].
    apply glob_star_inv. exists run, ".zip". repeat split; auto.
    now apply glob_literal.
Qed.

Lemma glob_go_tar_gz (n : string) :
  glob "go*.tar.gz" n <->
  exists run, n = "go" +:+ run +:+ ".tar.gz" /\ containsSep run = false.
Proof.
  change "go*.tar.gz" with ("go" +:+ "*.tar.gz").
  rewrite glob_prefix by reflexivity. split.
  - intros (t & -> & Ht). apply glob_star_inv in Ht as (run & t' & -> & Hr & Ht').
    apply glob_literal in Ht' as ->; [|reflexivity]. eauto.
  - intros (run & -> & Hr). eexists. split; [reflexivity|].
    apply glob_star_inv. exists run, ".tar.gz". repeat split; auto.
    now apply glob_literal.
Qed.

Lemma glob_go_darwin (n : string) :
  glob "go*darwin*.tar.gz" n <->
  exists r1 r2, n = "go" +:+ r1 +:+ "darwin" +:+ r2 +:+ ".tar.gz"
                /\ containsSep r1 = false /\ containsSep r2 = false.
Proof.
  change "go*darwin*.tar.gz" with ("go" +:+ "*darwin*.tar.gz").
  rewrite glob_prefix by reflexivity. split.
  - intros (t & -> & Ht). apply glob_star_inv in Ht as (r1 & t1 & -> & Hr1 & Ht1).
    change "darwin*.tar.gz" with ("darwin" +:+ "*.tar.gz") in Ht1.
    apply glob_prefix in Ht1 as (t2 & -> & Ht2); [|reflexivity].
    apply glob_star_inv in Ht2 as (r2 & t3 & -> & Hr2 & Ht3).
    apply glob_literal in Ht3 as ->; [|reflexivity]. eauto.
  - intros (r1 & r2 & -> & Hr1 & Hr2). eexists. split; [reflexivity|].
    apply glob_star_inv. exists r1, ("darwin" +:+ r2 +:+ ".tar.gz").
    repeat split; auto.
    change "darwin*.tar.gz" with ("darwin" +:+ "*.tar.gz").
    apply glob_prefix; [reflexivity|]. eexists. split; [reflexivity|].
    apply glob_star_inv. exists r2, ".tar.gz". repeat split; auto.
    now apply glob_literal.
Qed.

Lemma glob_darwin_is_tar_gz (n : string) :
  glob "go*darwin*.tar.gz" n -> glob "go*.tar.gz" n.
Proof.
  rewrite glob_go_darwin, glob_go_tar_gz.
  intros (r1 & r2 & -> & H1 & H2). exists (r1 +:+ "darwin" +:+ r2).
  rewrite !append_assoc. split; [reflexivity|].
  rewrite !containsSep_append, H1, H2. reflexivity.
Qed.

Lemma zip_is_not_tar_gz (a b : string) : a +:+ ".zip" <> b +:+ ".tar.gz".
Proof.
  intros H. destruct (append_eq_append _ _ _ _ H) as [(e & _ & He)|(e & _ & He)].
  - do 5 (destruct e as [|? e]; [discriminate|]). discriminate.
  - do 8 (destruct e as [|? e]; [discriminate|]). discriminate.
Qed.

Lemma glob_zip_or_tar_gz (n : string) :
  glob "go*.zip" n -> glob "go*.tar.gz" n -> False.
Proof.
  rewrite glob_go_zip, glob_go_tar_gz. intros (r & -> & _) (r' & H & _).
  apply append_inv_head in H.
  exact (zip_is_not_tar_gz _ _ H).
Qed.

Lemma matchOrPanic_go_darwin (p : string) :
  exists m, matchOrPanic "go*darwin*.tar.gz" p = Returns m
            /\ (m = true <-> glob "go*darwin*.tar.gz" p).
Proof.
  destruct (Match_glob "go*darwin*.tar.gz" p eq_refl) as (m & E & H).
  exists m. unfold matchOrPanic. now rewrite E.
Qed.

(** ** The loop of [run] *)

Lemma visit_run (filesGlob name : string) (l : discover.locals) :
  exists (z t m : bool) (ps : list string),
    discover.visit filesGlob name l
    = (Returns tt,
       discover.Locals
         (discover.zipFiles l
            ++ (if z then [Join [filesGlob; name]] else []))%list
         (discover.tarGzFiles l
            ++ (if t then [Join [filesGlob; name]] else []))%list
         (discover.macOSFiles l
            ++ (if m then [Join [filesGlob; name]] else []))%list
         (discover.printed l ++ ps)%list)
    /\ (z = true <-> glob "go*.zip" name)
    /\ (t = true <-> glob "go*.tar.gz" name)
    /\ (m = true <-> glob "go*darwin*.tar.gz" name)
    /\ length ps = (if z then 1 else 0) + (if t then 1 else 0)
                   + (if m then 1 else 0).
Proof.
  destruct (Match_glob "go*.zip" name eq_refl) as (z & Ez & Hz).
  destruct (Match_glob "go*.tar.gz" name eq_refl) as (t & Et & Ht).
  destruct (Match_glob "go*darwin*.tar.gz" name eq_refl) as (m & Em & Hm).
  exists z, t, m,
    ((if z then ["Found zip file" +:+ ": " +:+ name +:+ discover.newline]
      else [])
       ++ (if t then ["Found tar.gz file" +:+ ": " +:+ name +:+ discover.newline]
           else [])
       ++ (if m
           then ["Found macOS tar.gz file" +:+ ": " +:+ name +:+ discover.newline]
           else []))%list.
  unfold discover.visit, bind, call, matchOrPanic.
  rewrite Ez, Et, Em. set (path := Join [filesGlob; name]).
  destruct l as [zs ts ms ps0].
  split; [|split; [exact Hz|split; [exact Ht|split; [exact Hm|]]]].
  - destruct z, t, m;
      unfold discover.Printf, discover.appendZip, discover.appendTarGz,
        discover.appendMacOS, ret;
      cbn [discover.zipFiles discover.tarGzFiles discover.macOSFiles
           discover.printed app];
      rewrite ?app_nil_r, <- ?app_assoc; reflexivity.
  - destruct z, t, m; reflexivity.
Qed.

Lemma rangeEntries_run (filesGlob : string) (entries : list string) :
  forall l0 : discover.locals,
  exists zs ts ms ps : list string,
    discover.rangeEntries filesGlob entries l0
    = (Returns tt,
       discover.Locals (discover.zipFiles l0 ++ zs)%list
                       (discover.tarGzFiles l0 ++ ts)%list
                       (discover.macOSFiles l0 ++ ms)%list
                       (discover.printed l0 ++ ps)%list)
    /\ (forall p, In p zs <->
                  exists n, In n entries /\ glob "go*.zip" n
                            /\ p = Join [filesGlob; n])
    /\ (forall p, In p ts <->
                  exists n, In n entries /\ glob "go*.tar.gz" n
                            /\ p = Join [filesGlob; n])
    /\ (forall p, In p ms <->
                  exists n, In n entries /\ glob "go*darwin*.tar.gz" n
                            /\ p = Join [filesGlob; n])
    /\ sublist ms ts
    /\ length zs + length ts <= length entries
    /\ length ps = length zs + length ts + length ms.
Proof.
  induction entries as [|name rest IH]; intros l0.
  - exists [], [], [], []. cbn [discover.rangeEntries]. unfold ret.
    rewrite !app_nil_r. destruct l0. split; [reflexivity|].
    repeat split; try (intros []); try (intros (n & [] & _)); auto;
      try apply sublist_nil;
      match goal with H : In _ [] /\ _ |- _ => destruct H as [[] _] end.
  - destruct (visit_run filesGlob name l0)
      as (z & t & m & ps1 & E1 & Hz & Ht & Hm & Hp1).
    cbn [discover.rangeEntries]. unfold bind at 1. rewrite E1.
    match goal with
    | |- context [discover.rangeEntries _ _ ?l1] =>
      destruct (IH l1) as (zs & ts & ms & ps & E & Iz & It & Im & Hsub & Hlen & Hps)
    end.
    cbn [discover.zipFiles discover.tarGzFiles discover.macOSFiles
         discover.printed] in E.
    set (path := Join [filesGlob; name]) in *.
    exists ((if z then [path] else []) ++ zs)%list,
      ((if t then [path] else []) ++ ts)%list,
      ((if m then [path] else []) ++ ms)%list, (ps1 ++ ps)%list.
    rewrite E, !app_assoc. split; [reflexivity|].
    assert (Hin : forall (b : bool) (pat : string) (xs : list string),
               (b = true <-> glob pat name) ->
               (forall p, In p xs <->
                          exists n, In n rest /\ glob pat n
                                    /\ p = Join [filesGlob; n]) ->
               forall p, In p ((if b then [path] else []) ++ xs)%list <->
                         exists n, In n (name :: rest) /\ glob pat n
                                   /\ p = Join [filesGlob; n]).
    { intros b pat xs Hb Hxs p. rewrite in_app_iff, Hxs. split.
      - intros [H|(n & Hn & Hg & ->)].
        + destruct b; [|destruct H]. destruct H as [<-|[]].
          exists name. split; [now left|]. split; [now apply Hb|reflexivity].
        + exists n. split; [now right|]. auto.
      - intros (n & [<-|Hn] & Hg & ->).
        + left. apply Hb in Hg as ->. now left.
        + right. eauto. }
    split; [now apply Hin|]. split; [now apply Hin|]. split; [now apply Hin|].
    assert (Hmt : m = true -> t = true).
    { intros H. apply Ht, glob_darwin_is_tar_gz, Hm, H. }
    assert (Hzt : z = true -> t = true -> False).
    { intros H1 H2. apply (glob_zip_or_tar_gz name); [now apply Hz|now apply Ht]. }
    split; [|split].
    + destruct m.
      * rewrite (Hmt eq_refl). cbn [app]. now constructor.
      * destruct t; cbn [app]; [now constructor|exact Hsub].
    + rewrite !length_app. cbn [length].
      pose proof Hzt as Hzt'. destruct z, t; cbn [length]; try lia.
      
    + rewrite !length_app, Hp1, Hps.
      destruct z, t, m; cbn [length]; lia.
Qed.

(** X2. The loop of [run] that sorts the entries does not panic, whatever the
    entries are called. An entry is listed as a zip archive exactly when
    its name matches [go*.zip], as a tar.gz archive exactly when it matches
    [go*.tar.gz] and as a macOS archive exactly when it matches
    [go*darwin*.tar.gz], each time under the path
    [filepath.Join(filesGlob, name)]. *)
Theorem run_sorts_entries_by_glob (filesGlob : string) (entries : list string) :
  exists l : discover.locals,
    discover.rangeEntries filesGlob entries discover.start = (Returns tt, l)
    /\ (forall p, In p (discover.zipFiles l) <->
                  exists n, In n entries /\ glob "go*.zip" n
                            /\ p = Join [filesGlob; n])
    /\ (forall p, In p (discover.tarGzFiles l) <->
                  exists n, In n entries /\ glob "go*.tar.gz" n
                            /\ p = Join [filesGlob; n])
    /\ (forall p, In p (discover.macOSFiles l) <->
                  exists n, In n entries /\ glob "go*darwin*.tar.gz" n
                            /\ p = Join [filesGlob; n]).
Proof.
  destruct (rangeEntries_run filesGlob entries discover.start)
    as (zs & ts & ms & ps & E & Iz & It & Im & _).
  eexists. split; [exact E|]. cbn. auto.
Qed.

(** X3. In the lists that the loop of [run] builds, the macOS archives are
    among the tar.gz archives, in the same order; no entry is counted both
    as a zip and as a tar.gz archive, so the two lists together are no longer
    than the list of entries; and one line is printed for each path that is
    listed. *)
Theorem run_lists_macos_among_tar_gz (filesGlob : string) (entries : list string) :
  exists l : discover.locals,
    discover.rangeEntries filesGlob entries discover.start = (Returns tt, l)
    /\ sublist (discover.macOSFiles l) (discover.tarGzFiles l)
    /\ length (discover.zipFiles l) + length (discover.tarGzFiles l)
       <= length entries
    /\ length (discover.printed l)
       = length (discover.zipFiles l) + length (discover.tarGzFiles l)
         + length (discover.macOSFiles l).
Proof.
  destruct (rangeEntries_run filesGlob entries discover.start)
    as (zs & ts & ms & ps & E & _ & _ & _ & Hsub & Hlen & Hps).
  eexists. split; [exact E|]. cbn. auto.
Qed.

(** Three entries in the directory [tosign]. *)
Lemma run_sorts_entries_by_glob_witness :
  exists l : discover.locals,
    discover.rangeEntries
      "tosign" ["go1.zip"; "go1.darwin-arm64.tar.gz"; "README"] discover.start
    = (Returns tt, l)
    /\ (forall p, In p (discover.zipFiles l) <->
                  exists n, In n ["go1.zip"; "go1.darwin-arm64.tar.gz"; "README"]
                            /\ glob "go*.zip" n /\ p = Join ["tosign"; n])
    /\ (forall p, In p (discover.tarGzFiles l) <->
                  exists n, In n ["go1.zip"; "go1.darwin-arm64.tar.gz"; "README"]
                            /\ glob "go*.tar.gz" n /\ p = Join ["tosign"; n])
    /\ (forall p, In p (discover.macOSFiles l) <->
                  exists n, In n ["go1.zip"; "go1.darwin-arm64.tar.gz"; "README"]
                            /\ glob "go*darwin*.tar.gz" n
                            /\ p = Join ["tosign"; n]).
Proof.
  exact (run_sorts_entries_by_glob
           "tosign" ["go1.zip"; "go1.darwin-arm64.tar.gz"; "README"]).
Defined.

(** ** The zip archives that [run] opens *)

(** X4. The loop of [run] over the zip archives closes nothing. For every
    list of paths and every plan of faults it returns, with the files and
    the directories as they were, and every reader that [zip.OpenReader]
    returned is still open afterwards; when no operation fails and every
    path is a complete zip archive, one reader for each path is left
    open. *)
Theorem run_leaves_zip_readers_open (paths : list string) (w : world) :
  exists (w' : world) (opened : list string),
    discover.openEach paths w = (Returns tt, w')
    /\ files w' = files w /\ dirs w' = dirs w
    /\ live w' = (map RZipReader (rev opened) ++ live w)%list
    /\ sublist opened (map Clean paths)
    /\ (faults w = [] ->
        (forall p, In p paths ->
                   exists es, files w !! Clean p = Some (ZipData es true)) ->
        opened = map Clean paths).
Proof.
  revert w. induction paths as [|p paths IH]; intros w.
  - exists w, []. cbn. repeat split; auto.
  - cbn [discover.openEach]. unfold bind.
    destruct (OpenReader_spec p w) as (r & w1 & E & T & K & L).
    pose proof (confined_OpenReader (fun _ => False) p w _ _ E) as [Hd Hfiles].
    unfold id in Hd, Hfiles.
    assert (Hf : files w1 = files w).
    { apply map_eq. intros k. apply Hfiles. auto. }
    rewrite E. destruct (IH w1) as (w' & opened & E' & Hf' & Hd' & Hl' & Hs' & Hall).
    assert (Hsrc : forall zr, r = inl zr -> archive_zip.source zr = Clean p).
    { intros zr ->. unfold archive_zip.OpenReader, io.attempt, io.popFault in E.
      destruct (faults w) as [|[e|] fl]; try discriminate; cbv zeta in E;
        destruct (files _ !! Clean p) as [[b|es [|]|es c]|];
        try destruct (fs.dirExists _ (Clean p)); cbn [fst snd] in E;
        try discriminate; now injection E as <- _. }
    destruct r as [zr|e].
    + exists w', (Clean p :: opened). rewrite (Hsrc zr eq_refl) in L.
      split; [exact E'|]. split; [congruence|]. split; [congruence|]. split.
      { rewrite Hl', L. cbn [rev]. rewrite map_app, <- app_assoc. reflexivity. }
      split; [cbn [map]; now constructor|].
      intros Hfl Hzip. cbn [map]. f_equal.
      destruct (Hzip p (or_introl eq_refl)) as (es & Hes).
      destruct (OpenReader_ok p es w Hfl Hes) as (w1' & E1 & Qf & _).
      rewrite E in E1. injection E1 as _ <-.
      apply Hall; [exact Qf|].
      intros q Hq. rewrite Hf. apply Hzip. now right.
    + exists w', opened. split; [exact E'|]. split; [congruence|].
      split; [congruence|]. split; [now rewrite Hl', L|].
      split; [cbn [map]; now constructor|].
      intros Hfl Hzip. exfalso.
      destruct (Hzip p (or_introl eq_refl)) as (es & Hes).
      destruct (OpenReader_ok p es w Hfl Hes) as (w1' & E1 & _).
      rewrite E in E1. discriminate.
Qed.

(** The sample disk and the path of its zip archive. *)
Lemma run_leaves_zip_readers_open_witness :
  exists (w' : world) (opened : list string),
    discover.openEach ["go1.zip"] samples.disk = (Returns tt, w')
    /\ files w' = files samples.disk /\ dirs w' = dirs samples.disk
    /\ live w' = (map RZipReader (rev opened) ++ live samples.disk)%list
    /\ sublist opened (map Clean ["go1.zip"])
    /\ (faults samples.disk = [] ->
        (forall p, In p ["go1.zip"] ->
                   exists es, files samples.disk !! Clean p
                              = Some (ZipData es true)) ->
        opened = map Clean ["go1.zip"]).
Proof. exact (run_leaves_zip_readers_open ["go1.zip"] samples.disk). Defined.

(** ** [newArchive] reads the path as the pattern *)

(** X5. When [newArchive] returns an archive, the archive carries the path
    as it was given and no entry to extract, and it is marked as macOS
    exactly when the path matches [go*darwin*.tar.gz]. Its kind comes from
    the calls that take the path for the pattern: a path without [\[], [?]
    and [\\] is accepted only if it contains a star, and then as a zip
    archive when, read as a glob, it matches the text [go*.zip], and as a
    tar.gz archive when it matches the text [go*.tar.gz]. *)
Theorem newArchive_reads_path_as_pattern (p : string) (a : archive) :
  newArchive p = Returns (inl a) ->
  path a = p /\ extractEntries a = []
  /\ (macOS a = true <-> glob "go*darwin*.tar.gz" p)
  /\ (plain p = true ->
      starFree p = false
      /\ match kind a with
         | zipArchive => glob p "go*.zip"
         | tarGzArchive => glob p "go*.tar.gz"
         end).
Proof.
  intros H.
  assert (Hlit : plain p = true -> starFree p = false).
  { intros Hp. destruct (starFree p) eqn:Hs; [|reflexivity].
    rewrite (newArchive_rejects_literal_paths p Hp Hs) in H. discriminate. }
  unfold newArchive in H.
  destruct (matchOrPanic_go_darwin p) as (m & Em & Hm).
  rewrite Em in H.
  destruct (matchOrPanic p "go*.zip") as [[|]|e] eqn:Ez; try discriminate.
  - injection H as <-. cbn [path extractEntries macOS kind].
    repeat split; try apply Hm; auto.
    destruct (Match_glob p "go*.zip" H) as (b & Eb & Hb).
    unfold matchOrPanic in Ez. rewrite Eb in Ez. injection Ez as ->.
    now apply Hb.
  - destruct (matchOrPanic p "go*.tar.gz") as [[|]|e] eqn:Et; try discriminate.
    injection H as <-. cbn [path extractEntries macOS kind].
    repeat split; try apply Hm; auto.
    destruct (Match_glob p "go*.tar.gz" H) as (b & Eb & Hb).
    unfold matchOrPanic in Et. rewrite Eb in Et. injection Et as ->.
    now apply Hb.
Qed.

(** The path [go*.zip], which is the text of the pattern, is accepted as a
    zip archive. *)
Lemma newArchive_reads_path_as_pattern_witness :
  path (Archive "go*.zip" zipArchive false []) = "go*.zip"
  /\ extractEntries (Archive "go*.zip" zipArchive false []) = []
  /\ (macOS (Archive "go*.zip" zipArchive false []) = true
      <-> glob "go*darwin*.tar.gz" "go*.zip")
  /\ (plain "go*.zip" = true ->
      starFree "go*.zip" = false
      /\ match kind (Archive "go*.zip" zipArchive false []) with
         | zipArchive => glob "go*.zip" "go*.zip"
         | tarGzArchive => glob "go*.zip" "go*.tar.gz"
         end).
Proof.
  exact (newArchive_reads_path_as_pattern
           "go*.zip" (Archive "go*.zip" zipArchive false []) eq_refl).
Defined.

(** ** Extraction closes what it opens *)




(** ** Extraction of a macOS archive *)

Lemma selected_fullPath (a : archive) (name : string) (info : fileToSign) :
  selected a name = Some info ->
  fullPath info = Join [path a +:+ ".extracted"; name]
  /\ archivePath info = path a.
Proof.
  unfold selected, entrySignInfo, entryExtractDir.
  destruct (kind a).
  - destruct (HasSuffix name ".exe"); [|discriminate].
    now intros [= <-].
  - destruct (macOS a); [|discriminate].
    destruct (matchOrPanic "go/bin/*" name) as [[|]|]; try discriminate.
    + now intros [= <-].
    + destruct (matchOrPanic "pkg/tool/*/*" name) as [[|]|];
        try discriminate. now intros [= <-].
Qed.

(** X7. Extraction of a macOS tar.gz archive, when it succeeds, returns
    one request for each entry that the entry selector matches, in the
    order of the archive, with the staged path
    [filepath.Join(<archive path>.extracted, name)]; but the content of the
    entry is written at that path joined with the name once more,
    [filepath.Join(stagedPath, name)], and it succeeds exactly when the
    directory of that longer path exists for every selected entry. *)
Theorem macos_extraction_writes_below_staged_path
        (a : archive) (w : world) (es : list (tar.Header * fdata)) :
  kind a = tarGzArchive -> macOS a = true ->
  faults w = [] ->
  files w !! Clean (path a) = Some (TarGzData es true) ->
  find (fs.isFile w) (stagingDirs a) = None ->
  (stageable (tarSel a) tarKey (withStagingDirs a w) es = true ->
   exists w',
     prepareEntriesToSign a w = (Returns (inl (requestsOf (tarSel a) es)), w')
     /\ files w' = writesOf (tarSel a) tarKey es (files w)
     /\ forall pre h d post info,
         es = (pre ++ (h, d) :: post)%list ->
         tarSel a h = Some info ->
         fullPath info = Join [path a +:+ ".extracted"; tar.Name h]
         /\ ((forall h' d' info',
                 In (h', d') post -> tarSel a h' = Some info' ->
                 tarKey h' info' <> tarKey h info) ->
             files w' !! Clean (Join [fullPath info; tar.Name h]) = Some d))
  /\ (stageable (tarSel a) tarKey (withStagingDirs a w) es = false ->
      exists e w', prepareEntriesToSign a w = (Returns (inr e), w')).
Proof.
  intros Hk Hm Hf Hd Hfind.
  pose proof (prepare_tar_run a w Hk Hm Hf) as R. rewrite Hfind, Hd in R.
  split; intros Hs; rewrite Hs in R; [|exact R].
  destruct R as (w' & E & Qf & Qd & Qm & Ql).
  exists w'. split; [exact E|]. split; [exact Qm|].
  intros pre h d post info -> Hsel.
  split; [now apply (selected_fullPath a (tar.Name h))|].
  intros Hlast. rewrite Qm.
  apply (writesOf_last (tarSel a) tarKey pre post h d info (files w) Hsel Hlast).
Qed.

(** The sample macOS archive, on the disk where the directory
    [<staged path>/go/bin] has been made. *)
Lemma macos_extraction_writes_below_staged_path_witness :
  exists w',
    prepareEntriesToSign samples.darwinTarGz fixtures.darwinDiskWithDirs
    = (Returns (inl [FileToSign "go1.darwin-arm64.tar.gz"
                                "go1.darwin-arm64.tar.gz.extracted/go/bin/go"
                                "MacDeveloperHarden"]), w')
    /\ files w' !! "go1.darwin-arm64.tar.gz.extracted/go/bin/go/go/bin/go"
       = Some (Raw "ELF")
    /\ files w' !! "go1.darwin-arm64.tar.gz.extracted/go/bin/go" = None.
Proof.
  destruct (macos_extraction_writes_below_staged_path
              samples.darwinTarGz fixtures.darwinDiskWithDirs
              samples.darwinEntries eq_refl eq_refl eq_refl eq_refl eq_refl)
    as [Hok _].
  destruct (Hok eq_refl) as (w' & E & Hfiles & Hentry).
  exists w'. split; [exact E|]. split.
  - destruct (Hentry [] (samples.tarHeader "go/bin/go") (Raw "ELF")
                     [(samples.tarHeader "README", Raw "hi")]
                     (FileToSign "go1.darwin-arm64.tar.gz"
                                 "go1.darwin-arm64.tar.gz.extracted/go/bin/go"
                                 "MacDeveloperHarden")
                     eq_refl eq_refl) as [_ Hfile].
    apply Hfile. intros h' d' info' [[= <- <-]|[]]. discriminate.
  - rewrite Hfiles. reflexivity.
Defined.

(** ** Archives that are neither zip nor macOS *)

Lemma MkdirAll_files (p : string) (w : world) :
  exists (e : option error) (w' : world),
    os.MkdirAll p w = (Returns e, w')
    /\ trace w' = (trace w ++ [(OpMkdirAll p, e)])%list
    /\ files w' = files w /\ live w' = live w.
Proof.
  unfold os.MkdirAll, bind, io.attempt, io.popFault.
  destruct (faults w) as [|[e|] fl]; cbv beta iota zeta.
  - destruct (find (fs.isFile w) _); eexists _, _; repeat split.
  - eexists _, _; repeat split.
  - cbn [fs.setFaults files]. destruct (find _ _); eexists _, _; repeat split.
Qed.

(** X8. A tar.gz archive that is not a macOS archive is never read.
    Extraction calls [MkdirAll] for the staging directory and nothing else:
    it returns the error of that call, or no request; no file is written
    and nothing is opened, whether or not the archive exists. Repack
    returns [nil] and leaves the world as it is. *)
Theorem other_tar_gz_is_never_read (destinationDir : string) (a : archive)
        (w : world) :
  kind a = tarGzArchive -> macOS a = false ->
  (exists (e : option error) (w' : world),
      prepareEntriesToSign a w
      = (Returns match e with Some e => inr e | None => inl [] end, w')
      /\ trace w' = (trace w ++ [(OpMkdirAll (path a +:+ ".extracted"), e)])%list
      /\ files w' = files w /\ live w' = live w)
  /\ repackSignedEntries destinationDir a w = (Returns None, w).
Proof.
  intros Hk Hm. split.
  - unfold prepareEntriesToSign, bind, entryExtractDir.
    destruct (MkdirAll_files (path a +:+ ".extracted") w)
      as (e & w' & E & T & F & L).
    rewrite E, Hk, Hm. exists e, w'. destruct e; auto.
  - unfold repackSignedEntries, isZip. rewrite Hk, Hm. reflexivity.
Qed.

Lemma other_tar_gz_is_never_read_witness :
  (exists (e : option error) (w' : world),
      prepareEntriesToSign samples.linuxTarGz samples.disk
      = (Returns match e with Some e => inr e | None => inl [] end, w')
      /\ trace w'
         = ([] ++ [(OpMkdirAll ("go1.linux-amd64.tar.gz" +:+ ".extracted"), e)])%list
      /\ files w' = files samples.disk /\ live w' = [])
  /\ repackSignedEntries "" samples.linuxTarGz samples.disk
     = (Returns None, samples.disk).
Proof.
  exact (other_tar_gz_is_never_read "" samples.linuxTarGz samples.disk
                                    eq_refl eq_refl).
Defined.

(** ** Repack of a macOS archive *)




(** ** Repack does not make the directory of its destination *)



(** ** Extraction, then repack *)









(** ** Repack, twice *)



(** ** [writeFile] *)

(** X13. [writeFile] reports success only when the file holds the whole
    content of the reader: whatever the plan of faults, if it returns [nil]
    then the reader could be read to its end and the file at the cleaned
    path holds what it yielded, replacing what the file held before; a
    reader that fails is never written as if it had ended. *)
Theorem writeFile_nil_means_written (p : string) (r : stream) (w w' : world) :
  writeFile p r w = (Returns None, w') ->
  exists d, r = Content d /\ files w' !! Clean p = Some d.
Proof.
  unfold writeFile, bind. intros H.
  destruct (os.Create p w) as [[[f|e]|e] w0] eqn:Ec; try discriminate.
  pose proof (Create_fname p w w0 f Ec) as Hn.
  destruct (io.Copy (FileWriter (os.fname f)) r w0) as [[err|e] w1] eqn:Ey;
    try discriminate.
  destruct (io.Close (RFile (os.fname f)) w1) as [[cerr|e] w2] eqn:Ez;
    try discriminate.
  unfold ret in H. injection H as Ho <-.
  destruct err; [discriminate|]. cbn [orElse] in Ho. subst cerr.
  assert (Hcopy : exists d, r = Content d
                            /\ files w1 !! os.fname f = Some d).
  { unfold io.Copy, bind, io.attempt, io.popFault in Ey.
    destruct (faults w0) as [|[e|] fl]; destruct r as [d|e'];
      cbn [fst snd errOf] in Ey; unfold ret in Ey; try discriminate;
      injection Ey as <-; exists d; (split; [reflexivity|]); cbn;
      apply lookup_insert_eq. }
  destruct Hcopy as (d & -> & Hd). exists d. split; [reflexivity|].
  rewrite <- Hn.
  unfold io.Close, io.closeWith, io.popFault in Ez.
  destruct (faults w1) as [|[e|] fl]; try discriminate;
    injection Ez as <-; exact Hd.
Qed.

Lemma writeFile_nil_means_written_witness :
  exists d, Content (Raw "MZ") = Content d
            /\ files (snd (writeFile "a.exe" (Content (Raw "MZ")) samples.disk))
               !! Clean "a.exe" = Some d.
Proof.
  exact (writeFile_nil_means_written
           "a.exe" (Content (Raw "MZ")) samples.disk
           (snd (writeFile "a.exe" (Content (Raw "MZ")) samples.disk)) eq_refl).
Defined.

(** X14. [writeFile] touches the file at its path and nothing else: whatever
    fails, no directory is made and every other file holds afterwards what
    it held before. In particular the directory of the path is not
    made. *)
Theorem writeFile_touches_its_path_only
        (p : string) (r : stream) (w w' : world) (out : outcome (option error)) :
  writeFile p r w = (out, w') ->
  dirs w' = dirs w
  /\ forall k : string, k <> Clean p -> files w' !! k = files w !! k.
Proof.
  intros H.
  assert (Hc : confined id (fun k => k = Clean p) (writeFile p r)).
  { unfold writeFile. apply confined_bind; [now apply confined_Create|].
    intros [f|e] w0 w1 E; [|apply confined_ret].
    apply Create_fname in E.
    apply confined_bind; [now apply confined_Copy|]. intros.
    apply confined_bind; [now apply confined_closeWith|]. intros.
    apply confined_ret. }
  exact (Hc w out w' H).
Qed.

Lemma writeFile_touches_its_path_only_witness :
  dirs (snd (writeFile "go/bin/go" (Content (Raw "ELF")) samples.disk))
  = dirs samples.disk
  /\ forall k : string,
      k <> Clean "go/bin/go" ->
      files (snd (writeFile "go/bin/go" (Content (Raw "ELF")) samples.disk)) !! k
      = files samples.disk !! k.
Proof.
  exact (writeFile_touches_its_path_only
           "go/bin/go" (Content (Raw "ELF")) samples.disk _ _ eq_refl).
Defined.

(** ** [openTarGz] *)


(** ** Repack when the source or a staged file is missing *)

(** X16. Repack creates the destination before it opens the source. When
    the file of a zip archive is missing, is a directory or is not a complete
    zip archive, repack returns the error of [zip.OpenReader] and leaves an
    empty file at the destination; nothing else is written and nothing is
    left open. *)
Theorem repack_of_unreadable_zip_leaves_empty_file
        (destinationDir : string) (a : archive) (w : world) :
  kind a = zipArchive -> faults w = [] ->
  creatable w (destination destinationDir a) = true ->
  destination destinationDir a <> Clean (path a) ->
  (forall es, files w !! Clean (path a) <> Some (ZipData es true)) ->
  exists (e : error) (w' : world),
    repackSignedEntries destinationDir a w = (Returns (Some e), w')
    /\ (e = ErrFormat \/ e = ErrIsDir (Clean (path a))
        \/ e = ErrNotExist (Clean (path a)))
    /\ files w' = <[destination destinationDir a := Raw ""]> (files w)
    /\ dirs w' = dirs w /\ live w' = live w.
Proof.
  intros Hk Hf Hc Hne Hno. unfold repackSignedEntries, isZip. rewrite Hk.
  cbn [orb]. unfold destination in *.
  set (dst := Join [destinationDir; path a +:+ ".withSignedContent"]) in *.
  unfold writeSignedArchive. rewrite Hk. unfold openZip, bind, ret.
  run (Create_ok dst w). cbn [os.fname].
  assert (Hd0 : files w0 !! Clean (path a) = files w !! Clean (path a)).
  { rewrite Qm. now apply lookup_insert_ne. }
  assert (Hopen : exists e,
             archive_zip.OpenReader (path a) w0
             = (Returns (inr e),
                fs.log (OpZipOpenReader (path a), Some e) w0)
             /\ (e = ErrFormat \/ e = ErrIsDir (Clean (path a))
                 \/ e = ErrNotExist (Clean (path a)))).
  { unfold archive_zip.OpenReader. rewrite attempt_nofault by exact Qf.
    cbv zeta. rewrite Hd0.
    destruct (files w !! Clean (path a)) as [[b|es [|]|es c]|] eqn:Ed;
      cbn [fst snd errOf]; eauto.
    - now destruct (Hno es).
    - destruct (fs.dirExists w0 (Clean (path a))); cbn [fst snd errOf]; eauto 6. }
  destruct Hopen as (e & Eo & He). rewrite Eo. cbv beta iota.
  destruct (Close_ok (RFile (Clean dst))
                     (fs.log (OpZipOpenReader (path a), Some e) w0) Qf)
    as (w1 & E1 & Qf1 & Qd1 & Qm1 & Ql1).
  rewrite E1. cbv beta iota. cbn [orElse].
  exists e, w1. split; [reflexivity|]. split; [exact He|].
  cbn [io.closeEffect files fs.log dirs live] in *.
  split; [congruence|]. split; [congruence|].
  rewrite Ql1, Ql. apply releaseFrom_head.
Qed.

(** The sample disk has no archive [go9.zip]. *)
Lemma repack_of_unreadable_zip_leaves_empty_file_witness :
  exists (e : error) (w' : world),
    repackSignedEntries "" (Archive "go9.zip" zipArchive false []) samples.disk
    = (Returns (Some e), w')
    /\ (e = ErrFormat \/ e = ErrIsDir "go9.zip" \/ e = ErrNotExist "go9.zip")
    /\ files w' = <["go9.zip.withSignedContent" := Raw ""]> (files samples.disk)
    /\ dirs w' = dirs samples.disk /\ live w' = live samples.disk.
Proof.
  refine (repack_of_unreadable_zip_leaves_empty_file
            "" (Archive "go9.zip" zipArchive false []) samples.disk
            eq_refl eq_refl eq_refl _ _); discriminate.
Defined.




(** ** Paths: elements and [Clean] *)

Lemma elements_plain (e : string) :
  containsSep e = false -> elements e = [e].
Proof.
  induction e as [|c e IH]; intros Hs; [reflexivity|].
  cbn [containsSep] in Hs. apply orb_false_elim in Hs as [Hc Hs].
  cbn [elements]. rewrite Hc, (IH Hs). reflexivity.
Qed.

Lemma elements_append_sep (e t : string) :
  containsSep e = false ->
  elements (e +:+ "/" +:+ t) = e :: elements t.
Proof.
  induction e as [|c e IH]; intros Hs.
  - rewrite append_nil_l. reflexivity.
  - cbn [containsSep] in Hs. apply orb_false_elim in Hs as [Hc Hs].
    rewrite append_cons. cbn [elements]. rewrite Hc, (IH Hs). reflexivity.
Qed.

Lemma eqb_length (x y : string) :
  String.length x <> String.length y -> String.eqb x y = false.
Proof.
  intros H. destruct (String.eqb_spec x y) as [->|]; [contradiction|reflexivity].
Qed.

(** An element that is neither empty nor [.] nor [..]. *)
Lemma cleanStep_push (rooted : bool) (out : list string) (e : string) :
  2 < String.length e -> cleanStep rooted out e = e :: out.
Proof.
  intros H. unfold cleanStep.
  rewrite !eqb_length by (cbn [String.length]; lia). reflexivity.
Qed.

(** X18. The staged path of an entry is not kept inside the staging
    directory: [entrySignInfo] joins the name of the entry to the directory
    and cleans the result, so a name that begins with [../] is staged beside
    the archive. For a zip archive in the working directory and an entry
    [../n] that ends with [.exe], the staged path is [n]. *)
Theorem entrySignInfo_path_leaves_staging_dir (a : archive) (n : string) :
  kind a = zipArchive ->
  containsSep (path a) = false ->
  containsSep n = false ->
  HasSuffix n ".exe" = true ->
  entrySignInfo a ("../" +:+ n)
  = Returns (Some (FileToSign (path a) n "Microsoft400")).
Proof.
  intros Hk Hp Hn Hx. unfold entrySignInfo. rewrite Hk.
  assert (Hlen : 4 <= String.length n).
  { unfold HasSuffix in Hx. apply andb_prop in Hx as [Hx _].
    apply Nat.leb_le in Hx. exact Hx. }
  assert (Hx' : HasSuffix ("../" +:+ n) ".exe" = true).
  { apply HasSuffix_endsWith. apply HasSuffix_endsWith in Hx as (pre & ->).
    exists ("../" +:+ pre). now rewrite append_assoc. }
  rewrite Hx'. do 3 f_equal. unfold entryExtractDir.
  set (dir := path a +:+ ".extracted").
  assert (Hd : containsSep dir = false).
  { unfold dir. now rewrite containsSep_append, Hp. }
  assert (Hdl : 2 < String.length dir).
  { unfold dir. rewrite length_append. cbn [String.length]. lia. }
  cbn [Join]. destruct dir as [|c dir'] eqn:Edir; [cbn in Hdl; lia|].
  cbn [is_empty joinSep]. rewrite <- Edir in *.
  change ("../" +:+ n) with (".." +:+ "/" +:+ n).
  unfold Clean.
  assert (Hfirst : exists c1 t1, dir +:+ "/" +:+ ".." +:+ "/" +:+ n = String c1 t1
                                 /\ Ascii.eqb c1 "/" = false).
  { rewrite Edir, append_cons. exists c, (dir' +:+ "/" +:+ ".." +:+ "/" +:+ n).
    split; [reflexivity|]. rewrite Edir in Hd. cbn [containsSep] in Hd.
    now apply orb_false_elim in Hd as [Hc _]. }
  destruct Hfirst as (c1 & t1 & Heq & Hc1).
  assert (Hel : elements (dir +:+ "/" +:+ ".." +:+ "/" +:+ n) = [dir; ".."; n]).
  { rewrite elements_append_sep by exact Hd.
    rewrite elements_append_sep by reflexivity.
    now rewrite elements_plain by exact Hn. }
  rewrite Heq in *. rewrite Hc1, Hel. cbn [fold_left].
  rewrite (cleanStep_push false [] dir Hdl).
  assert (Hpop : cleanStep false [dir] ".." = []).
  { unfold cleanStep. cbn [String.eqb Ascii.eqb Bool.eqb orb].
    now rewrite (eqb_length dir "..") by (cbn [String.length]; lia). }
  rewrite Hpop. rewrite cleanStep_push by lia. reflexivity.
Qed.

Lemma entrySignInfo_path_leaves_staging_dir_witness :
  entrySignInfo samples.windowsZip ("../" +:+ "go1.exe")
  = Returns (Some (FileToSign (path samples.windowsZip) "go1.exe" "Microsoft400")).
Proof.
  exact (entrySignInfo_path_leaves_staging_dir
           samples.windowsZip "go1.exe" eq_refl eq_refl eq_refl eq_refl).
Defined.

(** ** [eachZipEntry] on callbacks that return [nil] *)

Lemma rangeFiles_nil {S : Type} (f : archive_zip.File -> M S (option error))
      (files : list archive_zip.File) :
  forall s s' : S,
    rangeFiles files f s = (Returns None, s') ->
    visitFiles f files s = Some s'.
Proof.
  induction files as [|x files IH]; intros s s' H.
  - cbn [rangeFiles] in H. unfold ret in H. now injection H as <-.
  - cbn [rangeFiles visitFiles] in *. unfold bind in H.
    destruct (f x s) as [[[e|]|e] s1]; try discriminate.
    now apply IH.
Qed.

(** X19. [eachZipEntry] returns [nil] exactly when the callback has been
    called on every file of the archive, in the order of the archive, and
    has returned [nil] each time; the state is then the one the last call
    left. On an archive without files the callback is not called. *)
Theorem eachZipEntry_nil_iff_all_nil :
  forall (S : Type) (f : archive_zip.File -> M S (option error))
         (r : archive_zip.ReadCloser) (s s' : S),
    eachZipEntry r f s = (Returns None, s')
    <-> visitFiles f (archive_zip.Files r) s = Some s'.
Proof.
  intros S f r s s'. unfold eachZipEntry. split.
  - apply rangeFiles_nil.
  - apply rangeFiles_completes.
Qed.

(** The callback that fails at no file, on the sample archive of three
    files. *)
Lemma eachZipEntry_nil_iff_all_nil_witness :
  eachZipEntry samples.threeFiles (samples.noteFile "none") []
  = (Returns None, ["a.exe"; "b.txt"; "c.txt"]).
Proof.
  apply (eachZipEntry_nil_iff_all_nil
           (list string) (samples.noteFile "none") samples.threeFiles
           [] ["a.exe"; "b.txt"; "c.txt"]).
  reflexivity.
Defined.

(** ** [name] and [targetPath] *)

Section BaseName.
Import filepath_base.

Lemma lastElement_no_sep (s : string) : containsSep (lastElement s) = false.
Proof.
  induction s as [|c s IH]; [reflexivity|].
  cbn [lastElement]. destruct (containsSep (String c s)) eqn:E; [exact IH|exact E].
Qed.

Lemma lastElement_plain (n : string) :
  containsSep n = false -> lastElement n = n.
Proof. intros H. destruct n; [reflexivity|]. cbn [lastElement]. now rewrite H. Qed.

Lemma lastElement_append_sep (x n : string) :
  containsSep n = false -> lastElement (x +:+ "/" +:+ n) = n.
Proof.
  intros Hn. induction x as [|c x IH].
  - rewrite append_nil_l. change ("/" +:+ n) with (String "/" n).
    cbn [lastElement containsSep]. rewrite Ascii.eqb_refl. cbn [orb].
    now apply lastElement_plain.
  - rewrite append_cons. cbn [lastElement].
    assert (H : containsSep (String c (x +:+ "/" +:+ n)) = true).
    { cbn [containsSep]. rewrite !containsSep_append. cbn [containsSep].
      rewrite Ascii.eqb_refl. cbn. now rewrite !orb_true_r. }
    now rewrite H.
Qed.

Lemma trimSeps_plain (n : string) :
  n <> "" -> containsSep n = false -> trimSeps n = n.
Proof.
  induction n as [|c n IH]; intros Hne Hs; [congruence|].
  cbn [containsSep] in Hs. apply orb_false_elim in Hs as [Hc Hs].
  cbn [trimSeps]. destruct n as [|d n].
  - cbn [trimSeps]. now rewrite Hc.
  - rewrite IH by (auto; discriminate). reflexivity.
Qed.

Lemma trimSeps_append (x y : string) :
  trimSeps y <> "" -> trimSeps (x +:+ y) = x +:+ trimSeps y.
Proof.
  intros Hy. induction x as [|c x IH]; [now rewrite !append_nil_l|].
  rewrite !append_cons. cbn [trimSeps]. rewrite IH.
  destruct (x +:+ trimSeps y) eqn:E; [|reflexivity].
  destruct x; [|discriminate]. rewrite append_nil_l in E. contradiction.
Qed.

Lemma Base_of_last (x n : string) :
  n <> "" -> containsSep n = false ->
  filepath_base.Base (x +:+ "/" +:+ n) = n
  /\ filepath_base.Base n = n.
Proof.
  intros Hne Hs.
  assert (Ht : trimSeps n = n) by now apply trimSeps_plain.
  assert (He : is_empty n = false) by (destruct n; [congruence|reflexivity]).
  split; unfold filepath_base.Base.
  - assert (Hx : is_empty (x +:+ "/" +:+ n) = false).
    { destruct x; [rewrite append_nil_l|rewrite append_cons]; reflexivity. }
    rewrite Hx. cbv zeta.
    rewrite <- append_assoc, trimSeps_append by (rewrite Ht; exact Hne).
    rewrite Ht, append_assoc, lastElement_append_sep by exact Hs.
    now rewrite He.
  - rewrite He. cbv zeta. now rewrite Ht, lastElement_plain, He.
Qed.

Lemma Base_shape (p : string) :
  Base p <> "" /\ (containsSep (Base p) = true -> Base p = "/").
Proof.
  unfold Base. destruct (is_empty p); [split; discriminate|]. cbv zeta.
  pose proof (lastElement_no_sep (trimSeps p)) as H.
  destruct (lastElement (trimSeps p)) eqn:E; [split; [discriminate|reflexivity]|].
  cbn [is_empty]. split; [discriminate|congruence].
Qed.

(** X20. The name of an archive is the last element of its path: it is never
    empty, it contains no separator unless the path is made of separators
    only (the name is then the root), it is [.] for the empty path, and for a
    path [dir/n] it is [n]. *)
Theorem name_is_last_element (a : archive) :
  filepath_base.name a <> ""
  /\ (containsSep (filepath_base.name a) = true -> filepath_base.name a = "/")
  /\ (path a = "" -> filepath_base.name a = ".")
  /\ (forall dir n,
         path a = dir +:+ "/" +:+ n -> n <> "" -> containsSep n = false ->
         filepath_base.name a = n).
Proof.
  unfold filepath_base.name.
  destruct (Base_shape (path a)) as [H0 Hsep].
  split; [exact H0|]. split; [exact Hsep|]. split.
  - intros ->. reflexivity.
  - intros dir n Hp Hne Hs. rewrite Hp.
    exact (proj1 (Base_of_last dir n Hne Hs)).
Qed.

(** The archive [tosign/go1.zip] is called [go1.zip]. *)
Lemma name_is_last_element_witness :
  filepath_base.name fixtures.tosignZip = "go1.zip".
Proof.
  destruct (name_is_last_element fixtures.tosignZip) as (_ & _ & _ & H).
  apply (H "tosign" "go1.zip"); [reflexivity|discriminate|reflexivity].
Defined.

Lemma elements_nonempty (s : string) : elements s <> [].
Proof.
  destruct s as [|c s]; [discriminate|]. cbn [elements].
  destruct (Ascii.eqb c "/"); [discriminate|].
  destruct (elements s); discriminate.
Qed.

Lemma elements_append (x t : string) :
  elements (x +:+ "/" +:+ t) = (elements x ++ elements t)%list.
Proof.
  induction x as [|c x IH].
  - rewrite append_nil_l. reflexivity.
  - rewrite append_cons. cbn [elements]. rewrite IH.
    destruct (Ascii.eqb c "/"); [reflexivity|].
    pose proof (elements_nonempty x) as Hx.
    destruct (elements x); [congruence|reflexivity].
Qed.

Lemma joinSep_snoc (xs : list string) (e : string) :
  xs <> [] -> joinSep (xs ++ [e]) = joinSep xs +:+ "/" +:+ e.
Proof.
  induction xs as [|x xs IH]; intros Hne; [congruence|].
  destruct xs as [|y xs]; [reflexivity|].
  change (joinSep ((x :: y :: xs) ++ [e]))
    with (x +:+ "/" +:+ joinSep ((y :: xs) ++ [e])).
  rewrite IH by discriminate.
  change (joinSep (x :: y :: xs)) with (x +:+ "/" +:+ joinSep (y :: xs)).
  now rewrite !append_assoc.
Qed.

Lemma cleanStep_ordinary (rooted : bool) (out : list string) (e : string) :
  e <> "" -> e <> "." -> e <> ".." -> cleanStep rooted out e = e :: out.
Proof.
  intros H0 H1 H2. unfold cleanStep.
  destruct (String.eqb_spec e ""); [contradiction|].
  destruct (String.eqb_spec e "."); [contradiction|].
  destruct (String.eqb_spec e ".."); [contradiction|]. reflexivity.
Qed.

(** A cleaned path whose last element is ordinary ends with it. *)
Lemma Clean_ends_with (x n : string) :
  n <> "" -> n <> "." -> n <> ".." -> containsSep n = false ->
  (exists y, Clean (x +:+ "/" +:+ n) = y +:+ "/" +:+ n)
  \/ Clean (x +:+ "/" +:+ n) = n.
Proof.
  intros H0 H1 H2 Hs. unfold Clean.
  destruct (x +:+ "/" +:+ n) as [|c t] eqn:E.
  { destruct x; discriminate. }
  rewrite <- E, elements_append, (elements_plain n Hs), fold_left_app.
  cbn [fold_left]. rewrite cleanStep_ordinary by assumption.
  cbn [rev]. set (out := rev (fold_left _ (elements x) [])).
  destruct out as [|o out'] eqn:Eo.
  - cbn [app joinSep]. destruct (Ascii.eqb c "/"); [left; exists ""|right];
      reflexivity.
  - rewrite joinSep_snoc by discriminate.
    destruct (Ascii.eqb c "/"); left; eexists.
    + rewrite <- append_assoc. reflexivity.
    + reflexivity.
Qed.

Lemma Clean_ordinary (n : string) :
  n <> "" -> n <> "." -> n <> ".." -> containsSep n = false -> Clean n = n.
Proof.
  intros H0 H1 H2 Hs.
  assert (Hstep : fold_left (cleanStep false) (elements n) [] = [n]).
  { rewrite (elements_plain n Hs). cbn [fold_left].
    now apply cleanStep_ordinary. }
  unfold Clean. destruct n as [|c t]; [congruence|].
  cbn [containsSep] in Hs. apply orb_false_elim in Hs as [Hc _].
  rewrite Hc, Hstep. reflexivity.
Qed.

(** X21. The target path of an archive is a file of that name: unless the
    name of the archive is [.], [..] or the root, the last element of
    [targetPath], whatever the destination directory, is the name of the
    archive. *)
Theorem targetPath_keeps_name (destinationDir : string) (a : archive) :
  filepath_base.name a <> "." ->
  filepath_base.name a <> ".." ->
  filepath_base.name a <> "/" ->
  filepath_base.Base (filepath_base.targetPath destinationDir a)
  = filepath_base.name a.
Proof.
  intros H1 H2 H3.
  destruct (Base_shape (path a)) as [H0 Hsep].
  fold (filepath_base.name a) in H0, Hsep.
  assert (Hs : containsSep (filepath_base.name a) = false).
  { destruct (containsSep (filepath_base.name a)) eqn:E; [|reflexivity].
    now specialize (Hsep eq_refl). }
  unfold filepath_base.targetPath. set (n := filepath_base.name a) in *.
  assert (Hn : is_empty n = false) by (destruct n; [congruence|reflexivity]).
  cbn [Join]. destruct (is_empty destinationDir).
  - rewrite Hn. cbn [joinSep]. rewrite Clean_ordinary by assumption.
    exact (proj2 (Base_of_last "" n H0 Hs)).
  - cbn [joinSep].
    destruct (Clean_ends_with destinationDir n H0 H1 H2 Hs) as [(y & ->)| ->].
    + exact (proj1 (Base_of_last y n H0 Hs)).
    + exact (proj2 (Base_of_last "" n H0 Hs)).
Qed.

(** The archive [tosign/go1.zip] and the destination directory [signed]. *)
Lemma targetPath_keeps_name_witness :
  filepath_base.Base (filepath_base.targetPath "signed" fixtures.tosignZip)
  = filepath_base.name fixtures.tosignZip.
Proof.
  apply (targetPath_keeps_name "signed" fixtures.tosignZip);
    vm_compute; discriminate.
Defined.

End BaseName.
